(** * Prerequisite build engine (site_scons/prereq_tools/base.py)

    A shallow embedding of the prerequisite resolution and build
    orchestration engine: the command runner, the two retrievers, the
    component definition and the component registry.  The interpreter's
    own library (os.path, subprocess, tarfile, hashlib) and the SCons
    construction environment are external collaborators: operations on
    paths that are pure string functions are written out, everything that
    touches the machine is a field of a [host] record over an abstract
    world. *)

From Stdlib Require Import ZArith Ascii String List Bool Lia.
From stdpp Require Import base option list gmap strings pretty.

Local Open Scope string_scope.
Local Open Scope list_scope.

(** ** Strings the way the interpreter treats them *)

Module Str.

Definition startswith (s p : string) : bool := String.prefix p s.

Fixpoint rev (s : string) : string :=
  match s with
  | EmptyString => EmptyString
  | String c r => rev r +:+ String c EmptyString
  end.

Definition endswith (s p : string) : bool := String.prefix (rev p) (rev s).

(** [s.split(c)] for a one character separator: never an empty list. *)
Fixpoint split (c : ascii) (s : string) : list string :=
  match s with
  | EmptyString => [EmptyString]
  | String a r =>
      if Ascii.eqb a c then EmptyString :: split c r
      else match split c r with
           | [] => [String a EmptyString]
           | w :: ws => String a w :: ws
           end
  end.

(** [sep.join(l)] *)
Fixpoint join (sep : string) (l : list string) : string :=
  match l with
  | [] => EmptyString
  | [x] => x
  | x :: r => x +:+ sep +:+ join sep r
  end.

(** Iterating a string yields its characters as one character strings. *)
Fixpoint chars (s : string) : list string :=
  match s with
  | EmptyString => []
  | String a r => String a EmptyString :: chars r
  end.

(** [x in s] for strings: substring test. *)
Fixpoint contains (s x : string) : bool :=
  String.prefix x s ||
  match s with
  | EmptyString => false
  | String _ r => contains r x
  end.

(** Longest common prefix of two strings, character by character. *)
Fixpoint lcp (a b : string) : string :=
  match a, b with
  | String x a', String y b' =>
      if Ascii.eqb x y then String x (lcp a' b') else EmptyString
  | _, _ => EmptyString
  end.

Definition upper_ascii (a : ascii) : ascii :=
  let n := nat_of_ascii a in
  if (97 <=? n)%nat && (n <=? 122)%nat then ascii_of_nat (n - 32) else a.

Fixpoint upper (s : string) : string :=
  match s with
  | EmptyString => EmptyString
  | String a r => String (upper_ascii a) (upper r)
  end.

Definition truthy (s : string) : bool := negb (String.eqb s "").

End Str.

(** ** posixpath *)

Module Path.

Definition sep : string := "/".

(** [os.path.join(a, b)] *)
Definition join (a b : string) : string :=
  if Str.startswith b sep then b
  else if negb (Str.truthy a) || Str.endswith a sep then a +:+ b
  else a +:+ sep +:+ b.

Definition join3 (a b c : string) : string := join (join a b) c.

Definition isabs (p : string) : bool := Str.startswith p sep.

(** One step of the component loop of [normpath]. *)
Definition norm_step (initial_slashes : nat) (new_comps : list string)
    (comp : string) : list string :=
  if String.eqb comp "" || String.eqb comp "." then new_comps
  else if negb (String.eqb comp "..")
          || (Nat.eqb initial_slashes 0 && bool_decide (new_comps = []))
          || (match last new_comps with
              | Some l => String.eqb l ".."
              | None => false
              end)
  then new_comps ++ [comp]
  else removelast new_comps.

Fixpoint repeat_sep (n : nat) : string :=
  match n with
  | O => ""
  | S k => sep +:+ repeat_sep k
  end.

(** [os.path.normpath(path)] *)
Definition normpath (path : string) : string :=
  if negb (Str.truthy path) then "."
  else
    let initial_slashes :=
      if Str.startswith path "/" then
        if Str.startswith path "//" && negb (Str.startswith path "///")
        then 2%nat else 1%nat
      else 0%nat in
    let comps := fold_left (norm_step initial_slashes) (Str.split "/" path) [] in
    let p := repeat_sep initial_slashes +:+ Str.join "/" comps in
    if Str.truthy p then p else ".".

(** [os.path.abspath(path)], with the working directory made explicit. *)
Definition abspath (cwd path : string) : string :=
  normpath (if isabs path then path else join cwd path).

(** [os.path.commonprefix(m)]: the longest string that is a character
    prefix of every element (the library takes the least and the
    greatest element and compares those two, which is the same string). *)
Definition commonprefix (m : list string) : string :=
  match m with
  | [] => ""
  | x :: r => fold_left Str.lcp r x
  end.

Fixpoint basename_aux (p acc : string) : string :=
  match p with
  | EmptyString => acc
  | String a r =>
      if Ascii.eqb a "/" then basename_aux r EmptyString
      else basename_aux r (acc +:+ String a EmptyString)
  end.

(** [os.path.basename(p)]: what follows the last slash. *)
Definition basename (p : string) : string := basename_aux p EmptyString.

End Path.

(** ** Exceptions *)

Inductive exn : Type :=
| DownloadFailure (repo component : string)
| ExtractionError (component : string)
| UnsupportedCompression (component : string)
| MissingDefinition (component : string)
| BuildFailure (component : string)
| MissingTargets (component : string) (package : option string)
| MissingSystemLibs (component : string)
| DownloadRequired (component : string)
| BuildRequired (component : string)
| IOError (msg path : string)
| TypeError (msg : string)
| ValueError (msg : string)
| KeyError (key : string)
| PyException (msg : string).

(** ** The construction environment

    An SCons environment is opaque to the engine.  What the engine reads
    and writes is kept: list valued construction variables (CPPPATH,
    LIBPATH, RPATH, RPATH_FULL, CPPDEFINES, LINKFLAGS, LIBS), scalar
    variables (CC, the <NAME>_PREFIX variables) and the process
    environment env['ENV'], whose path variables are kept split at
    os.pathsep. *)

Record Env : Type := mkEnv {
  cvars : gmap string (list string);
  svars : gmap string (option string);
  ENV : gmap string (list string)
}.

Definition append_unique (l : list string) (x : string) : list string :=
  if bool_decide (x ∈ l) then l else l ++ [x].

(** [env.AppendUnique(KEY=[x])] *)
Definition AppendUnique (key x : string) (e : Env) : Env :=
  mkEnv (<[key := append_unique (default [] (cvars e !! key)) x]> (cvars e))
        (svars e) (ENV e).

(** [env.AppendENVPath(NAME, path)]: a path already there stays where it is. *)
Definition AppendENVPath (name path : string) (e : Env) : Env :=
  mkEnv (cvars e) (svars e)
        (<[name := append_unique (default [] (ENV e !! name)) path]> (ENV e)).

(** [env.Replace(KEY=value)] *)
Definition Replace (key : string) (v : option string) (e : Env) : Env :=
  mkEnv (cvars e) (<[key := v]> (svars e)) (ENV e).

Definition env_get (key : string) (e : Env) : option string :=
  default None (svars e !! key).

(** What pkg-config printed, already parsed by ParseFlags: construction
    variable and the values to merge into it. *)
Definition flags : Type := list (string * list string).

(** The values of [l], each once, at its first place. *)
Definition keep_leftmost (l : list string) : list string :=
  fold_left append_unique l [].

(** The values of [l], each once, at its last place. *)
Definition keep_rightmost (l : list string) : list string :=
  fold_left (fun t v => if bool_decide (v ∈ t) then t else v :: t) (rev l) [].

(** [env.MergeFlags(flags)] as [env.ParseConfig] calls it, with
    unique=True: a variable that gets no value is left alone; the values
    are added to what the variable holds, and of a value that is there
    more than once SCons keeps the left-most occurrence when the name of
    the variable ends in PATH and the right-most otherwise. *)
Definition merge_flag (key : string) (value : list string) (e : Env) : Env :=
  match value with
  | [] => e
  | _ =>
      let orig := default [] (cvars e !! key) ++ value in
      mkEnv (<[key := if Str.endswith key "PATH" then keep_leftmost orig
                      else keep_rightmost orig]> (cvars e))
            (svars e) (ENV e)
  end.

Definition MergeFlags (fl : flags) (e : Env) : Env :=
  fold_left (fun e kv => merge_flag kv.1 kv.2 e) fl e.

(** [ConfigParser]: section, option, value. *)
Definition config : Type := gmap string (gmap string string).

(** ** The machine

    Everything the engine asks of the operating system, of the archive
    and hash libraries and of SCons's configure checks.  A [None] is the
    call raising (an OSError, or a TarError for the archive calls); for
    [subprocess_call] it is the program that cannot be started. *)

Record host (W : Type) : Type := mkHost {
  os_path_exists : W -> string -> bool;
  os_path_isdir : W -> string -> bool;
  os_getcwd : W -> string;
  os_environ_get : W -> string -> option string;
  os_listdir : W -> string -> list string;
  file_md5 : W -> string -> string;
  os_remove : W -> string -> W;
  os_makedirs : W -> string -> option W;
  os_mkdir : W -> string -> W;
  os_rename : W -> string -> string -> option W;
  shutil_rmtree : W -> string -> W;
  time_sleep : W -> nat -> W;
  subprocess_call : W -> list string -> option string -> gmap string (list string)
                    -> option (Z * W);
  tar_getnames : W -> string -> option (list string);
  tar_extractall : W -> string -> string -> option W;
  pkg_config : W -> gmap string (list string) -> string -> option flags;
  configparser_read : W -> string -> config -> config;
  subst : Env -> string -> string;
  CheckProg : W -> Env -> string -> bool;
  CheckHeader : W -> Env -> string -> bool;
  CheckLib : W -> Env -> string -> bool * Env;
  CheckFunc : W -> Env -> string -> bool
}.

Arguments os_path_exists {W}. Arguments os_path_isdir {W}.
Arguments os_getcwd {W}. Arguments os_environ_get {W}.
Arguments os_listdir {W}. Arguments file_md5 {W}.
Arguments os_remove {W}. Arguments os_makedirs {W}.
Arguments os_mkdir {W}. Arguments os_rename {W}.
Arguments shutil_rmtree {W}. Arguments time_sleep {W}.
Arguments subprocess_call {W}. Arguments tar_getnames {W}.
Arguments tar_extractall {W}. Arguments pkg_config {W}.
Arguments configparser_read {W}. Arguments subst {W}.
Arguments CheckProg {W}. Arguments CheckHeader {W}.
Arguments CheckLib {W}. Arguments CheckFunc {W}.

(** ** Retrievers, components, registry *)

Inductive retriever : Type :=
| GitRepoRetriever (url : string) (has_submodules : bool)
    (branch : option string) (commit_sha : option string)
| WebRetriever (url : string) (md5 : string) (dry_run : bool).

(** Keyword arguments of a retriever's [get]. *)
Record get_kw : Type := mkGetKw {
  kw_commit_sha : option string;
  kw_branch : option string;
  kw_patches : option (list (string * option string))
}.

Record component (W : Type) : Type := mkComponent {
  name : string;
  c_check_only : bool;
  c_dry_run : bool;
  targets_found : bool;
  use_installed : bool;
  build_path : option string;
  prebuilt_path : option string;
  patch_rpath : list string;
  src_path : option string;
  prefix : option string;
  component_prefix : option string;
  package : option string;
  progs : list string;
  libs : list string;
  libs_cc : option string;
  functions : list (string * list string);
  config_cb : option (W -> Env -> bool * Env);
  required_libs : list string;
  required_progs : list string;
  defines : list string;
  headers : list string;
  requires : list string;
  pkgconfig : option string;
  build_commands : list (list string);
  c_retriever : option nat;
  lib_path : list string;
  include_path : list string;
  out_of_src_build : bool;
  patch_path : string
}.

Arguments name {W}. Arguments c_check_only {W}. Arguments c_dry_run {W}.
Arguments targets_found {W}. Arguments use_installed {W}.
Arguments build_path {W}. Arguments prebuilt_path {W}.
Arguments patch_rpath {W}. Arguments src_path {W}. Arguments prefix {W}.
Arguments component_prefix {W}. Arguments package {W}. Arguments progs {W}.
Arguments libs {W}. Arguments libs_cc {W}. Arguments functions {W}.
Arguments config_cb {W}. Arguments required_libs {W}.
Arguments required_progs {W}. Arguments defines {W}. Arguments headers {W}.
Arguments requires {W}. Arguments pkgconfig {W}.
Arguments build_commands {W}. Arguments c_retriever {W}.
Arguments lib_path {W}. Arguments include_path {W}.
Arguments out_of_src_build {W}. Arguments patch_path {W}.

(** What a run leaves behind, oldest first. *)
Inductive probe : Type :=
| PConfigCb
| PProg (prog : string)
| PHeader (header : string)
| PLib (lib : string)
| PFunc (function : string).

Inductive event : Type :=
| ERun (cmd : list string) (cwd : option string)
| ESleep (seconds : nat)
| ETryFailed (try : nat) (reason : string)
| ERemove (path : string)
| EExtractAll (archive path : string)
| ERename (src dst : string)
| EMakedirs (path : string)
| ERmtree (path : string)
| EParseConfig (cmd : string)
| EProbe (p : probe) (result : bool)
| EConfigure (comp : string)
| EBuild (comp : string)
| EGet (comp : string)
| ECommands (comp : string).

(** The registry ([PreReqComponent]) with the objects it shares with its
    components: the environments and retrievers live in stores and are
    named by their index, the SCons options and the runner are the
    process-wide ones.  Of the option no_exec there are two: what
    SetOption set last ([opt_no_exec]) and whether -n was given on the
    command line ([cmd_no_exec]), which no SetOption overrides. *)
Record state (W : Type) : Type := mkState {
  defined : gmap string (component W);
  required : gmap string bool;
  errors : gmap string exn;
  prebuilt_paths : gmap string (option string);
  src_paths : gmap string string;
  configs : option config;
  build_info : gmap string string;
  reg_env : nat;
  system_env : nat;
  reg_build_dir : string;
  prereq_prefix : string;
  installed : list string;
  download_deps : bool;
  build_deps : bool;
  envs : list Env;
  retrievers : list retriever;
  runner_env : option nat;
  runner_dry_run : bool;
  opt_help : bool;
  opt_clean : bool;
  opt_no_exec : bool;
  cmd_no_exec : bool;
  num_jobs : string;
  world : W;
  trace : list event
}.

Arguments defined {W}. Arguments required {W}. Arguments errors {W}.
Arguments prebuilt_paths {W}. Arguments src_paths {W}.
Arguments configs {W}. Arguments build_info {W}. Arguments reg_env {W}.
Arguments system_env {W}. Arguments reg_build_dir {W}.
Arguments prereq_prefix {W}. Arguments installed {W}.
Arguments download_deps {W}. Arguments build_deps {W}. Arguments envs {W}.
Arguments retrievers {W}. Arguments runner_env {W}.
Arguments runner_dry_run {W}. Arguments opt_help {W}.
Arguments opt_clean {W}. Arguments opt_no_exec {W}. Arguments cmd_no_exec {W}.
Arguments num_jobs {W}.
Arguments world {W}. Arguments trace {W}.

(** Keyword arguments of [require]: headers_only and the keywords that
    end in _libs. *)
Record require_kw : Type := mkRequireKw {
  headers_only : bool;
  kw_libs : gmap string (option (list string))
}.

(** ** State, exceptions and fuel: the monad of the engine *)

Inductive outcome (A : Type) : Type :=
| Ok (a : A)
| Raise (e : exn)
| OutOfFuel.

Arguments Ok {A}. Arguments Raise {A}. Arguments OutOfFuel {A}.

Definition M (W A : Type) : Type := state W -> outcome A * state W.

#[global] Instance M_ret {W} : MRet (M W) := fun A a s => (Ok a, s).

#[global] Instance M_bind {W} : MBind (M W) := fun A B f m s =>
  match m s with
  | (Ok a, s') => f a s'
  | (Raise e, s') => (Raise e, s')
  | (OutOfFuel, s') => (OutOfFuel, s')
  end.

Definition raise {W A} (e : exn) : M W A := fun s => (Raise e, s).

Definition out_of_fuel {W A} : M W A := fun s => (OutOfFuel, s).

Definition gets {W A} (f : state W -> A) : M W A := fun s => (Ok (f s), s).

Definition modify {W} (f : state W -> state W) : M W unit := fun s => (Ok tt, f s).

(** [try: m except <any of ours>: h] *)
Definition try_except {W A} (m : M W A) (h : exn -> M W A) : M W A := fun s =>
  match m s with
  | (Raise e, s') => h e s'
  | r => r
  end.

Definition when {W} (b : bool) (m : M W unit) : M W unit :=
  if b then m else mret tt.

(** [for x in l: body], where the body may leave the enclosing function
    with a value ([Some]) or go on ([None]). *)
Fixpoint for_return {W A R} (l : list A) (body : A -> M W (option R)) : M W (option R) :=
  match l with
  | [] => mret None
  | x :: r =>
      o ← body x;
      match o with
      | Some v => mret (Some v)
      | None => for_return r body
      end
  end.

Fixpoint for_each {W A} (l : list A) (body : A -> M W unit) : M W unit :=
  match l with
  | [] => mret tt
  | x :: r => body x;; for_each r body
  end.

(** [for x in l: body] threading the variables the body assigns. *)
Fixpoint for_fold {W A S} (l : list A) (acc : S) (body : A -> S -> M W S) : M W S :=
  match l with
  | [] => mret acc
  | x :: r => acc' ← body x acc; for_fold r acc' body
  end.

Definition set_trace {W} (t : list event) (s : state W) : state W :=
  mkState W (defined s) (required s) (errors s) (prebuilt_paths s) (src_paths s)
    (configs s) (build_info s) (reg_env s) (system_env s) (reg_build_dir s)
    (prereq_prefix s) (installed s) (download_deps s) (build_deps s) (envs s)
    (retrievers s) (runner_env s) (runner_dry_run s) (opt_help s) (opt_clean s)
    (opt_no_exec s) (cmd_no_exec s) (num_jobs s) (world s) t.

Definition set_world {W} (w : W) (s : state W) : state W :=
  mkState W (defined s) (required s) (errors s) (prebuilt_paths s) (src_paths s)
    (configs s) (build_info s) (reg_env s) (system_env s) (reg_build_dir s)
    (prereq_prefix s) (installed s) (download_deps s) (build_deps s) (envs s)
    (retrievers s) (runner_env s) (runner_dry_run s) (opt_help s) (opt_clean s)
    (opt_no_exec s) (cmd_no_exec s) (num_jobs s) w (trace s).

Definition set_envs {W} (l : list Env) (s : state W) : state W :=
  mkState W (defined s) (required s) (errors s) (prebuilt_paths s) (src_paths s)
    (configs s) (build_info s) (reg_env s) (system_env s) (reg_build_dir s)
    (prereq_prefix s) (installed s) (download_deps s) (build_deps s) l
    (retrievers s) (runner_env s) (runner_dry_run s) (opt_help s) (opt_clean s)
    (opt_no_exec s) (cmd_no_exec s) (num_jobs s) (world s) (trace s).

Definition set_retrievers {W} (l : list retriever) (s : state W) : state W :=
  mkState W (defined s) (required s) (errors s) (prebuilt_paths s) (src_paths s)
    (configs s) (build_info s) (reg_env s) (system_env s) (reg_build_dir s)
    (prereq_prefix s) (installed s) (download_deps s) (build_deps s) (envs s)
    l (runner_env s) (runner_dry_run s) (opt_help s) (opt_clean s)
    (opt_no_exec s) (cmd_no_exec s) (num_jobs s) (world s) (trace s).

Definition set_no_exec {W} (b : bool) (s : state W) : state W :=
  mkState W (defined s) (required s) (errors s) (prebuilt_paths s) (src_paths s)
    (configs s) (build_info s) (reg_env s) (system_env s) (reg_build_dir s)
    (prereq_prefix s) (installed s) (download_deps s) (build_deps s) (envs s)
    (retrievers s) (runner_env s) (runner_dry_run s) (opt_help s) (opt_clean s)
    b (cmd_no_exec s) (num_jobs s) (world s) (trace s).

Definition set_defined {W} (d : gmap string (component W)) (s : state W) : state W :=
  mkState W d (required s) (errors s) (prebuilt_paths s) (src_paths s)
    (configs s) (build_info s) (reg_env s) (system_env s) (reg_build_dir s)
    (prereq_prefix s) (installed s) (download_deps s) (build_deps s) (envs s)
    (retrievers s) (runner_env s) (runner_dry_run s) (opt_help s) (opt_clean s)
    (opt_no_exec s) (cmd_no_exec s) (num_jobs s) (world s) (trace s).

Definition set_required {W} (r : gmap string bool) (s : state W) : state W :=
  mkState W (defined s) r (errors s) (prebuilt_paths s) (src_paths s)
    (configs s) (build_info s) (reg_env s) (system_env s) (reg_build_dir s)
    (prereq_prefix s) (installed s) (download_deps s) (build_deps s) (envs s)
    (retrievers s) (runner_env s) (runner_dry_run s) (opt_help s) (opt_clean s)
    (opt_no_exec s) (cmd_no_exec s) (num_jobs s) (world s) (trace s).

Definition set_errors {W} (e : gmap string exn) (s : state W) : state W :=
  mkState W (defined s) (required s) e (prebuilt_paths s) (src_paths s)
    (configs s) (build_info s) (reg_env s) (system_env s) (reg_build_dir s)
    (prereq_prefix s) (installed s) (download_deps s) (build_deps s) (envs s)
    (retrievers s) (runner_env s) (runner_dry_run s) (opt_help s) (opt_clean s)
    (opt_no_exec s) (cmd_no_exec s) (num_jobs s) (world s) (trace s).

Definition set_caches {W} (p : gmap string (option string)) (sp : gmap string string)
    (s : state W) : state W :=
  mkState W (defined s) (required s) (errors s) p sp
    (configs s) (build_info s) (reg_env s) (system_env s) (reg_build_dir s)
    (prereq_prefix s) (installed s) (download_deps s) (build_deps s) (envs s)
    (retrievers s) (runner_env s) (runner_dry_run s) (opt_help s) (opt_clean s)
    (opt_no_exec s) (cmd_no_exec s) (num_jobs s) (world s) (trace s).

Definition set_configs {W} (c : option config) (b : gmap string string)
    (s : state W) : state W :=
  mkState W (defined s) (required s) (errors s) (prebuilt_paths s) (src_paths s)
    c b (reg_env s) (system_env s) (reg_build_dir s)
    (prereq_prefix s) (installed s) (download_deps s) (build_deps s) (envs s)
    (retrievers s) (runner_env s) (runner_dry_run s) (opt_help s) (opt_clean s)
    (opt_no_exec s) (cmd_no_exec s) (num_jobs s) (world s) (trace s).

Definition log {W} (e : event) : M W unit :=
  modify (fun s => set_trace (trace s ++ [e]) s).

(** The environment an index names; an index is only ever made by
    [Clone] or handed in by the caller, the default is never read. *)
Definition empty_env : Env := mkEnv ∅ ∅ ∅.

Definition the_env {W} (i : nat) (s : state W) : Env :=
  default empty_env (envs s !! i).

Definition update_env {W} (i : nat) (f : Env -> Env) : M W unit :=
  modify (fun s => set_envs (alter f i (envs s)) s).

(** [env.Clone()] *)
Definition Clone {W} (i : nat) : M W nat := fun s =>
  (Ok (length (envs s)), set_envs (envs s ++ [the_env i s]) s).

Definition truthy_opt (o : option string) : bool :=
  match o with
  | Some x => Str.truthy x
  | None => false
  end.

Section Engine.

Context {W : Type} (H : host W).

Abbreviation M := (M W).

(** ** Runner *)

(** The inner loop of [run_commands]: a bare make gets the job count. *)
Definition expand_command (e : Env) (jobs : string) (command : list string) : list string :=
  flat_map (fun part =>
    if String.eqb part "make" then ["make"; "-j"; jobs] else [subst H e part]) command.

(** What [subprocess.call] raises for a program that cannot be started:
    FileNotFoundError, PermissionError and the like, each an OSError,
    of which IOError is the other name. *)
Definition spawn_error (cmd : list string) : exn :=
  IOError "subprocess.call" (default "" (head cmd)).

(** [Runner.run_commands(commands, subdir, env)]; [None] is the default
    of an argument.  In a dry run the command is printed only.  The log
    has every call of [subprocess.call], the one that raises as well. *)
Definition run_commands (commands : list (list string)) (subdir : option string)
    (env : option nat) : M bool :=
  renv ← gets runner_env;
  match renv with
  | None => raise (PyException "PreReqComponent not initialized")
  | Some self_env =>
      let passed_env := default self_env env in
      r ← for_return commands (fun command =>
             s ← gets id;
             let cmd := expand_command (the_env self_env s) (num_jobs s) command in
             if runner_dry_run s then mret None
             else
               match subprocess_call H (world s) cmd subdir
                       (ENV (the_env passed_env s)) with
               | Some (rc, w) =>
                   modify (set_world w);;
                   log (ERun cmd subdir);;
                   if negb (Z.eqb rc 0) then mret (Some false) else mret None
               | None =>
                   log (ERun cmd subdir);;
                   raise (spawn_error cmd)
               end);
      mret (default true r)
  end.

(** ** GitRepoRetriever

    A retriever is an object of the store; [r] is its index.  The
    functions below are only ever entered on a git retriever. *)

Definition git_url (x : option retriever) : string :=
  match x with
  | Some (GitRepoRetriever url _ _ _) => url
  | _ => ""
  end.

Definition git_has_submodules (x : option retriever) : bool :=
  match x with
  | Some (GitRepoRetriever _ b _ _) => b
  | _ => false
  end.

Definition git_branch (x : option retriever) : option string :=
  match x with
  | Some (GitRepoRetriever _ _ b _) => b
  | _ => None
  end.

Definition git_commit_sha (x : option retriever) : option string :=
  match x with
  | Some (GitRepoRetriever _ _ _ c) => c
  | _ => None
  end.

Definition set_git_branch (b : option string) (x : retriever) : retriever :=
  match x with
  | GitRepoRetriever url sub _ c => GitRepoRetriever url sub b c
  | other => other
  end.

Definition set_git_commit_sha (c : option string) (x : retriever) : retriever :=
  match x with
  | GitRepoRetriever url sub b _ => GitRepoRetriever url sub b c
  | other => other
  end.

Definition self_retriever (r : nat) : M (option retriever) :=
  gets (fun s => retrievers s !! r).

Definition update_retriever (r : nat) (f : retriever -> retriever) : M unit :=
  modify (fun s => set_retrievers (alter f r (retrievers s)) s).

Definition checkout_commit (r : nat) (subdir : string) : M unit :=
  self ← self_retriever r;
  match git_commit_sha self with
  | Some sha =>
      ok ← run_commands [["git"; "checkout"; sha]] (Some subdir) None;
      if negb ok then raise (DownloadFailure (git_url self) subdir) else mret tt
  | None => mret tt
  end.

Definition _apply_patches (r : nat) (subdir : string)
    (patches : option (list (string * option string))) : M unit :=
  self ← self_retriever r;
  match patches with
  | Some ps =>
      for_each ps (fun '(patch, dir) =>
        let command :=
          ["git"; "apply"]
          ++ match dir with Some d => ["--directory"; d] | None => [] end
          ++ [patch] in
        ok ← run_commands [command] (Some subdir) None;
        if negb ok then raise (DownloadFailure (git_url self) subdir) else mret tt)
  | None => mret tt
  end.

Definition _update_submodules (r : nat) (subdir : string) : M unit :=
  self ← self_retriever r;
  if git_has_submodules self then
    ok ← run_commands [["git"; "submodule"; "init"]; ["git"; "submodule"; "update"]]
           (Some subdir) None;
    if negb ok then raise (DownloadFailure (git_url self) subdir) else mret tt
  else mret tt.

(** Check a revision out; on failure fetch everything and go on. *)
Definition checkout_or_fetch (r : nat) (subdir rev : string) : M unit :=
  self ← self_retriever r;
  ok ← run_commands [["git"; "checkout"; rev]] (Some subdir) None;
  if negb ok then
    ok' ← run_commands [["git"; "fetch"; "-t"; "-a"]] (Some subdir) None;
    if negb ok' then raise (DownloadFailure (git_url self) subdir) else mret tt
  else mret tt.

Definition _get_specific (r : nat) (subdir : string) (kw : get_kw) : M unit :=
  self ← self_retriever r;
  let branch :=
    match kw_branch kw with
    | None => git_branch self
    | Some b => Some b
    end in
  update_retriever r (set_git_branch branch);;
  match branch with
  | Some b =>
      if Str.truthy b then
        checkout_or_fetch r subdir b;;
        update_retriever r (set_git_commit_sha branch);;
        checkout_commit r subdir
      else mret tt
  | None => mret tt
  end;;
  match kw_commit_sha kw with
  | Some passed_commit_sha =>
      checkout_or_fetch r subdir passed_commit_sha;;
      update_retriever r (set_git_commit_sha (Some passed_commit_sha));;
      checkout_commit r subdir
  | None => mret tt
  end;;
  ok ← run_commands [["git"; "reset"; "--hard"; "HEAD"]] (Some subdir) None;
  (if negb ok then raise (DownloadFailure (git_url self) subdir) else mret tt);;
  _update_submodules r subdir;;
  _apply_patches r subdir (kw_patches kw).

(** [GitRepoRetriever.get] of a directory and keywords *)
Definition git_get (r : nat) (subdir : string) (kw : get_kw) : M unit :=
  self ← self_retriever r;
  match kw_commit_sha kw with
  | None => raise (DownloadFailure (git_url self) subdir)
  | Some _ =>
      ex ← gets (fun s => os_path_exists H (world s) subdir);
      (if negb ex then
         ok ← run_commands [["git"; "clone"; git_url self; subdir]] None None;
         if negb ok then raise (DownloadFailure (git_url self) subdir) else mret tt
       else mret tt);;
      _get_specific r subdir kw
  end.

(** ** WebRetriever *)

(** [WebRetriever.check_md5(filename)] of a retriever expecting [md5]. *)
Definition check_md5 (md5 filename : string) : M bool :=
  ex ← gets (fun s => os_path_exists H (world s) filename);
  if negb ex then mret false
  else
    hexdigest ← gets (fun s => file_md5 H (world s) filename);
    if negb (String.eqb hexdigest md5) then
      modify (fun s => set_world (os_remove H (world s) filename) s);;
      log (ERemove filename);;
      mret false
    else mret true.

(** The body of the retry loop of [download], from index [idx] on. *)
Fixpoint download_loop (url md5 basename : string) (retries : nat)
    (idxs : list nat) (initial_sleep : nat) : M bool :=
  match idxs with
  | [] => mret false
  | idx :: rest =>
      let command := ["curl"; "-sSf"; "--location"; "--remote-name"; url] in
      ran ← run_commands (map Str.chars command) None None;
      matched ← (if ran then check_md5 md5 basename else mret false);
      if ran && matched then mret true
      else
        log (ETryFailed (idx + 1)
               (if ran then "md5 mismatch" else "Download command failed"));;
        if negb (Nat.eqb idx retries) then
          modify (fun s => set_world (time_sleep H (world s) initial_sleep) s);;
          log (ESleep initial_sleep);;
          download_loop url md5 basename retries rest (initial_sleep * 2)
        else download_loop url md5 basename retries rest initial_sleep
  end.

(** [WebRetriever.download(basename)] *)
Definition download (url md5 basename : string) : M bool :=
  let initial_sleep := 1 in
  let retries := 3 in
  download_loop url md5 basename retries (seq 0 (retries + 1)) initial_sleep.

(** The nested [is_within_directory(directory, target)]. *)
Definition is_within_directory (cwd directory target : string) : bool :=
  let abs_directory := Path.abspath cwd directory in
  let abs_target := Path.abspath cwd target in
  let prefix := Path.commonprefix [abs_directory; abs_target] in
  String.eqb prefix abs_directory.

(** The nested [safe_extract(tar, path=".")]: every member is checked
    before anything is extracted. *)
Definition safe_extract (archive : string) (members : list string) (path : string)
    : M unit :=
  cwd ← gets (fun s => os_getcwd H (world s));
  for_each members (fun member_name =>
    let member_path := Path.join path member_name in
    if negb (is_within_directory cwd path member_path)
    then raise (PyException "Attempted Path Traversal in Tar File")
    else mret tt);;
  w ← gets (fun s => tar_extractall H (world s) archive path);
  match w with
  | None => raise (IOError "extractall" archive)
  | Some w' => modify (set_world w');; log (EExtractAll archive path)
  end.

Definition is_io_error (e : exn) : bool :=
  match e with
  | IOError _ _ => true
  | _ => false
  end.

(** [WebRetriever.get] of a directory; the keywords are ignored *)
Definition web_get (url md5 : string) (dry_run : bool) (subdir : string) : M unit :=
  let basename := Path.basename url in
  ex ← gets (fun s => os_path_exists H (world s) subdir);
  if (ex : bool) then mret tt
  else
    have ← check_md5 md5 basename;
    got ← (if (have : bool) then mret true else download url md5 basename);
    if negb got then raise (DownloadFailure url subdir)
    else if Str.endswith url ".tar.gz" || Str.endswith url ".tgz" then
      if dry_run then mret tt
      else
        try_except
          (names ← gets (fun s => tar_getnames H (world s) basename);
           match names with
           | None => raise (IOError "open" basename)
           | Some members =>
               let prefix := Path.commonprefix members in
               safe_extract basename members ".";;
               w ← gets (fun s => os_rename H (world s) prefix subdir);
               match w with
               | None => raise (IOError "rename" prefix)
               | Some w' => modify (set_world w');; log (ERename prefix subdir)
               end
           end : M unit)
          (fun e => if is_io_error e then raise (ExtractionError subdir) else raise e)
    else raise (UnsupportedCompression subdir).

(** [self.retriever.get(...)]: dispatch on the class of the object. *)
Definition retriever_get (r : nat) (subdir : string) (kw : get_kw) : M unit :=
  self ← self_retriever r;
  match self with
  | Some (GitRepoRetriever _ _ _ _) => git_get r subdir kw
  | Some (WebRetriever url md5 dry_run) => web_get url md5 dry_run subdir
  | None => raise (PyException "no such retriever")
  end.

(** ** _Component

    A method that only reads its component takes the record; one that
    writes a field takes the name under which the registry holds it. *)

Definition set_flags (tf ui : bool) (c : component W) : component W :=
  mkComponent W (name c) (c_check_only c) (c_dry_run c) tf ui
    (build_path c) (prebuilt_path c) (patch_rpath c) (src_path c) (prefix c)
    (component_prefix c) (package c) (progs c) (libs c) (libs_cc c) (functions c)
    (config_cb c) (required_libs c) (required_progs c) (defines c) (headers c)
    (requires c) (pkgconfig c) (build_commands c) (c_retriever c) (lib_path c)
    (include_path c) (out_of_src_build c) (patch_path c).

Definition set_targets_found (b : bool) (c : component W) : component W :=
  set_flags b (use_installed c) c.

Definition set_use_installed (b : bool) (c : component W) : component W :=
  set_flags (targets_found c) b c.

(** The five paths [configure] assigns. *)
Definition set_paths (bp pp sp pf cp : option string) (c : component W) : component W :=
  mkComponent W (name c) (c_check_only c) (c_dry_run c) (targets_found c)
    (use_installed c) bp pp (patch_rpath c) sp pf cp
    (package c) (progs c) (libs c) (libs_cc c) (functions c)
    (config_cb c) (required_libs c) (required_progs c) (defines c) (headers c)
    (requires c) (pkgconfig c) (build_commands c) (c_retriever c) (lib_path c)
    (include_path c) (out_of_src_build c) (patch_path c).

Definition no_component : component W :=
  mkComponent W "" false false false false None None [] None None None None
    [] [] None [] None [] [] [] [] [] None [] None [] [] false "".

(** The object a name stands for; a method is only ever entered on a
    defined component, the default is never read. *)
Definition self (n : string) : M (component W) :=
  gets (fun s => default no_component (defined s !! n)).

Definition update_self (n : string) (f : component W -> component W) : M unit :=
  modify (fun s => set_defined (alter f n (defined s)) s).

(** [os.path.join(p, q)] where [p] may still be None. *)
Definition join_opt (p : option string) (q : string) : M string :=
  match p with
  | Some x => mret (Path.join x q)
  | None => raise (TypeError "expected str, bytes or os.PathLike object, not NoneType")
  end.

(** [env.SetOption('no_exec', b)] and [env.GetOption('no_exec')]: an
    option given on the command line keeps its value whatever SetOption
    is told, so with -n the answer is True. *)
Definition SetOption_no_exec (b : bool) : M unit := modify (set_no_exec b).

Definition no_exec (s : state W) : bool := cmd_no_exec s || opt_no_exec s.

Definition GetOption_no_exec : M bool := gets no_exec.

(** [_Component.parse_config(env, opts)] *)
Definition parse_config (c : component W) (env : nat) (opts : string) : M unit :=
  match pkgconfig c with
  | None => mret tt
  | Some pkg =>
      path ← gets (fun s => os_environ_get H (world s) "PKG_CONFIG_PATH");
      e ← gets (the_env env);
      (if truthy_opt path && bool_decide (ENV e !! "PKG_CONFIG_PATH" = None)
       then update_env env (fun e =>
              mkEnv (cvars e) (svars e)
                (<["PKG_CONFIG_PATH" := Str.split ":" (default "" path)]> (ENV e)))
       else mret tt);;
      go ← match component_prefix c with
           | Some cp =>
               if negb (use_installed c) && negb (String.eqb cp "/usr") then
                 for_fold ["lib"; "lib64"] false (fun path path_found =>
                   let config := Path.join3 cp path "pkgconfig" in
                   ex ← gets (fun s => os_path_exists H (world s) config);
                   if negb ex then mret path_found
                   else update_env env (AppendENVPath "PKG_CONFIG_PATH" config);;
                        mret true)
               else mret true
           | None => mret true
           end;
      if negb go then mret tt
      else
        let cmd := "pkg-config " +:+ opts +:+ " " +:+ pkg in
        out ← gets (fun s => pkg_config H (world s) (ENV (the_env env s)) cmd);
        log (EParseConfig cmd);;
        match out with
        | Some fl => update_env env (MergeFlags fl)
        | None => mret tt
        end
  end.

(** [_Component.set_environment(env, needed_libs)] *)
Definition set_environment (c : component W) (env : nat)
    (needed_libs : option (list string)) : M unit :=
  lib_paths ←
    (if negb (use_installed c)
        && negb (bool_decide (component_prefix c = Some "/usr")) then
       bin ← join_opt (component_prefix c) "bin";
       update_env env (AppendENVPath "PATH" bin);;
       for_each (include_path c) (fun path =>
         p ← join_opt (component_prefix c) path;
         update_env env (AppendUnique "CPPPATH" p));;
       lib_paths ← for_fold (lib_path c) [] (fun path lib_paths =>
         full_path ← join_opt (component_prefix c) path;
         ex ← gets (fun s => os_path_exists H (world s) full_path);
         if negb ex then mret lib_paths
         else
           update_env env (AppendUnique "RPATH_FULL" full_path);;
           update_env env (AppendENVPath "LD_LIBRARY_PATH" full_path);;
           mret (lib_paths ++ [full_path]));
       update_env env (AppendUnique "LINKFLAGS" "-Wl,--enable-new-dtags");;
       mret lib_paths
     else mret []);
  (if bool_decide (component_prefix c = Some "/usr")
      && bool_decide (package c = None) then
     update_env env (AppendUnique "RPATH" "/usr/lib");;
     update_env env (AppendUnique "LINKFLAGS" "-Wl,--enable-new-dtags")
   else mret tt);;
  for_each (defines c) (fun define => update_env env (AppendUnique "CPPDEFINES" define));;
  parse_config c env "--cflags";;
  match needed_libs with
  | None => mret tt
  | Some nl =>
      parse_config c env "--libs";;
      for_each lib_paths (fun path => update_env env (AppendUnique "LIBPATH" path));;
      for_each nl (fun lib => update_env env (AppendUnique "LIBS" lib))
  end.

(** A configure check on the environment [cenv] of the configure
    context: the check may change the environment, its result is logged. *)
Definition run_probe (p : probe) (cenv : nat)
    (check : W -> Env -> bool * Env) : M bool :=
  s ← gets id;
  let '(result, e') := check (world s) (the_env cenv s) in
  update_env cenv (fun _ => e');;
  log (EProbe p result);;
  mret result.

Definition pure_check (check : W -> Env -> string -> bool) (x : string)
    : W -> Env -> bool * Env :=
  fun w e => (check w e x, e).

(** What every failing check of [has_missing_targets] does before it
    returns True: [config.Finish()], put the dry run back. *)
Definition checks_failed (c : component W) : M (option bool) :=
  when (c_check_only c) (SetOption_no_exec true);;
  mret (Some true).

(** Run the first phase; go on with the second unless the first left
    the function. *)
Definition or_else {R} (m1 m2 : M (option R)) : M (option R) :=
  r ← m1;
  match r with
  | Some v => mret (Some v)
  | None => m2
  end.

(** The loop over [self.functions.items()]; [cenv] is [config.env],
    which the loop rebinds to the clone it saved. *)
Fixpoint check_functions (c : component W) (fs : list (string * list string))
    (cenv : nat) : M (option bool) :=
  match fs with
  | [] => mret None
  | (lib, functions) :: rest =>
      saved_env ← Clone cenv;
      update_env cenv (AppendUnique "LIBS" lib);;
      or_else
        (for_return functions (fun function =>
           result ← run_probe (PFunc function) cenv (pure_check (CheckFunc H) function);
           if negb result then checks_failed c else mret None))
        (check_functions c rest saved_env)
  end.

(** [_Component.has_missing_targets(env)] *)
Definition has_missing_targets (n : string) (env : nat) : M bool :=
  c ← self n;
  if targets_found c then mret false
  else
    when (c_check_only c) (SetOption_no_exec false);;
    no_exec ← GetOption_no_exec;
    if (no_exec : bool) then mret true
    else
      parse_config c env "--cflags";;
      help ← gets opt_help;
      if (help : bool) then mret true
      else
        r ← or_else
              match config_cb c with
              | Some cb =>
                  ok ← run_probe PConfigCb env cb;
                  if negb ok then checks_failed c else mret None
              | None => mret None
              end
          (or_else
              (for_return (progs c) (fun prog =>
                 ok ← run_probe (PProg prog) env (pure_check (CheckProg H) prog);
                 if negb ok then checks_failed c else mret None))
          (or_else
              (for_return (headers c) (fun header =>
                 ok ← run_probe (PHeader header) env (pure_check (CheckHeader H) header);
                 if negb ok then checks_failed c else mret None))
          (or_else
              (for_return (libs c) (fun lib =>
                 old_cc ← gets (fun s => subst H (the_env env s) "$CC");
                 match libs_cc c with
                 | Some cc =>
                     if Str.truthy cc then
                       update_env env
                         (Replace (Str.upper (name c) +:+ "_PREFIX") (component_prefix c));;
                       update_env env (Replace "CC" (Some cc))
                     else mret tt
                 | None => mret tt
                 end;;
                 result ← run_probe (PLib lib) env (fun w e => CheckLib H w e lib);
                 update_env env (Replace "CC" (Some old_cc));;
                 if negb result then checks_failed c else mret None))
              (check_functions c (functions c) env))));
        match r with
        | Some missing => mret missing
        | None =>
            update_self n (set_targets_found true);;
            when (c_check_only c) (SetOption_no_exec true);;
            mret false
        end.

(** [_Component.is_installed(needed_libs)] *)
Definition is_installed (n : string) (needed_libs : option (list string)) : M bool :=
  c ← self n;
  if negb (use_installed c) then mret false
  else
    sys ← gets system_env;
    new_env ← Clone sys;
    set_environment c new_env needed_libs;;
    missing ← has_missing_targets n new_env;
    if (missing : bool) then
      update_self n (set_use_installed false);;
      mret false
    else mret true.

(** [_Component._has_missing_system_deps(env)] *)
Definition _has_missing_system_deps (c : component W) (env : nat) : M bool :=
  when (c_check_only c) (SetOption_no_exec false);;
  no_exec ← GetOption_no_exec;
  if (no_exec : bool) then mret false
  else
    help ← gets opt_help;
    if (help : bool) then mret true
    else
      r ← or_else
            (for_return (required_libs c) (fun lib =>
               ok ← run_probe (PLib lib) env (fun w e => CheckLib H w e lib);
               if negb ok then checks_failed c else mret None))
            (for_return (required_progs c) (fun prog =>
               ok ← run_probe (PProg prog) env (pure_check (CheckProg H) prog);
               if negb ok then checks_failed c else mret None));
      match r with
      | Some missing => mret missing
      | None => when (c_check_only c) (SetOption_no_exec true);; mret false
      end.

(** [_Component._check_installed_package(env)] *)
Definition _check_installed_package (n : string) (env : nat) : M unit :=
  c ← self n;
  missing ← has_missing_targets n env;
  if (missing : bool) then
    if c_dry_run c then mret tt
    else
      match package c with
      | None => raise (MissingTargets (name c) (Some (name c)))
      | Some pkg => raise (MissingTargets (name c) (Some pkg))
      end
  else mret tt.

(** [ensure_dir_exists(dirname, dry_run)] *)
Definition ensure_dir_exists (dirname : string) (dry_run : bool) : M unit :=
  ex ← gets (fun s => os_path_exists H (world s) dirname);
  if negb ex && dry_run then mret tt
  else
    (if negb ex then
       w ← gets (fun s => os_makedirs H (world s) dirname);
       match w with
       | Some w' => modify (set_world w');; log (EMakedirs dirname)
       | None =>
           isdir ← gets (fun s => os_path_isdir H (world s) dirname);
           if negb isdir then raise (IOError "makedirs" dirname) else mret tt
       end
     else mret tt);;
    isdir ← gets (fun s => os_path_isdir H (world s) dirname);
    if negb isdir then raise (IOError "Not a directory" dirname) else mret tt.

(** [_Component._rm_old_dir(path)] *)
Definition _rm_old_dir (c : component W) (path : string) : M unit :=
  if c_dry_run c then mret tt
  else
    modify (fun s =>
      set_world (os_mkdir H (shutil_rmtree H (world s) path) path) s);;
    log (ERmtree path).

(** ** PreReqComponent: paths, prefixes and pinned versions *)

Definition set_reg_env (f : Env -> Env) : M unit :=
  r ← gets reg_env;
  update_env r f.

(** [PreReqComponent._save_component_prefix(var, value)] *)
Definition _save_component_prefix (var value : string) : M unit :=
  set_reg_env (Replace var (Some value));;
  modify (fun s => set_configs (configs s) (<[var := value]> (build_info s)) s).

(** [PreReqComponent.get_prebuilt_path(comp, name)] *)
Definition get_prebuilt_path (n : string) : M (option string) :=
  cache ← gets prebuilt_paths;
  match cache !! n with
  | Some cached => mret cached
  | None =>
      renv ← gets reg_env;
      alt_prefix ← gets (fun s => env_get "ALT_PREFIX" (the_env renv s));
      let paths :=
        match alt_prefix with
        | None => []
        | Some x => Str.split ":" x
        end in
      found ← for_return paths (fun path =>
        w ← gets world;
        let ipath :=
          let p := Path.join path "include" in
          if os_path_exists H w p then Some p else None in
        let lpath :=
          fold_left (fun (_ : option string) lib =>
            let p := Path.join path lib in
            if os_path_exists H w p then Some p else None) ["lib64"; "lib"] None in
        if bool_decide (ipath = None) && bool_decide (lpath = None) then mret None
        else
          env ← Clone renv;
          (if truthy_opt ipath
           then update_env env (AppendUnique "CPPPATH" (default "" ipath))
           else mret tt);;
          (if truthy_opt lpath
           then update_env env (AppendUnique "LIBPATH" (default "" lpath))
           else mret tt);;
          missing ← has_missing_targets n env;
          if negb missing then
            modify (fun s => set_caches (<[n := Some path]> (prebuilt_paths s))
                               (src_paths s) s);;
            mret (Some path)
          else mret None);
      match found with
      | Some path => mret (Some path)
      | None =>
          modify (fun s => set_caches (<[n := None]> (prebuilt_paths s))
                             (src_paths s) s);;
          mret None
      end
  end.

(** [PreReqComponent.get_prefixes(name, prebuilt_path)] *)
Definition get_prefixes (n : string) (prebuilt : option string)
    : M (string * option string) :=
  renv ← gets reg_env;
  prefix ← gets (fun s => env_get "PREFIX" (the_env renv s));
  let comp_prefix := Str.upper n +:+ "_PREFIX" in
  if truthy_opt prebuilt then
    _save_component_prefix comp_prefix (default "" prebuilt);;
    mret (default "" prebuilt, prefix)
  else
    pp ← gets prereq_prefix;
    let target_prefix := Path.join pp n in
    _save_component_prefix comp_prefix target_prefix;;
    mret (target_prefix, prefix).

(** [PreReqComponent.get_src_path(name)] *)
Definition get_src_path (n : string) : M string :=
  cache ← gets src_paths;
  match cache !! n with
  | Some p => mret p
  | None =>
      bd ← gets reg_build_dir;
      let src := Path.join bd n in
      modify (fun s => set_caches (prebuilt_paths s) (<[n := src]> (src_paths s)) s);;
      mret src
  end.

(** [PreReqComponent.get_config(section, name)] *)
Definition get_config (section n : string) : M (option string) :=
  gets (fun s =>
    match configs s with
    | None => None
    | Some cfg =>
        match cfg !! section with
        | None => None
        | Some sec => sec !! n
        end
    end).

(** [PreReqComponent.load_config(comp, path)] *)
Definition load_config (comp : string) (path : option string) : M unit :=
  config_path ← get_config "configs" comp;
  match config_path with
  | None => mret tt
  | Some cp =>
      full_path ← join_opt path cp;
      modify (fun s =>
        set_configs
          (configparser_read H (world s) full_path <$> configs s)
          (build_info s) s)
  end.

(** [patches[key] = value] on an insertion ordered dict. *)
Fixpoint dict_set (d : list (string * option string)) (k : string) (v : option string)
    : list (string * option string) :=
  match d with
  | [] => [(k, v)]
  | (k', v') :: r => if String.eqb k' k then (k, v) :: r else (k', v') :: dict_set r k v
  end.

(** [_Component.resolve_patches()] *)
Definition resolve_patches (c : component W) : M (list (string * option string)) :=
  patchstr ← get_config "patch_versions" (name c);
  match patchstr with
  | None => mret []
  | Some str =>
      r ← for_fold (Str.split "," str) (1, [])
            (fun raw0 '(patchnum, patches) =>
               '(patch_subdir, raw) ←
                 (if Str.contains raw0 "^" then
                    match Str.split "^" raw0 with
                    | [a; b] => mret (Some a, b)
                    | _ => raise (ValueError "too many values to unpack")
                    end
                  else mret (None, raw0));
               if negb (Str.contains raw "https://") then
                 mret (patchnum, dict_set patches raw patch_subdir)
               else
                 let patch_name := name c +:+ "_patch_" +:+ pretty (patchnum : nat) in
                 let patch_path := Path.join (patch_path c) patch_name in
                 let patches' := dict_set patches patch_path patch_subdir in
                 ex ← gets (fun s => os_path_exists H (world s) patch_path);
                 if (ex : bool) then mret (patchnum + 1, patches')
                 else
                   ok ← run_commands
                          [["curl"; "-sSfL"; "--retry"; "10"; "--retry-max-time"; "60";
                            "-o"; patch_path; raw]] None None;
                   if negb ok then raise (BuildFailure raw)
                   else mret (patchnum + 1, patches'));
      mret r.2
  end.

(** [_Component.get()] *)
Definition get (n : string) : M unit :=
  c ← self n;
  if truthy_opt (prebuilt_path c) then mret tt
  else
    branch ← get_config "branches" (name c);
    commit_sha ← get_config "commit_versions" (name c);
    match c_retriever c with
    | None => mret tt
    | Some r =>
        dl ← gets download_deps;
        if negb dl then raise (DownloadRequired (name c))
        else
          patches ← resolve_patches c;
          log (EGet n);;
          match src_path c with
          | None => raise (TypeError "expected str, bytes or os.PathLike object, not NoneType")
          | Some src => retriever_get r src (mkGetKw commit_sha branch (Some patches))
          end
    end.

(** The first directory of [dirs] that exists under [base]. *)
Definition first_existing (w : W) (base : string) (dirs : list string) : option string :=
  head (filter (fun d => os_path_exists H w (Path.join base d) = true) dirs).

(** [_Component.patch_rpaths()] *)
Definition patch_rpaths (n : string) : M unit :=
  c ← self n;
  match component_prefix c with
  | None => mret tt
  | Some comp_path =>
      ex ← gets (fun s => os_path_exists H (world s) comp_path);
      if negb (Str.truthy comp_path) || Str.startswith comp_path "/usr" || negb ex
      then mret tt
      else
        w ← gets world;
        let norigin0 :=
          match first_existing w comp_path ["lib64"; "lib"] with
          | Some libdir => [Path.normpath (Path.join comp_path libdir)]
          | None => []
          end in
        '(rpath, norigin) ← for_fold (requires c) (["$$ORIGIN"], norigin0)
          (fun prereq '(rpath, norigin) =>
             let rootpath := Path.join3 comp_path ".." prereq in
             if negb (os_path_exists H w rootpath) then
               d ← gets defined;
               match d !! prereq with
               | None => raise (KeyError prereq)
               | Some comp =>
                   let subpath := component_prefix comp in
                   if truthy_opt subpath && negb (Str.startswith (default "" subpath) "/usr")
                   then
                     mret (rpath ++
                             filter (fun lpath => os_path_exists H w lpath = true)
                               (map (Path.join (default "" subpath)) ["lib64"; "lib"]),
                           norigin)
                   else mret (rpath, norigin)
               end
             else
               match first_existing w rootpath ["lib64"; "lib"] with
               | Some libdir =>
                   mret (rpath ++ ["$$ORIGIN/../../" +:+ prereq +:+ "/" +:+ libdir],
                         norigin ++ [Path.normpath (Path.join rootpath libdir)])
               | None => mret (rpath, norigin)
               end);
        let rpath := rpath ++ norigin in
        for_each (patch_rpath c) (fun folder =>
          let path := Path.join comp_path folder in
          files ← gets (fun s => os_listdir H (world s) path);
          for_each files (fun lib =>
            if negb (Str.endswith lib ".so") then mret tt
            else
              let full_lib := Path.join path lib in
              run_commands [["patchelf"; "--set-rpath"; Str.join ":" rpath; full_lib]]
                None None;;
              mret tt))
  end.

(** [_Component.configure()] *)
Definition configure (n : string) : M unit :=
  log (EConfigure n);;
  c ← self n;
  prebuilt ← (if bool_decide (c_retriever c = None) then mret (Some "/usr")
              else get_prebuilt_path n);
  update_self n (fun c =>
    set_paths (build_path c) prebuilt (src_path c) (prefix c) (component_prefix c) c);;
  '(cp, pf) ← get_prefixes (name c) prebuilt;
  update_self n (fun c =>
    set_paths (build_path c) (prebuilt_path c) None pf (Some cp) c);;
  src ← (if bool_decide (c_retriever c = None) then mret None
         else p ← get_src_path (name c); mret (Some p));
  update_self n (fun c =>
    set_paths src (prebuilt_path c) src (prefix c) (component_prefix c) c);;
  if out_of_src_build c then
    bd ← gets reg_build_dir;
    let bp := Path.join bd (name c +:+ ".build") in
    update_self n (fun c =>
      set_paths (Some bp) (prebuilt_path c) (src_path c) (prefix c) (component_prefix c) c);;
    ensure_dir_exists bp (c_dry_run c)
  else mret tt.

(** ** build and require

    [build] requires the prerequisites of its component, [require]
    builds: the knot is tied by [require], on fuel.  The functions below
    take the registry's [require] as [require_rec]. *)

Section Build.

Variable require_rec : nat -> list string -> require_kw -> M bool.

(** [_Component._check_user_options(env, needed_libs)] *)
Definition _check_user_options (n : string) (env : nat)
    (needed_libs : option (list string)) : M bool :=
  c ← self n;
  help ← gets opt_help;
  if (help : bool) then
    (if negb (bool_decide (requires c = []))
     then require_rec env (requires c) (mkRequireKw false ∅);; mret tt
     else mret tt);;
    mret true
  else
    set_environment c env needed_libs;;
    clean ← gets opt_clean;
    if (clean : bool) then mret true else mret false.

Definition needed_libs_None : require_kw :=
  mkRequireKw false {["needed_libs" := None]}.

(** [_Component.build(env, needed_libs)] *)
Definition build (n : string) (env : nat) (needed_libs : option (list string))
    : M bool :=
  log (EBuild n);;
  sys ← gets system_env;
  envcopy ← Clone sys;
  stop ← _check_user_options n env needed_libs;
  if (stop : bool) then mret true
  else
    c ← self n;
    set_environment c envcopy (Some (libs c));;
    if truthy_opt (prebuilt_path c) then
      _check_installed_package n envcopy;;
      mret false
    else
      s ← gets id;
      let build_dep :=
        build_deps s
        && negb (bool_decide ("all" ∈ installed s))
        && negb (bool_decide (name c ∈ installed s))
        && negb (truthy_opt (component_prefix c)
                 && os_path_exists H (world s) (default "" (component_prefix c))) in
      '(build_dep, missing_targets) ←
        (if build_dep then
           if truthy_opt (package c) then
             missing_targets ← has_missing_targets n envcopy;
             if negb missing_targets then mret (false, missing_targets)
             else mret (true, missing_targets)
           else mret (true, false)
         else
           missing_targets ← has_missing_targets n envcopy;
           mret (false, missing_targets));
      changes ←
        (if (build_dep : bool) then
           missing ← _has_missing_system_deps c sys;
           (if (missing : bool) then raise (MissingSystemLibs (name c)) else mret tt);;
           get n;;
           load_config (name c) (src_path c);;
           (if negb (bool_decide (requires c = [])) then
              require_rec envcopy (requires c) needed_libs_None;;
              c ← self n;
              set_environment c envcopy (Some (libs c))
            else mret tt);;
           pp ← gets prereq_prefix;
           ensure_dir_exists pp (c_dry_run c);;
           (if out_of_src_build c then
              match build_path c with
              | Some bp => _rm_old_dir c bp
              | None => raise (TypeError "expected str, bytes or os.PathLike object, not NoneType")
              end
            else mret tt);;
           log (ECommands n);;
           ok ← run_commands (build_commands c) (build_path c) (Some envcopy);
           if negb ok then raise (BuildFailure (name c)) else mret true
         else if (missing_targets : bool) then
           if c_dry_run c then mret false else raise (BuildRequired (name c))
         else mret false);
      (if negb (bool_decide (requires c = []))
       then require_rec envcopy (requires c) needed_libs_None;; mret tt
       else mret tt);;
      c ← self n;
      set_environment c envcopy (Some (libs c));;
      (if (changes : bool) then patch_rpaths n else mret tt);;
      missing ← has_missing_targets n envcopy;
      if missing && negb (c_dry_run c) then raise (MissingTargets (name c) None)
      else mret changes.

(** [PreReqComponent._modify_prefix(comp_def)] *)
Definition _modify_prefix (n : string) : M unit :=
  c ← self n;
  if truthy_opt (package c) then mret tt
  else if negb (truthy_opt (src_path c)) then mret tt
  else
    s ← gets id;
    if os_path_exists H (world s) (default "" (src_path c)) then mret tt
    else if os_path_exists H (world s) (Path.join (prereq_prefix s) (name c)) then mret tt
    else
      match env_get (Str.upper (name c) +:+ "_PREFIX") (the_env (reg_env s) s) with
      | None => raise (TypeError "stat: path should be string, bytes, os.PathLike or integer, not NoneType")
      | Some p =>
          if os_path_exists H (world s) p then mret tt
          else _save_component_prefix (Str.upper (name c) +:+ "_PREFIX") "/usr"
      end.

(** The body of the loop of [require] for one name: whether it sets
    [changes]. *)
Definition require_one (env : nat) (kw : require_kw) (comp : string) : M bool :=
  s ← gets id;
  match defined s !! comp with
  | None => raise (MissingDefinition comp)
  | Some comp_def =>
      match errors s !! comp with
      | Some error => raise error
      | None =>
          let needed_libs :=
            if headers_only kw then None
            else default (Some (libs comp_def)) (kw_libs kw !! (comp +:+ "_libs")) in
          match required s !! comp with
          | Some changed =>
              if opt_help s then mret false
              else
                set_environment comp_def env needed_libs;;
                if opt_clean s then mret false
                else mret changed
          | None =>
              modify (fun s => set_required (<[comp := false]> (required s)) s);;
              inst ← is_installed comp needed_libs;
              if (inst : bool) then mret false
              else
                try_except
                  (configure comp;;
                   built ← build comp env needed_libs;
                   (if (built : bool) then
                      modify (fun s => set_required (<[comp := false]> (required s)) s)
                    else _modify_prefix comp);;
                   comp_def ← self comp;
                   set_environment comp_def env needed_libs;;
                   mret built)
                  (fun error =>
                     modify (fun s => set_errors (<[comp := error]> (errors s)) s);;
                     raise error)
          end
      end
  end.

(** The loop of [require] over the names, [changes] so far. *)
Fixpoint require_loop (env : nat) (kw : require_kw) (comps : list string)
    (changes : bool) : M bool :=
  match comps with
  | [] => mret changes
  | comp :: rest =>
      changed ← require_one env kw comp;
      require_loop env kw rest (changes || changed)
  end.

End Build.

(** [PreReqComponent.require] of an environment, names and keywords *)
Fixpoint require (fuel : nat) (env : nat) (comps : list string) (kw : require_kw)
    : M bool :=
  match fuel with
  | O => out_of_fuel
  | S fuel' => require_loop (require fuel') env kw comps false
  end.

(** [PreReqComponent.check_component] of names and keywords; [require_optional]
    is the --require-optional switch. *)
Definition check_component (fuel : nat) (require_optional : bool)
    (comps : list string) (kw : require_kw) : M bool :=
  renv ← gets reg_env;
  env ← Clone renv;
  try_except (require fuel env comps kw;; mret true)
    (fun error => if require_optional then raise error else mret false).

(** [PreReqComponent.define]: [comp] carries the keywords,
    the registry decides [use_installed] and takes the object in. *)
Definition define (n : string) (comp : component W) : M unit :=
  modify (fun s =>
    let use_installed :=
      bool_decide ("all" ∈ installed s) || bool_decide (n ∈ installed s) in
    set_defined (<[n := set_flags false use_installed comp]> (defined s)) s).

End Engine.

(** ** A small machine to run the engine on

    The world is the list of the paths that exist; every file has the
    digest [test_digest]; commands succeed and change nothing; an archive
    has the members the host is built with. *)

Definition test_digest : string := "9e107d9d372bb6826bd81d3542a419d6".

Definition test_host (cwd : string) (members : list string) (curl_status : Z)
    : host (list string) :=
  {| os_path_exists := fun w p => bool_decide (p ∈ w);
     os_path_isdir := fun w p => bool_decide (p ∈ w);
     os_getcwd := fun _ => cwd;
     os_environ_get := fun _ _ => None;
     os_listdir := fun _ _ => [];
     file_md5 := fun _ _ => test_digest;
     os_remove := fun w p => filter (fun q => q ≠ p) w;
     os_makedirs := fun w p => Some (p :: w);
     os_mkdir := fun w p => p :: w;
     os_rename := fun w a b => Some (b :: filter (fun q => q ≠ a) w);
     shutil_rmtree := fun w p => filter (fun q => q ≠ p) w;
     time_sleep := fun w _ => w;
     subprocess_call := fun w _ _ _ => Some (curl_status, w);
     tar_getnames := fun _ _ => Some members;
     tar_extractall := fun w _ path =>
       Some (map (fun m => Path.abspath cwd (Path.join path m)) members ++ w);
     pkg_config := fun _ _ _ => None;
     configparser_read := fun _ _ c => c;
     subst := fun _ x => x;
     CheckProg := fun w _ p => bool_decide (p ∈ w);
     CheckHeader := fun w _ h => bool_decide (h ∈ w);
     CheckLib := fun w e l => (bool_decide (l ∈ w), e);
     CheckFunc := fun w _ f => bool_decide (f ∈ w) |}.

(** A registry with nothing defined, one environment (index 0) that is
    the registry's, the system's and the runner's. *)
Definition test_state (w : list string) : state (list string) :=
  mkState (list string) ∅ ∅ ∅ ∅ ∅ None ∅ 0 0 "/build/external" "/install/prereq"
    ["none"] true true [empty_env] [] (Some 0) false false false false false "1" w [].

(** * Reasoning about runs

    [preserves R m]: wherever [m] is run, and however it ends, the state
    it leaves is related by [R] to the state it started in. *)

Definition preserves {W A} (R : relation (state W)) (m : M W A) : Prop :=
  forall s, R s (m s).2.

(** [yields P R m]: run where [P] holds, [m] returns a value, never an
    exception, and leaves a state where [P] holds again, related by [R]
    to the one it started in. *)
Definition yields {W A} (P : state W -> Prop) (R : relation (state W)) (m : M W A)
    : Prop :=
  forall s, P s -> exists a s', m s = (Ok a, s') /\ R s s' /\ P s'.

(** The events the registry's own bookkeeping logs; every other event is
    an action on the machine. *)
Definition ghost_event (e : event) : bool :=
  match e with
  | EConfigure _ | EBuild _ | EGet _ | ECommands _ => true
  | _ => false
  end.

(** A component with its two cached flags blanked, and with the paths of
    [configure] blanked as well. *)
Definition erase_flags {W} (c : component W) : component W :=
  set_flags false false c.

Definition static {W} (c : component W) : component W :=
  set_paths None None None None None (set_flags false false c).

(** What no operation of the engine assigns after the registry is built. *)
Definition consts {W} (s : state W) :=
  (reg_env s, system_env s, reg_build_dir s, prereq_prefix s, installed s,
   download_deps s, build_deps s, runner_env s, runner_dry_run s,
   opt_help s, opt_clean s, cmd_no_exec s, num_jobs s).

Definition found {W} (s : state W) (n : string) : Prop :=
  exists c, defined s !! n = Some c /\ targets_found c = true.

(** [frame Pe s s']: what an operation below [require], [build] and
    [configure] leaves alone.  The registry's bookkeeping is untouched,
    the components keep everything but their two flags, a component
    found stays found, and the log grows by events in [Pe]. *)
Record frame {W} (Pe : event -> Prop) (s s' : state W) : Prop := mkFrame {
  frame_required : required s' = required s;
  frame_errors : errors s' = errors s;
  frame_consts : consts s' = consts s;
  frame_defined : erase_flags <$> defined s' = erase_flags <$> defined s;
  frame_found : forall n, found s n -> found s' n;
  frame_trace : exists t, trace s' = trace s ++ t /\ Forall Pe t
}.

(** [evolves Pe s s']: what every operation respects, [require]
    included: names stay required, a cached exception stays, components
    keep their definition, the log grows by events in [Pe]. *)
Record evolves {W} (Pe : event -> Prop) (s s' : state W) : Prop := mkEvolves {
  evolves_required : forall n, is_Some (required s !! n) -> is_Some (required s' !! n);
  evolves_errors : forall n e, errors s !! n = Some e -> errors s' !! n = Some e;
  evolves_consts : consts s' = consts s;
  evolves_defined : static <$> defined s' = static <$> defined s;
  evolves_found : forall n, found s n -> found s' n;
  evolves_trace : exists t, trace s' = trace s ++ t /\ Forall Pe t
}.

Definition any_event (e : event) : Prop := True.

Definition machine_event (e : event) : Prop := ghost_event e = false.

(** [target] lies in [directory] or below it, both absolute and normal. *)
Definition path_inside (directory target : string) : bool :=
  String.eqb target directory
  || Str.startswith target (if Str.endswith directory "/" then directory
                             else directory +:+ "/").

(** The machines and registries of the worked examples. *)
Definition build_host : host (list string) :=
  test_host "/home/build" ["../build_cache/evil"] 0.

Definition offline_host : host (list string) :=
  test_host "/home/build" ["pkg-1.0/configure"] 22.

(** The machine [h] with only the programs [programs] to start. *)
Definition with_programs {W} (programs : list string) (h : host W) : host W :=
  {| os_path_exists := os_path_exists h;
     os_path_isdir := os_path_isdir h;
     os_getcwd := os_getcwd h;
     os_environ_get := os_environ_get h;
     os_listdir := os_listdir h;
     file_md5 := file_md5 h;
     os_remove := os_remove h;
     os_makedirs := os_makedirs h;
     os_mkdir := os_mkdir h;
     os_rename := os_rename h;
     shutil_rmtree := shutil_rmtree h;
     time_sleep := time_sleep h;
     subprocess_call := fun w cmd cwd env =>
       match cmd with
       | prog :: _ =>
           if bool_decide (prog ∈ programs) then subprocess_call h w cmd cwd env
           else None
       | [] => None
       end;
     tar_getnames := tar_getnames h;
     tar_extractall := tar_extractall h;
     pkg_config := pkg_config h;
     configparser_read := configparser_read h;
     subst := subst h;
     CheckProg := CheckProg h;
     CheckHeader := CheckHeader h;
     CheckLib := CheckLib h;
     CheckFunc := CheckFunc h |}.

(** The machine [h] with a pkg-config that knows the libraries pc and z
    for every package. *)
Definition with_pkg_config {W} (h : host W) : host W :=
  {| os_path_exists := os_path_exists h;
     os_path_isdir := os_path_isdir h;
     os_getcwd := os_getcwd h;
     os_environ_get := os_environ_get h;
     os_listdir := os_listdir h;
     file_md5 := file_md5 h;
     os_remove := os_remove h;
     os_makedirs := os_makedirs h;
     os_mkdir := os_mkdir h;
     os_rename := os_rename h;
     shutil_rmtree := shutil_rmtree h;
     time_sleep := time_sleep h;
     subprocess_call := subprocess_call h;
     tar_getnames := tar_getnames h;
     tar_extractall := tar_extractall h;
     pkg_config := fun _ _ cmd =>
       if Str.startswith cmd "pkg-config --libs" then Some [("LIBS", ["pc"; "z"])]
       else Some [];
     configparser_read := configparser_read h;
     subst := subst h;
     CheckProg := CheckProg h;
     CheckHeader := CheckHeader h;
     CheckLib := CheckLib h;
     CheckFunc := CheckFunc h |}.

Definition archive_state : state (list string) :=
  test_state ["pkg-1.0.tar.gz"].

Definition git_state : state (list string) :=
  set_retrievers [GitRepoRetriever "https://example.org/foo.git" false None None]
    (test_state []).

(** The configure checks of a component in the order
    [has_missing_targets] makes them, and the log of checks that passed. *)
Definition all_probes {W} (c : component W) : list probe :=
  match config_cb c with Some _ => [PConfigCb] | None => [] end
  ++ map PProg (progs c)
  ++ map PHeader (headers c)
  ++ map PLib (libs c)
  ++ flat_map (fun lf : string * list string => map PFunc lf.2) (functions c).

Definition passed (ps : list probe) : list (probe * bool) :=
  map (fun p => (p, true)) ps.

Definition logged (l : list (probe * bool)) : list event :=
  map (fun x => EProbe x.1 x.2) l.

(** The checks [ps] are made in order up to the first that fails. *)
Definition checked_until_failure (ps : list probe) (results : list (probe * bool))
    : Prop :=
  exists k p, ps !! k = Some p /\ results = passed (take k ps) ++ [(p, false)].

(** The checks of a log, with their results. *)
Definition probe_view (e : event) : option (probe * bool) :=
  match e with
  | EProbe p r => Some (p, r)
  | _ => None
  end.

Definition probe_log (t : list event) : list (probe * bool) := omap probe_view t.

(** The result of the check [p] of a component on a machine and an
    environment. *)
Definition check_of {W} (H : host W) (c : component W) (p : probe) (w : W) (e : Env)
    : bool :=
  match p with
  | PConfigCb =>
      match config_cb c with
      | Some cb => (cb w e).1
      | None => true
      end
  | PProg prog => CheckProg H w e prog
  | PHeader header => CheckHeader H w e header
  | PLib lib => (CheckLib H w e lib).1
  | PFunc function => CheckFunc H w e function
  end.

(** A check of the log shows the result the machine gave for it. *)
Definition observed {W} (H : host W) (c : component W) (x : probe * bool) : Prop :=
  exists w e, x.2 = check_of H c x.1 w e.

(** Whether a call of [has_missing_targets] for a component not yet
    found gets past its two guards: the dry run, as far as a check-only
    component cannot lift it, and help. *)
Definition makes_checks {W} (c : component W) (s : state W) : bool :=
  negb (cmd_no_exec s || negb (c_check_only c) && opt_no_exec s || opt_help s).

(** The checks such a call leaves in the log, with its answer: each
    shows what the machine answered; behind the guards they are all the
    checks of the component, passed, or those up to the first that
    fails; at a guard the answer is "missing" and there is no check. *)
Definition checks_logged {W} (H : host W) (c : component W) (s : state W)
    (missing : bool) (results : list (probe * bool)) : Prop :=
  Forall (observed H c) results /\
  if makes_checks c s then
    if missing then checked_until_failure (all_probes c) results
    else results = passed (all_probes c)
  else missing = true /\ results = [].

(** [honest H c s s']: the log grew, and every check it grew by shows
    the result the machine gave. *)
Definition honest {W} (H : host W) (c : component W) (s s' : state W) : Prop :=
  exists t, trace s' = trace s ++ t /\ Forall (observed H c) (probe_log t).

(** Neither the components nor the log change, nor the machine. *)
Definition still {W} (s s' : state W) : Prop :=
  defined s' = defined s /\ trace s' = trace s /\
  consts s' = consts s /\ world s' = world s.

(** [phase m ps]: [m] makes the checks [ps] in order and logs nothing
    else; it answers None when all passed, and Some True at the first
    that fails, which is the last it makes. *)
Definition phase {W} (m : M W (option bool)) (ps : list probe) : Prop :=
  forall s, exists r s' results,
    m s = (Ok r, s') /\ defined s' = defined s /\
    trace s' = trace s ++ logged results /\
    match r with
    | None => results = passed ps
    | Some b => b = true /\ checked_until_failure ps results
    end.

(** [verdict b m]: [m] turns the result [b] of a check into the answer
    of its phase, and logs nothing. *)
Definition verdict {W} (b : bool) (m : M W (option bool)) : Prop :=
  forall s, exists s',
    m s = (Ok (if b then None else Some true), s') /\ still s s'.

(** [restores c m]: the phase [m] of checks returns; when it goes on
    ([None]) the dry-run setting is as it was, and when it ends the call
    ([Some]) a check-only component has switched it on. *)
Definition restores {W} (c : component W) (m : M W (option bool)) : Prop :=
  forall s, exists r s',
    m s = (Ok r, s') /\
    match r with
    | None => opt_no_exec s' = opt_no_exec s
    | Some _ => opt_no_exec s' = c_check_only c || opt_no_exec s
    end.

(** [m] returns and leaves the dry-run setting as it was. *)
Definition keeps_dry_run {W A} (m : M W A) : Prop :=
  forall s, exists a s', m s = (Ok a, s') /\ opt_no_exec s' = opt_no_exec s.


(** A component "foo" that needs the program foo-config, the header
    foo.h and the library foo, and a registry that defines it. *)
Definition foo_component : component (list string) :=
  mkComponent (list string) "foo" false false false false None None [] None None None
    None ["foo-config"] ["foo"] None [] None [] [] [] ["foo.h"] [] None [] None
    ["lib"; "lib64"] ["include"] false "/build/external".

(** The machine of the examples with that pkg-config, and a foo that is
    installed on the system and has a pkg-config file. *)
Definition pkg_host : host (list string) := with_pkg_config build_host.

Definition pkg_foo : component (list string) :=
  mkComponent (list string) "foo" false false false true None None [] None None None
    None ["foo-config"] ["foo"] None [] None [] [] [] ["foo.h"] [] (Some "foo") [] None
    ["lib"; "lib64"] ["include"] false "/build/external".

Definition foo_state (w : list string) : state (list string) :=
  set_defined {["foo" := foo_component]} (test_state w).

(** ** What [set_environment] does to its environment

    Every change [set_environment] and [parse_config] make to the
    environment is one of four: append a value to a construction
    variable unless it is there, merge the values pkg-config gave for a
    construction variable, append a path to a variable of env['ENV']
    unless it is there, set a variable of env['ENV'] that is not set.
    [set_environment_ops] lists the changes of a call in order, from the
    component, the machine and the environment it is run on. *)

Inductive env_op : Type :=
| AddC (key x : string)
| Merge (key : string) (value : list string)
| AddE (name path : string)
| InitE (name : string) (v : list string).

Definition apply_op (o : env_op) (e : Env) : Env :=
  match o with
  | AddC key x => AppendUnique key x e
  | Merge key value => merge_flag key value e
  | AddE name path => AppendENVPath name path e
  | InitE name v =>
      if bool_decide (ENV e !! name = None)
      then mkEnv (cvars e) (svars e) (<[name := v]> (ENV e))
      else e
  end.

Definition apply_ops (ops : list env_op) (e : Env) : Env :=
  fold_left (fun e o => apply_op o e) ops e.

(** The construction variables named in the claims. *)
Definition cvar (key : string) (e : Env) : list string :=
  default [] (cvars e !! key).

(** The change is already made: the value is there; for a merge, the
    values are there and the variable holds nothing twice. *)
Definition satisfied (o : env_op) (e : Env) : Prop :=
  match o with
  | AddC key x => x ∈ cvar key e
  | Merge key value =>
      value = [] \/ (NoDup (cvar key e) /\ forall x, x ∈ value -> x ∈ cvar key e)
  | AddE name path => path ∈ default [] (ENV e !! name)
  | InitE name v => ENV e !! name <> None
  end.

(** Changes that, made again, leave the environment as it is: all but
    the merge into a variable whose name does not end in PATH, which
    moves the values it merges behind the others. *)
Definition stable (o : env_op) : Prop :=
  match o with
  | Merge key value => value = [] \/ Str.endswith key "PATH" = true
  | _ => True
  end.

(** Changes that leave env['ENV'] alone: a construction variable, or a
    change already made. *)
Definition neutral (o : env_op) (e : Env) : Prop :=
  match o with
  | AddC _ _ | Merge _ _ => True
  | _ => satisfied o e
  end.

Definition flag_ops (fl : flags) : list env_op :=
  map (fun kv : string * list string => Merge kv.1 kv.2) fl.

(** [same_entries e e']: the two environments differ at most in the
    order of the values of construction variables whose name does not
    end in PATH. *)
Definition same_entries (e e' : Env) : Prop :=
  ENV e' = ENV e /\ svars e' = svars e /\
  forall key,
    cvar key e' ≡ₚ cvar key e /\
    (Str.endswith key "PATH" = true -> cvar key e' = cvar key e).

Definition dtags : string := "-Wl,--enable-new-dtags".

Section EnvOps.

Context {W : Type} (H : host W) (w : W) (c : component W).

(** The changes [parse_config] makes to env['ENV'] before it calls
    pkg-config, and whether it goes on to call it. *)
Definition pkg_config_scoped : bool :=
  match component_prefix c with
  | Some cp => negb (use_installed c) && negb (String.eqb cp "/usr")
  | None => false
  end.

Definition pkg_config_dirs : list string :=
  filter (fun d => os_path_exists H w d = true)
    (map (fun p => Path.join3 (default "" (component_prefix c)) p "pkgconfig")
       ["lib"; "lib64"]).

Definition pkg_config_paths : list env_op :=
  (if truthy_opt (os_environ_get H w "PKG_CONFIG_PATH")
   then [InitE "PKG_CONFIG_PATH"
           (Str.split ":" (default "" (os_environ_get H w "PKG_CONFIG_PATH")))]
   else [])
  ++ (if pkg_config_scoped then map (AddE "PKG_CONFIG_PATH") pkg_config_dirs else []).

Definition pkg_config_go : bool :=
  if pkg_config_scoped then negb (bool_decide (pkg_config_dirs = [])) else true.

(** The changes of [parse_config(env, opts)] run on [e]. *)
Definition parse_config_ops (opts : string) (e : Env) : list env_op :=
  match pkgconfig c with
  | None => []
  | Some pkg =>
      pkg_config_paths ++
      if pkg_config_go then
        match pkg_config H w (ENV (apply_ops pkg_config_paths e))
                ("pkg-config " +:+ opts +:+ " " +:+ pkg) with
        | Some fl => flag_ops fl
        | None => []
        end
      else []
  end.

(** The library directories of the component that exist. *)
Definition existing_lib_paths : list string :=
  filter (fun d => os_path_exists H w d = true)
    (map (Path.join (default "" (component_prefix c))) (lib_path c)).

(** The changes [set_environment] makes before it parses pkg-config. *)
Definition own_ops : list env_op :=
  (if negb (use_installed c) && negb (bool_decide (component_prefix c = Some "/usr"))
   then
     [AddE "PATH" (Path.join (default "" (component_prefix c)) "bin")]
     ++ map (fun p => AddC "CPPPATH" (Path.join (default "" (component_prefix c)) p))
          (include_path c)
     ++ flat_map (fun d => [AddC "RPATH_FULL" d; AddE "LD_LIBRARY_PATH" d])
          existing_lib_paths
     ++ [AddC "LINKFLAGS" dtags]
   else [])
  ++ (if bool_decide (component_prefix c = Some "/usr") && bool_decide (package c = None)
      then [AddC "RPATH" "/usr/lib"; AddC "LINKFLAGS" dtags]
      else [])
  ++ map (AddC "CPPDEFINES") (defines c).

(** The changes of [set_environment(env, needed_libs)] run on [e], when
    it does not raise. *)
Definition set_environment_ops (needed_libs : option (list string)) (e : Env)
    : list env_op :=
  let cflags := parse_config_ops "--cflags" (apply_ops own_ops e) in
  own_ops ++ cflags ++
  match needed_libs with
  | None => []
  | Some nl =>
      parse_config_ops "--libs" (apply_ops (own_ops ++ cflags) e)
      ++ map (AddC "LIBPATH")
           (if negb (use_installed c)
               && negb (bool_decide (component_prefix c = Some "/usr"))
            then existing_lib_paths else [])
      ++ map (AddC "LIBS") nl
  end.

(** [set_environment] raises before any change: the component is not a
    system one and has no prefix yet. *)
Definition no_prefix_yet : bool :=
  negb (use_installed c) && bool_decide (component_prefix c = None).

(** The environment [set_environment(env, needed_libs)] leaves. *)
Definition set_environment_env (needed_libs : option (list string)) (e : Env) : Env :=
  if no_prefix_yet then e else apply_ops (set_environment_ops needed_libs e) e.

End EnvOps.

(** [env_is i e s0 s]: since [s0] the machine has not changed, and the
    environments have not either but for the one of index [i], now [e]. *)
Definition env_is {W} (i : nat) (e : Env) (s0 s : state W) : Prop :=
  world s = world s0 /\ envs s = <[i := e]> (envs s0).

(** [does i s0 m e a ops]: run where the environment of index [i] is
    [e], [m] returns [a] and makes the changes [ops] to it. *)
Definition does {W A} (i : nat) (s0 : state W) (m : M W A) (e : Env) (a : A)
    (ops : list env_op) : Prop :=
  forall s, env_is i e s0 s ->
  exists s', m s = (Ok a, s') /\ env_is i (apply_ops ops e) s0 s'.

(** Only the environment of index [i] may change, and the machine does not. *)
Definition touches_only {W} (i : nat) (s s' : state W) : Prop :=
  (exists f, envs s' = alter f i (envs s)) /\ world s' = world s.
(** ** The work of [require], by the log *)

(** [same_work g e]: the entry [e] of the log is the step [g] of the
    build of a component. *)
Definition same_work (g e : event) : bool :=
  match g, e with
  | EConfigure n, EConfigure m => String.eqb n m
  | EBuild n, EBuild m => String.eqb n m
  | EGet n, EGet m => String.eqb n m
  | ECommands n, ECommands m => String.eqb n m
  | _, _ => false
  end.

(** How often the step [g] shows in the log [t]. *)
Definition times (g : event) (t : list event) : nat :=
  length (filter (fun e => same_work g e = true) t).

(** The steps of the build of the component [n]: configure, build,
    retrieval of the source, the build commands. *)
Definition work_of (n : string) : list event :=
  [EConfigure n; EBuild n; EGet n; ECommands n].

(** The [needed_libs] that [require] works out for [comp] from its
    keywords. *)
Definition needed_libs_of {W} (kw : require_kw) (comp : string) (c : component W)
    : option (list string) :=
  if headers_only kw then None
  else default (Some (libs c)) (kw_libs kw !! (comp +:+ "_libs")).

(** A call of [require]; a process is a list of calls, each run in the
    state the one before left, whether it returned or raised. *)
Record call : Type := mkCall {
  call_fuel : nat;
  call_env : nat;
  call_comps : list string;
  call_kw : require_kw
}.

Definition run_calls {W} (H : host W) (calls : list call) (s : state W) : state W :=
  fold_left
    (fun s c => (require H (call_fuel c) (call_env c) (call_comps c) (call_kw c) s).2)
    calls s.

(** [spends n g k s s']: from [s] to [s'] the log grew, and the step [g]
    was logged at most [k] times if [n] was required already in [s],
    at most once more if [n] became required on the way. *)
Definition spends {W} (n : string) (g : event) (k : nat) (s s' : state W) : Prop :=
  exists t, trace s' = trace s ++ t /\
    (is_Some (required s !! n) ->
       is_Some (required s' !! n) /\ times g t <= k) /\
    (required s !! n = None ->
       times g t <= k + match required s' !! n with Some _ => 1 | None => 0 end).

(** What the step [e] costs when [g] is counted. *)
Definition cost (g e : event) : nat := if same_work g e then 1 else 0.

(** [keeps_error n e s s']: the exception [e] cached for the defined
    name [n] in [s] is still cached for it in [s']. *)
Definition keeps_error {W} (n : string) (e : exn) (s s' : state W) : Prop :=
  errors s !! n = Some e /\ is_Some (defined s !! n) ->
  errors s' !! n = Some e /\ is_Some (defined s' !! n).

(** A name defined in [s] is defined in [s']. *)
Definition stays_defined {W} (n : string) (s s' : state W) : Prop :=
  is_Some (defined s !! n) -> is_Some (defined s' !! n).

(** The component [n] is defined with no retriever. *)
Definition no_retriever {W} (n : string) (s : state W) : Prop :=
  exists c, defined s !! n = Some c /\ c_retriever c = None.

(** The component [n] is configured as an installed one. *)
Definition prebuilt {W} (n : string) (s : state W) : Prop :=
  exists c, defined s !! n = Some c /\ c_retriever c = None /\
            prebuilt_path c = Some "/usr".

(** Neither the retrieval of the source of [n] nor its build commands. *)
Definition no_source_build (n : string) (e : event) : Prop :=
  e <> EGet n /\ e <> ECommands n.

(** [never_built n s s']: a component [n] without retriever in [s] has
    none in [s'], and the log grew by no source build of [n]. *)
Definition never_built {W} (n : string) (s s' : state W) : Prop :=
  no_retriever n s ->
  no_retriever n s' /\
  exists t, trace s' = trace s ++ t /\ Forall (no_source_build n) t.

(** The same with [n] configured as an installed component, which it
    stays. *)
Definition stays_prebuilt {W} (n : string) (s s' : state W) : Prop :=
  prebuilt n s ->
  prebuilt n s' /\
  exists t, trace s' = trace s ++ t /\ Forall (no_source_build n) t.

(** [m] returns a value wherever it is run: it neither raises nor runs
    out of fuel. *)
Definition returns {W A} (m : M W A) : Prop :=
  forall s, exists a s', m s = (Ok a, s').

(** The registry of foo run for its help text, with a second
    environment (index 1) next to the registry's. *)
Definition help_state : state (list string) :=
  let s := foo_state [] in
  mkState (list string) (defined s) (required s) (errors s) (prebuilt_paths s)
    (src_paths s) (configs s) (build_info s) (reg_env s) (system_env s)
    (reg_build_dir s) (prereq_prefix s) (installed s) (download_deps s)
    (build_deps s) (envs s ++ [empty_env]) (retrievers s) (runner_env s)
    (runner_dry_run s) true (opt_clean s) (opt_no_exec s) (cmd_no_exec s) (num_jobs s) (world s)
    (trace s).

(** The flags cached in the registry are all False. *)
Definition flags_false {W} (s : state W) : Prop :=
  forall m b, required s !! m = Some b -> b = false.

(** The first [require] of foo in help mode, and what the registry holds
    for foo after it. *)
Definition help_first : outcome bool * state (list string) :=
  require build_host 2 0 ["foo"] (mkRequireKw false ∅) help_state.

Definition help_foo : component (list string) :=
  default foo_component (defined help_first.2 !! "foo").

(** ** More of the engine

    The functions of the registry and of the module that the build of a
    component does not go through. *)

(** [OPTIONAL_COMPS] *)
Definition OPTIONAL_COMPS : list string := ["psm2"].

(** [PreReqComponent.included] of names; [include] is [self.include]. *)
Fixpoint included (include comps : list string) : bool :=
  match comps with
  | [] => true
  | comp :: rest =>
      if negb (bool_decide (comp ∈ OPTIONAL_COMPS)) then included include rest
      else if negb (existsb (fun x => bool_decide (x ∈ include)) [comp; "all"])
      then false
      else included include rest
  end.

Section Flags.

Context {W : Type}.

(** The configure context of [check_flags]: its two custom tests. *)
Variable CheckFlag CheckFlagCC : string -> M W bool.

(** The loop of [check_flags] over the flags, [checked] so far. *)
Fixpoint check_flags_loop (env : nat) (key : string) (cxx : option string)
    (value checked : list string) : M W unit :=
  match value with
  | [] => mret tt
  | flag :: rest =>
      if bool_decide (flag ∈ checked) then check_flags_loop env key cxx rest checked
      else
        insert ←
          (if String.eqb key "CCFLAGS" then
             c ← CheckFlag flag;
             if (c : bool) then
               match cxx with
               | None => mret true
               | Some _ => CheckFlagCC flag
               end
             else mret false
           else if String.eqb key "CFLAGS" then CheckFlag flag
           else
             match cxx with
             | None => mret false
             | Some _ => CheckFlagCC flag
             end);
        (if (insert : bool) then update_env env (AppendUnique key flag) else mret tt);;
        check_flags_loop env key cxx rest (checked ++ [flag])
  end.

(** [check_flags(env, config, key, value)] *)
Definition check_flags (env : nat) (key : string) (value : list string) : M W unit :=
  help ← gets opt_help;
  clean ← gets opt_clean;
  if help || clean then mret tt
  else
    cxx ← gets (fun s => env_get "CXX" (the_env env s));
    check_flags_loop env key cxx value [].

End Flags.

(** The flags of [l] in order, each at its first place, those of [seen]
    left out. *)
Fixpoint first_seen (seen l : list string) : list string :=
  match l with
  | [] => []
  | x :: r =>
      if bool_decide (x ∈ seen) then first_seen seen r
      else x :: first_seen (seen ++ [x]) r
  end.

Module Registry.

(** [PreReqComponent.is_installed(name)]; [require_optional] is the
    --require-optional switch. *)
Definition is_installed {W} (H : host W) (fuel : nat) (require_optional : bool)
    (name : string) : M W bool :=
  ok ← check_component H fuel require_optional [name] (mkRequireKw false ∅);
  if (ok : bool) then
    d ← gets defined;
    match d !! name with
    | Some c => mret (use_installed c)
    | None => raise (KeyError name)
    end
  else mret false.

End Registry.

(** ** What a computation may raise *)

(** [raises_in Q P m]: run where [Q] holds, [m] leaves a state where [Q]
    holds, and what it raises, if it raises, is in [P]. *)
Definition raises_in {W A} (Q : state W -> Prop) (P : exn -> Prop) (m : M W A)
    : Prop :=
  forall s, Q s -> Q (m s).2 /\ forall e, (m s).1 = Raise e -> P e.

(** The runner is initialised. *)
Definition runner_ready {W} (s : state W) : Prop := is_Some (runner_env s).


(** The exception of a command that could not be started. *)
Definition spawn_failure (e : exn) : Prop := exists cmd, e = spawn_error cmd.


(** An entry of the log that is a command run. *)
Definition is_run (e : event) : bool :=
  match e with
  | ERun _ _ => true
  | _ => false
  end.

(** A registry whose runner is in a dry run. *)
Definition dry_run_state : state (list string) :=
  let s := foo_state [] in
  mkState (list string) (defined s) (required s) (errors s) (prebuilt_paths s)
    (src_paths s) (configs s) (build_info s) (reg_env s) (system_env s)
    (reg_build_dir s) (prereq_prefix s) (installed s) (download_deps s)
    (build_deps s) (envs s) (retrievers s) (runner_env s) true (opt_help s)
    (opt_clean s) (opt_no_exec s) (cmd_no_exec s) (num_jobs s) (world s) (trace s).

(** What [require] leaves of the registry: what it was built with
    ([consts]: the handles of its environments, its directories, the
    installed list, the download and build switches, the runner, and the
    options help, clean, jobs and the -n of the command line), and of
    each component everything but the two cached flags and the paths
    that [configure] assigns.  What SetOption set for no_exec, the
    caches, the configuration read and the retrievers are not part of
    it. *)
Definition keeps_registry {W} (s s' : state W) : Prop :=
  consts s' = consts s /\ static <$> defined s' = static <$> defined s.

(** [unchanged f s s']: the part [f] of the state is in [s'] what it
    was in [s]. *)
Definition unchanged {W A} (f : state W -> A) : relation (state W) :=
  fun s s' => f s' = f s.

(** Everything of the state that is neither an environment nor the log. *)
Definition beside_envs {W} (s : state W) :=
  (defined s, required s, errors s, prebuilt_paths s, src_paths s, configs s,
   build_info s, consts s, retrievers s, opt_no_exec s, world s).

(** [only_env i s s']: from [s] to [s'] nothing changed but the
    environment [i] and the log. *)
Definition only_env {W} (i : nat) (s s' : state W) : Prop :=
  beside_envs s' = beside_envs s /\
  length (envs s') = length (envs s) /\
  forall j, j <> i -> envs s' !! j = envs s !! j.

(** The retrieval of a source or the run of build commands, of any
    component. *)
Definition source_build (e : event) : bool :=
  match e with
  | EGet _ | ECommands _ => true
  | _ => false
  end.

(** [in_help s s']: help is asked for in [s]; then it is in [s'], and
    the log grew by no retrieval and no build. *)
Definition in_help {W} (s s' : state W) : Prop :=
  opt_help s = true ->
  opt_help s' = true /\
  exists t, trace s' = trace s ++ t /\ Forall (fun e => source_build e = false) t.

(** [no_runs s s']: the log grew, by no run of a command. *)
Definition no_runs {W} (s s' : state W) : Prop :=
  exists t, trace s' = trace s ++ t /\ Forall (fun e => is_run e = false) t.

(** The directories of ALT_PREFIX as [get_prebuilt_path] reads them. *)
Definition alt_prefixes {W} (s : state W) : list string :=
  match env_get "ALT_PREFIX" (the_env (reg_env s) s) with
  | None => []
  | Some x => Str.split ":" x
  end.

(** The registry of foo with /opt/alt as ALT_PREFIX, a directory that
    holds a lib64 and nothing else. *)
Definition alt_state : state (list string) :=
  let s := foo_state ["/opt/alt/lib64"] in
  mkState (list string) (defined s) (required s) (errors s) (prebuilt_paths s)
    (src_paths s) (configs s) (build_info s) (reg_env s) (system_env s)
    (reg_build_dir s) (prereq_prefix s) (installed s) (download_deps s)
    (build_deps s) [Replace "ALT_PREFIX" (Some "/opt/alt") empty_env] (retrievers s)
    (runner_env s) (runner_dry_run s) (opt_help s) (opt_clean s) (opt_no_exec s)
    (cmd_no_exec s) (num_jobs s) (world s) (trace s).

(** The component [n] has its prefix. *)
Definition prefixed {W} (n : string) (s : state W) : Prop :=
  exists c, defined s !! n = Some c /\ is_Some (component_prefix c).

(** A check-only component foo, and its registry run for the help text
    with the dry-run option set. *)
Definition check_only_foo : component (list string) :=
  mkComponent (list string) "foo" true false false false None None [] None None None
    None ["foo-config"] ["foo"] None [] None [] [] [] ["foo.h"] [] None [] None
    ["lib"; "lib64"] ["include"] false "/build/external".

Definition check_only_state (help : bool) : state (list string) :=
  let s := test_state [] in
  mkState (list string) {["foo" := check_only_foo]} (required s) (errors s)
    (prebuilt_paths s) (src_paths s) (configs s) (build_info s) (reg_env s)
    (system_env s) (reg_build_dir s) (prereq_prefix s) (installed s)
    (download_deps s) (build_deps s) (envs s) (retrievers s) (runner_env s)
    (runner_dry_run s) help (opt_clean s) true (cmd_no_exec s) (num_jobs s) (world s)
    (trace s).

(** The registry [s] run with -n on the command line. *)
Definition set_cmd_no_exec {W} (s : state W) : state W :=
  mkState W (defined s) (required s) (errors s) (prebuilt_paths s) (src_paths s)
    (configs s) (build_info s) (reg_env s) (system_env s) (reg_build_dir s)
    (prereq_prefix s) (installed s) (download_deps s) (build_deps s) (envs s)
    (retrievers s) (runner_env s) (runner_dry_run s) (opt_help s) (opt_clean s)
    (opt_no_exec s) true (num_jobs s) (world s) (trace s).

(** * Theorems *)

Ltac munfold :=
  unfold mbind, M_bind, mret, M_ret, gets, modify, raise, log, when, update_env,
    out_of_fuel in *.

Section Steps.

Context {W : Type}.

Lemma bind_gets {A B} (f : state W -> A) (k : A -> M W B) (s : state W) :
  (gets f ≫= k) s = k (f s) s.
Proof. reflexivity. Qed.

Lemma bind_ret {A B} (a : A) (k : A -> M W B) (s : state W) :
  (mret a ≫= k) s = k a s.
Proof. reflexivity. Qed.

Lemma bind_ret_eq {A B} (a : A) (k : A -> M W B) :
  (mret a ≫= k) = k a.
Proof. reflexivity. Qed.

Lemma bind_modify {B} (f : state W -> state W) (k : unit -> M W B) (s : state W) :
  (modify f ≫= k) s = k tt (f s).
Proof. reflexivity. Qed.

Lemma bind_run {A B} (m : M W A) (k : A -> M W B) (s : state W) :
  (m ≫= k) s =
    match m s with
    | (Ok a, s') => k a s'
    | (Raise e, s') => (Raise e, s')
    | (OutOfFuel, s') => (OutOfFuel, s')
    end.
Proof. reflexivity. Qed.

Lemma bind_ok {A B} (m : M W A) (k : A -> M W B) (s s' : state W) (a : A) :
  m s = (Ok a, s') -> (m ≫= k) s = k a s'.
Proof. intros Hm. unfold mbind, M_bind. rewrite Hm. reflexivity. Qed.

Lemma bind_raise {A B} (m : M W A) (k : A -> M W B) (s s' : state W) (e : exn) :
  m s = (Raise e, s') -> (m ≫= k) s = (Raise e, s').
Proof. intros Hm. unfold mbind, M_bind. rewrite Hm. reflexivity. Qed.


End Steps.

Section Rules.

Context {W : Type} (R : relation (state W)) `{!PreOrder R}.

Lemma preserves_ret {A} (a : A) : preserves R (mret a : M W A).
Proof. intros s. simpl. reflexivity. Qed.

Lemma preserves_raise {A} e : preserves R (raise e : M W A).
Proof. intros s. simpl. reflexivity. Qed.

Lemma preserves_gets {A} (f : state W -> A) : preserves R (gets f).
Proof. intros s. simpl. reflexivity. Qed.

Lemma preserves_out_of_fuel {A} : preserves R (out_of_fuel : M W A).
Proof. intros s. simpl. reflexivity. Qed.

Lemma preserves_bind {A B} (m : M W A) (f : A -> M W B) :
  preserves R m -> (forall a, preserves R (f a)) -> preserves R (m ≫= f).
Proof.
  intros Hm Hf s. unfold mbind, M_bind. specialize (Hm s).
  destruct (m s) as [[a|e|] s']; simpl in *; auto.
  etransitivity; [exact Hm|apply Hf].
Qed.

Lemma preserves_modify (f : state W -> state W) :
  (forall s, R s (f s)) -> preserves R (modify f).
Proof. intros Hf s. apply Hf. Qed.

Lemma preserves_try {A} (m : M W A) h :
  preserves R m -> (forall e, preserves R (h e)) -> preserves R (try_except m h).
Proof.
  intros Hm Hh s. unfold try_except. specialize (Hm s).
  destruct (m s) as [[a|e|] s']; simpl in *; auto.
  etransitivity; [exact Hm|apply Hh].
Qed.

Lemma preserves_when b (m : M W unit) : preserves R m -> preserves R (when b m).
Proof. intros Hm. destruct b; simpl; auto using preserves_ret. Qed.

Lemma preserves_for_each {A} (l : list A) (body : A -> M W unit) :
  (forall x, preserves R (body x)) -> preserves R (for_each l body).
Proof.
  intros Hb. induction l; simpl; [apply preserves_ret|].
  apply preserves_bind; auto.
Qed.

Lemma preserves_for_return {A B} (l : list A) (body : A -> M W (option B)) :
  (forall x, preserves R (body x)) -> preserves R (for_return l body).
Proof.
  intros Hb. induction l; simpl; [apply preserves_ret|].
  apply preserves_bind; auto. intros [v|]; auto using preserves_ret.
Qed.

Lemma preserves_for_fold {A S} (l : list A) (acc : S) (body : A -> S -> M W S) :
  (forall x a, preserves R (body x a)) -> preserves R (for_fold l acc body).
Proof.
  intros Hb. revert acc. induction l; intros acc; simpl; [apply preserves_ret|].
  apply preserves_bind; auto.
Qed.

Lemma preserves_or_else {B} (m1 m2 : M W (option B)) :
  preserves R m1 -> preserves R m2 -> preserves R (or_else m1 m2).
Proof.
  intros H1 H2. unfold or_else. apply preserves_bind; auto.
  intros [v|]; auto using preserves_ret.
Qed.

End Rules.

Lemma preserves_weaken {W A} (R R' : relation (state W)) (m : M W A) :
  (forall s s', R s s' -> R' s s') -> preserves R m -> preserves R' m.
Proof. intros HR Hm s. apply HR, Hm. Qed.

(** One step of a proof that a computation preserves a relation: the
    shape of the computation decides the rule. *)
Ltac pres_side :=
  lazymatch goal with
  | |- PreOrder _ => exact _
  | |- _ => idtac
  end.

Ltac pres_step :=
  lazymatch goal with
  | |- preserves _ (mret _) => apply preserves_ret; pres_side
  | |- preserves _ (raise _) => apply preserves_raise; pres_side
  | |- preserves _ (gets _) => apply preserves_gets; pres_side
  | |- preserves _ out_of_fuel => apply preserves_out_of_fuel; pres_side
  | |- preserves _ (_ ≫= _) => apply preserves_bind; pres_side; [|intros]
  | |- preserves _ (try_except _ _) => apply preserves_try; pres_side; [|intros]
  | |- preserves _ (when _ _) => apply preserves_when; pres_side
  | |- preserves _ (for_each _ _) => apply preserves_for_each; pres_side; intros
  | |- preserves _ (for_return _ _) => apply preserves_for_return; pres_side; intros
  | |- preserves _ (for_fold _ _ _) => apply preserves_for_fold; pres_side; intros
  | |- preserves _ (or_else _ _) => apply preserves_or_else; pres_side
  | |- preserves _ (if ?b then _ else _) => destruct b
  | |- preserves _ (match ?x with _ => _ end) => destruct x
  end.

Section YieldRules.

Context {W : Type} (P : state W -> Prop) (R : relation (state W)) `{!PreOrder R}.

Lemma yields_ret {A} (a : A) : yields P R (mret a : M W A).
Proof. intros s Hs. exists a, s. repeat split; auto. reflexivity. Qed.

Lemma yields_gets {A} (f : state W -> A) : yields P R (gets f).
Proof. intros s Hs. exists (f s), s. repeat split; auto. reflexivity. Qed.

Lemma yields_bind {A B} (m : M W A) (f : A -> M W B) :
  yields P R m -> (forall a, yields P R (f a)) -> yields P R (m ≫= f).
Proof.
  intros Hm Hf s Hs. destruct (Hm s Hs) as (a & s1 & Hr & HR & Hs1).
  destruct (Hf a s1 Hs1) as (b & s2 & Hr2 & HR2 & Hs2).
  exists b, s2. unfold mbind, M_bind. rewrite Hr, Hr2. repeat split; auto.
  etransitivity; eauto.
Qed.

Lemma yields_modify (f : state W -> state W) :
  (forall s, P s -> R s (f s) /\ P (f s)) -> yields P R (modify f).
Proof. intros Hf s Hs. exists tt, (f s). destruct (Hf s Hs). auto. Qed.

Lemma yields_when b (m : M W unit) : yields P R m -> yields P R (when b m).
Proof. intros Hm. destruct b; simpl; auto using yields_ret. Qed.

Lemma yields_for_each {A} (l : list A) (body : A -> M W unit) :
  (forall x, yields P R (body x)) -> yields P R (for_each l body).
Proof.
  intros Hb. induction l; simpl; [apply yields_ret|].
  apply yields_bind; auto.
Qed.

Lemma yields_for_return {A B} (l : list A) (body : A -> M W (option B)) :
  (forall x, yields P R (body x)) -> yields P R (for_return l body).
Proof.
  intros Hb. induction l; simpl; [apply yields_ret|].
  apply yields_bind; auto. intros [v|]; auto using yields_ret.
Qed.

Lemma yields_for_fold {A S} (l : list A) (acc : S) (body : A -> S -> M W S) :
  (forall x a, yields P R (body x a)) -> yields P R (for_fold l acc body).
Proof.
  intros Hb. revert acc. induction l; intros acc; simpl; [apply yields_ret|].
  apply yields_bind; auto.
Qed.

Lemma yields_or_else {B} (m1 m2 : M W (option B)) :
  yields P R m1 -> yields P R m2 -> yields P R (or_else m1 m2).
Proof.
  intros H1 H2. unfold or_else. apply yields_bind; auto.
  intros [v|]; auto using yields_ret.
Qed.

End YieldRules.

Ltac yields_step :=
  lazymatch goal with
  | |- yields _ _ (mret _) => apply yields_ret; pres_side
  | |- yields _ _ (gets _) => apply yields_gets; pres_side
  | |- yields _ _ (_ ≫= _) => apply yields_bind; pres_side; [|intros]
  | |- yields _ _ (when _ _) => apply yields_when; pres_side
  | |- yields _ _ (for_each _ _) => apply yields_for_each; pres_side; intros
  | |- yields _ _ (for_return _ _) => apply yields_for_return; pres_side; intros
  | |- yields _ _ (for_fold _ _ _) => apply yields_for_fold; pres_side; intros
  | |- yields _ _ (or_else _ _) => apply yields_or_else; pres_side
  | |- yields _ _ (if ?b then _ else _) => destruct b
  | |- yields _ _ (match ?x with _ => _ end) => destruct x
  end.

Section Frames.

Context {W : Type}.

#[local] Instance frame_preorder (Pe : event -> Prop) : PreOrder (@frame W Pe).
Proof.
  split.
  - intros s. split; auto. exists []. rewrite app_nil_r. auto.
  - intros s1 s2 s3 [r1 e1 c1 d1 f1 (t1 & Ht1 & P1)] [r2 e2 c2 d2 f2 (t2 & Ht2 & P2)].
    split; try congruence; auto.
    exists (t1 ++ t2). rewrite Ht2, Ht1, app_assoc. split; auto.
    apply Forall_app; auto.
Qed.

#[local] Instance evolves_preorder (Pe : event -> Prop) : PreOrder (@evolves W Pe).
Proof.
  split.
  - intros s. split; auto. exists []. rewrite app_nil_r. auto.
  - intros s1 s2 s3 [r1 e1 c1 d1 f1 (t1 & Ht1 & P1)] [r2 e2 c2 d2 f2 (t2 & Ht2 & P2)].
    split; try congruence; auto.
    exists (t1 ++ t2). rewrite Ht2, Ht1, app_assoc. split; auto.
    apply Forall_app; auto.
Qed.

Lemma static_erase (c : component W) : static (erase_flags c) = static c.
Proof. reflexivity. Qed.

Lemma frame_evolves Pe (s s' : state W) : frame Pe s s' -> evolves Pe s s'.
Proof.
  intros [r e c d f t]. split; auto; try (intros; congruence).
  assert (static <$> (erase_flags <$> defined s')
          = static <$> (erase_flags <$> defined s)) as Hd by (f_equal; exact d).
  rewrite <- !map_fmap_compose in Hd. exact Hd.
Qed.

Lemma frame_mono (Pe Pe' : event -> Prop) (s s' : state W) :
  (forall e, Pe e -> Pe' e) -> frame Pe s s' -> frame Pe' s s'.
Proof.
  intros HP [r e c d f (t & Ht & P)]. split; auto.
  exists t. split; auto. eapply Forall_impl; eauto.
Qed.

End Frames.

Section Leaves.

Context {W : Type} (H : host W).
Context (Pe : event -> Prop) (HPe : forall e, machine_event e -> Pe e).

#[local] Existing Instance frame_preorder.

Ltac frame_now :=
  split; simpl; auto; try (exists []; rewrite app_nil_r; auto).

Lemma frame_log_event (e : event) (s : state W) :
  Pe e -> frame Pe s (set_trace (trace s ++ [e]) s).
Proof. intros He. split; simpl; auto. exists [e]. auto. Qed.

Lemma preserves_log (e : event) : Pe e -> preserves (frame Pe) (log e : M W unit).
Proof. intros He s. apply frame_log_event, He. Qed.

Lemma preserves_update_env i f : preserves (@frame W Pe) (update_env i f).
Proof. intros s. frame_now. Qed.

Lemma preserves_Clone i : preserves (@frame W Pe) (Clone i).
Proof. intros s. frame_now. Qed.

Lemma preserves_SetOption b : preserves (@frame W Pe) (SetOption_no_exec b).
Proof. intros s. frame_now. Qed.

Lemma preserves_update_retriever r f : preserves (@frame W Pe) (update_retriever r f).
Proof. intros s. frame_now. Qed.

Lemma preserves_set_world (f : state W -> W) :
  preserves (@frame W Pe) (modify (fun s => set_world (f s) s)).
Proof. intros s. frame_now. Qed.

Lemma preserves_set_caches (f : state W -> _) (g : state W -> _) :
  preserves (@frame W Pe) (modify (fun s => set_caches (f s) (g s) s)).
Proof. intros s. frame_now. Qed.

Lemma preserves_set_configs (f : state W -> _) (g : state W -> _) :
  preserves (@frame W Pe) (modify (fun s => set_configs (f s) (g s) s)).
Proof. intros s. frame_now. Qed.

Lemma fmap_alter_same {A B} (g : A -> B) (f : A -> A) (n : string) (m : gmap string A) :
  (forall a, g (f a) = g a) -> g <$> alter f n m = g <$> m.
Proof.
  intros Hg. apply map_eq. intros k. rewrite !lookup_fmap.
  destruct (decide (n = k)) as [->|Hne].
  - rewrite lookup_alter_eq. destruct (m !! k); simpl; congruence.
  - rewrite lookup_alter_ne; auto.
Qed.

Lemma found_alter (f : component W -> component W) (n : string) (s : state W) k :
  (forall c, targets_found c = true -> targets_found (f c) = true) ->
  found s k -> found (set_defined (alter f n (defined s)) s) k.
Proof.
  intros Hf (c & Hc & Ht). unfold found. simpl.
  destruct (decide (n = k)) as [->|Hne].
  - exists (f c). rewrite lookup_alter_eq, Hc. auto.
  - exists c. rewrite lookup_alter_ne; auto.
Qed.

Lemma preserves_update_flags n (f : component W -> component W) :
  (forall c, erase_flags (f c) = erase_flags c) ->
  (forall c, targets_found c = true -> targets_found (f c) = true) ->
  preserves (@frame W Pe) (update_self n f).
Proof.
  intros He Hf s. split; simpl; auto.
  - apply fmap_alter_same, He.
  - intros k. apply found_alter, Hf.
  - exists []. rewrite app_nil_r. auto.
Qed.

Create HintDb pres.

Hint Resolve preserves_log preserves_update_env preserves_Clone preserves_SetOption
  preserves_update_retriever preserves_set_world preserves_set_caches
  preserves_set_configs : pres.

Ltac pres :=
  repeat first
    [ solve [eauto with pres]
    | apply preserves_log; apply HPe; reflexivity
    | pres_step ].

Lemma preserves_run_commands commands subdir env :
  preserves (@frame W Pe) (run_commands H commands subdir env).
Proof. unfold run_commands. pres. Qed.

Hint Resolve preserves_run_commands : pres.

Lemma preserves_self n : preserves (@frame W Pe) (self n).
Proof. unfold self. pres. Qed.

Lemma preserves_self_retriever r : preserves (@frame W Pe) (self_retriever r).
Proof. unfold self_retriever. pres. Qed.

Lemma preserves_join_opt p q : preserves (@frame W Pe) (join_opt p q).
Proof. unfold join_opt. pres. Qed.

Hint Resolve preserves_self preserves_self_retriever preserves_join_opt : pres.

Lemma preserves_checkout_commit r subdir :
  preserves (@frame W Pe) (checkout_commit H r subdir).
Proof. unfold checkout_commit. pres. Qed.

Lemma preserves_apply_patches r subdir patches :
  preserves (@frame W Pe) (_apply_patches H r subdir patches).
Proof. unfold _apply_patches. pres. Qed.

Lemma preserves_update_submodules r subdir :
  preserves (@frame W Pe) (_update_submodules H r subdir).
Proof. unfold _update_submodules. pres. Qed.

Lemma preserves_checkout_or_fetch r subdir rev :
  preserves (@frame W Pe) (checkout_or_fetch H r subdir rev).
Proof. unfold checkout_or_fetch. pres. Qed.

Hint Resolve preserves_checkout_commit preserves_apply_patches
  preserves_update_submodules preserves_checkout_or_fetch : pres.

Lemma preserves_get_specific r subdir kw :
  preserves (@frame W Pe) (_get_specific H r subdir kw).
Proof. unfold _get_specific. pres. Qed.

Hint Resolve preserves_get_specific : pres.

Lemma preserves_git_get r subdir kw : preserves (@frame W Pe) (git_get H r subdir kw).
Proof. unfold git_get. pres. Qed.

Lemma preserves_check_md5 md5 filename :
  preserves (@frame W Pe) (check_md5 H md5 filename).
Proof. unfold check_md5. pres. Qed.

Hint Resolve preserves_git_get preserves_check_md5 : pres.

Lemma preserves_download_loop url md5 basename retries idxs sleep :
  preserves (@frame W Pe) (download_loop H url md5 basename retries idxs sleep).
Proof.
  revert sleep. induction idxs as [|idx rest IH]; intros sleep; simpl; pres.
Qed.

Hint Resolve preserves_download_loop : pres.

Lemma preserves_download url md5 basename :
  preserves (@frame W Pe) (download H url md5 basename).
Proof. unfold download. pres. Qed.

Lemma preserves_safe_extract archive members path :
  preserves (@frame W Pe) (safe_extract H archive members path).
Proof. unfold safe_extract. pres. Qed.

Hint Resolve preserves_download preserves_safe_extract : pres.

Lemma preserves_web_get url md5 dry_run subdir :
  preserves (@frame W Pe) (web_get H url md5 dry_run subdir).
Proof. unfold web_get. pres. Qed.

Hint Resolve preserves_web_get : pres.

Lemma preserves_retriever_get r subdir kw :
  preserves (@frame W Pe) (retriever_get H r subdir kw).
Proof. unfold retriever_get. pres. Qed.

Lemma preserves_parse_config c env opts :
  preserves (@frame W Pe) (parse_config H c env opts).
Proof. unfold parse_config. pres. Qed.

Hint Resolve preserves_retriever_get preserves_parse_config : pres.

Lemma preserves_set_environment c env needed_libs :
  preserves (@frame W Pe) (set_environment H c env needed_libs).
Proof. unfold set_environment. pres. Qed.

Lemma preserves_run_probe p cenv check :
  preserves (@frame W Pe) (run_probe p cenv check).
Proof. unfold run_probe. pres. Qed.

Lemma preserves_checks_failed c : preserves (@frame W Pe) (checks_failed c).
Proof. unfold checks_failed. pres. Qed.

Hint Resolve preserves_set_environment preserves_run_probe preserves_checks_failed : pres.

Lemma preserves_check_functions c fs cenv :
  preserves (@frame W Pe) (check_functions H c fs cenv).
Proof.
  revert cenv. induction fs as [|[lib fns] rest IH]; intros cenv; simpl; pres.
Qed.

Hint Resolve preserves_check_functions : pres.

Lemma preserves_found n : preserves (@frame W Pe) (update_self n (set_targets_found true)).
Proof. apply preserves_update_flags; auto. Qed.

Lemma preserves_not_installed n :
  preserves (@frame W Pe) (update_self n (set_use_installed false)).
Proof. apply preserves_update_flags; auto. Qed.

Hint Resolve preserves_found preserves_not_installed : pres.

Lemma preserves_has_missing_targets n env :
  preserves (@frame W Pe) (has_missing_targets H n env).
Proof. unfold has_missing_targets, GetOption_no_exec. pres. Qed.

Hint Resolve preserves_has_missing_targets : pres.

Lemma preserves_is_installed n needed_libs :
  preserves (@frame W Pe) (is_installed H n needed_libs).
Proof. unfold is_installed. pres. Qed.

Lemma preserves_has_missing_system_deps c env :
  preserves (@frame W Pe) (_has_missing_system_deps H c env).
Proof. unfold _has_missing_system_deps, GetOption_no_exec. pres. Qed.

Lemma preserves_check_installed_package n env :
  preserves (@frame W Pe) (_check_installed_package H n env).
Proof. unfold _check_installed_package. pres. Qed.

Lemma preserves_ensure_dir_exists dirname dry_run :
  preserves (@frame W Pe) (ensure_dir_exists H dirname dry_run).
Proof. unfold ensure_dir_exists. pres. Qed.

Lemma preserves_rm_old_dir c path : preserves (@frame W Pe) (_rm_old_dir H c path).
Proof. unfold _rm_old_dir. pres. Qed.

Lemma preserves_save_component_prefix var value :
  preserves (@frame W Pe) (_save_component_prefix var value).
Proof. unfold _save_component_prefix, set_reg_env. pres. Qed.

Hint Resolve preserves_is_installed preserves_has_missing_system_deps
  preserves_check_installed_package preserves_ensure_dir_exists
  preserves_rm_old_dir preserves_save_component_prefix : pres.

Lemma preserves_get_prebuilt_path n : preserves (@frame W Pe) (get_prebuilt_path H n).
Proof. unfold get_prebuilt_path. pres. Qed.

Lemma preserves_get_prefixes n prebuilt :
  preserves (@frame W Pe) (get_prefixes n prebuilt).
Proof. unfold get_prefixes. pres. Qed.

Lemma preserves_get_src_path n : preserves (@frame W Pe) (get_src_path n).
Proof. unfold get_src_path. pres. Qed.

Lemma preserves_get_config section n : preserves (@frame W Pe) (get_config section n).
Proof. unfold get_config. pres. Qed.

Hint Resolve preserves_get_prebuilt_path preserves_get_prefixes
  preserves_get_src_path preserves_get_config : pres.

Lemma preserves_load_config comp path : preserves (@frame W Pe) (load_config H comp path).
Proof. unfold load_config. pres. Qed.

Lemma preserves_resolve_patches c : preserves (@frame W Pe) (resolve_patches H c).
Proof. unfold resolve_patches. pres. Qed.

Lemma preserves_patch_rpaths n : preserves (@frame W Pe) (patch_rpaths H n).
Proof. unfold patch_rpaths. pres. Qed.

Hint Resolve preserves_load_config preserves_resolve_patches preserves_patch_rpaths : pres.

End Leaves.

(** * The retrievers *)

Section Retrievers.

Context {W : Type} (H : host W).

#[local] Existing Instance frame_preorder.

Lemma check_md5_run (md5 filename : string) (s : state W) :
  check_md5 H md5 filename s =
    if negb (os_path_exists H (world s) filename) then (Ok false, s)
    else if String.eqb (file_md5 H (world s) filename) md5 then (Ok true, s)
    else (Ok false,
          set_trace (trace s ++ [ERemove filename])
            (set_world (os_remove H (world s) filename) s)).
Proof.
  unfold check_md5. munfold.
  destruct (os_path_exists H (world s) filename); simpl; [|reflexivity].
  destruct (String.eqb (file_md5 H (world s) filename) md5); simpl; reflexivity.
Qed.

(** C10: [check_md5] returns False and touches nothing when the file is
    absent, returns True and touches nothing when the digest is the one
    expected, and otherwise removes the file and returns False. *)
Theorem check_md5_spec (md5 filename : string) (s : state W) :
  check_md5 H md5 filename s =
    if negb (os_path_exists H (world s) filename) then (Ok false, s)
    else if String.eqb (file_md5 H (world s) filename) md5 then (Ok true, s)
    else (Ok false,
          set_trace (trace s ++ [ERemove filename])
            (set_world (os_remove H (world s) filename) s)).
Proof. apply check_md5_run. Qed.

Lemma run_commands_single (command : list string) subdir env (s : state W) e :
  runner_env s = Some e ->
  runner_dry_run s = false ->
  let cmd := expand_command H (the_env e s) (num_jobs s) command in
  run_commands H [command] subdir env s =
    match subprocess_call H (world s) cmd subdir (ENV (the_env (default e env) s)) with
    | Some (rc, w) =>
        (Ok (Z.eqb rc 0), set_trace (trace s ++ [ERun cmd subdir]) (set_world w s))
    | None => (Raise (spawn_error cmd), set_trace (trace s ++ [ERun cmd subdir]) s)
    end.
Proof.
  intros He Hd. unfold run_commands. munfold. simpl. rewrite He. simpl. munfold.
  simpl. rewrite Hd.
  destruct (subprocess_call H (world s) _ subdir _) as [[rc w]|] eqn:Hc; simpl;
    [|reflexivity].
  destruct (Z.eqb rc 0); reflexivity.
Qed.

Lemma trace_grows {A} (m : M W A) (s : state W) :
  preserves (frame any_event) m ->
  exists t, trace (m s).2 = trace s ++ t.
Proof.
  intros Hm. destruct (Hm s) as [_ _ _ _ _ (t & Ht & _)]. eauto.
Qed.

Lemma all_events (e : event) : machine_event e -> any_event e.
Proof. intros _. exact I. Qed.

(** One command run first, then a computation that only adds to the log. *)
Lemma first_run {A} (command : list string) subdir (k : bool -> M W A) (s : state W) e :
  runner_env s = Some e ->
  runner_dry_run s = false ->
  (forall b, preserves (frame any_event) (k b)) ->
  exists t,
    trace ((run_commands H [command] subdir None ≫= k) s).2 =
      trace s ++ ERun (expand_command H (the_env e s) (num_jobs s) command) subdir :: t.
Proof.
  intros He Hd Hk. unfold mbind, M_bind.
  rewrite (run_commands_single command subdir None s e He Hd). simpl.
  destruct (subprocess_call H (world s) _ subdir _) as [[rc w]|]; simpl.
  - match goal with |- context [k ?b ?s1] =>
      destruct (trace_grows (k b) s1 (Hk b)) as [t Ht] end.
    exists t. rewrite Ht. simpl. rewrite <- app_assoc. reflexivity.
  - exists []. reflexivity.
Qed.

(** [m] runs a command before anything else shows in the log. *)
Definition runs_first {A} (m : M W A) : Prop :=
  forall s e, runner_env s = Some e -> runner_dry_run s = false ->
  exists cmd cwd t, trace (m s).2 = trace s ++ ERun cmd cwd :: t.

(** [m] returns and leaves the log and the runner as they are. *)
Definition silent {A} (m : M W A) : Prop :=
  forall s, exists a s',
    m s = (Ok a, s') /\ trace s' = trace s /\
    runner_env s' = runner_env s /\ runner_dry_run s' = runner_dry_run s.

Lemma runs_first_run {A} command subdir (k : bool -> M W A) :
  (forall b, preserves (frame any_event) (k b)) ->
  runs_first (run_commands H [command] subdir None ≫= k).
Proof.
  intros Hk s e He Hd.
  destruct (first_run command subdir k s e He Hd Hk) as [t Ht]. eauto.
Qed.

Lemma runs_first_bind {A B} (m : M W A) (f : A -> M W B) :
  runs_first m -> (forall a, preserves (frame any_event) (f a)) ->
  runs_first (m ≫= f).
Proof.
  intros Hm Hf s e He Hd. destruct (Hm s e He Hd) as (cmd & cwd & t & Ht).
  unfold mbind, M_bind. destruct (m s) as [[a| |] s1]; simpl in *; eauto.
  destruct (trace_grows (f a) s1 (Hf a)) as [t' Ht'].
  exists cmd, cwd, (t ++ t'). rewrite Ht', Ht, <- app_assoc. reflexivity.
Qed.

Lemma runs_first_silent {A B} (m : M W A) (f : A -> M W B) :
  silent m -> (forall a, runs_first (f a)) -> runs_first (m ≫= f).
Proof.
  intros Hm Hf s e He Hd. destruct (Hm s) as (a & s1 & Hs & Ht & Hr & Hdr).
  unfold mbind, M_bind. rewrite Hs.
  destruct (Hf a s1 e) as (cmd & cwd & t & Ht'); [congruence..|].
  exists cmd, cwd, t. rewrite Ht', Ht. reflexivity.
Qed.

Lemma silent_self_retriever r : silent (self_retriever r : M W _).
Proof. intros s. eexists _, _. repeat split. Qed.

Lemma silent_update_retriever r f : silent (update_retriever r f : M W _).
Proof. intros s. eexists _, _. repeat split. Qed.

Lemma runs_first_checkout_or_fetch {A} r subdir rev (k : unit -> M W A) :
  (forall u, preserves (frame any_event) (k u)) ->
  runs_first (checkout_or_fetch H r subdir rev ≫= k).
Proof.
  intros Hk s e He Hd. unfold checkout_or_fetch.
  destruct (first_run ["git"; "checkout"; rev] (Some subdir)
    (fun ok => (if negb ok
                then run_commands H [["git"; "fetch"; "-t"; "-a"]] (Some subdir) None
                       ≫= (fun ok' => if negb ok'
                            then raise (DownloadFailure (git_url (retrievers s !! r)) subdir)
                            else mret tt)
                else mret tt) ≫= k) s e He Hd) as [t Ht].
  { intros b. apply preserves_bind; [exact _| |exact Hk].
    destruct b; simpl.
    - apply preserves_ret; exact _.
    - apply preserves_bind; [exact _| |].
      + apply preserves_run_commands, all_events.
      + intros []; simpl; [apply preserves_ret|apply preserves_raise]; exact _. }
  eexists _, _, t. rewrite <- Ht. unfold self_retriever. munfold. simpl.
  destruct (run_commands H [["git"; "checkout"; rev]] (Some subdir) None s)
    as [[[]| |] s1]; simpl; reflexivity.
Qed.

Lemma runs_first_get_specific r subdir kw sha :
  kw_commit_sha kw = Some sha -> runs_first (_get_specific H r subdir kw).
Proof.
  intros Hsha. unfold _get_specific.
  apply runs_first_silent; [apply silent_self_retriever|]. intros self.
  apply runs_first_silent; [apply silent_update_retriever|]. intros _.
  rewrite Hsha.
  assert (forall u : unit, preserves (frame any_event)
    (run_commands H [["git"; "reset"; "--hard"; "HEAD"]] (Some subdir) None
     ≫= (fun ok => (if negb ok
            then raise (DownloadFailure (git_url self) subdir)
            else mret tt)
         ≫= (fun _ => _update_submodules H r subdir
         ≫= (fun _ => _apply_patches H r subdir (kw_patches kw)))))) as Htail.
  { intros _. apply preserves_bind; [exact _| |].
    - apply preserves_run_commands, all_events.
    - intros ok. apply preserves_bind; [exact _| |].
      + destruct ok; simpl; [apply preserves_ret|apply preserves_raise]; exact _.
      + intros _. apply preserves_bind; [exact _| |].
        * apply preserves_update_submodules, all_events.
        * intros _. apply preserves_apply_patches, all_events. }
  assert (forall u : unit, preserves (frame any_event)
    (update_retriever r (set_git_commit_sha (Some sha))
     ≫= (fun _ => checkout_commit H r subdir))) as Hcommit.
  { intros _. apply preserves_bind; [exact _| |].
    - apply preserves_update_retriever.
    - intros _. apply preserves_checkout_commit, all_events. }
  assert (runs_first
    (checkout_or_fetch H r subdir sha
     ≫= (fun _ => update_retriever r (set_git_commit_sha (Some sha))
     ≫= (fun _ => checkout_commit H r subdir)))) as Hsha_first.
  { apply runs_first_checkout_or_fetch, Hcommit. }
  set (branch := match kw_branch kw with
                 | Some b => Some b
                 | None => git_branch self
                 end).
  destruct branch as [b|].
  - destruct (Str.truthy b).
    + apply runs_first_bind.
      * apply runs_first_checkout_or_fetch. intros _.
        apply preserves_bind; [exact _| |].
        -- apply preserves_update_retriever.
        -- intros _. apply preserves_checkout_commit, all_events.
      * intros _. apply preserves_bind; [exact _| |apply Htail].
        apply preserves_bind; [exact _| |apply Hcommit].
        apply preserves_checkout_or_fetch, all_events.
    + apply runs_first_silent.
      * intros s. eexists _, _. repeat split.
      * intros _. apply runs_first_bind; [apply Hsha_first|apply Htail].
  - apply runs_first_silent.
    + intros s. eexists _, _. repeat split.
    + intros _. apply runs_first_bind; [apply Hsha_first|apply Htail].
Qed.

(** C3, as the code has it: with no commit SHA among the keywords [get]
    raises DownloadFailure and runs nothing, whether or not a branch is
    given; with a commit SHA it goes past the check and its first action
    is a git command, the clone when the directory is absent. *)
Theorem git_get_pin_check (r : nat) (subdir : string) (kw : get_kw) (s : state W) :
  match kw_commit_sha kw with
  | None =>
      git_get H r subdir kw s =
        (Raise (DownloadFailure (git_url (retrievers s !! r)) subdir), s)
  | Some sha =>
      forall e, runner_env s = Some e -> runner_dry_run s = false ->
      exists cmd cwd t,
        trace (git_get H r subdir kw s).2 = trace s ++ ERun cmd cwd :: t /\
        (os_path_exists H (world s) subdir = false ->
         cwd = None /\
         cmd = expand_command H (the_env e s) (num_jobs s)
                 ["git"; "clone"; git_url (retrievers s !! r); subdir])
  end.
Proof.
  destruct (kw_commit_sha kw) as [sha|] eqn:Hsha.
  - intros e He Hd. unfold git_get. rewrite Hsha.
    unfold self_retriever. munfold. simpl.
    destruct (os_path_exists H (world s) subdir) eqn:Hex; simpl.
    + destruct (runs_first_get_specific r subdir kw sha Hsha s e He Hd)
        as (cmd & cwd & t & Ht).
      exists cmd, cwd, t. split; [exact Ht|congruence].
    + destruct (first_run ["git"; "clone"; git_url (retrievers s !! r); subdir] None
        (fun ok => (if negb ok
                    then raise (DownloadFailure (git_url (retrievers s !! r)) subdir)
                    else mret tt) ≫= (fun _ => _get_specific H r subdir kw)) s e He Hd)
        as [t Ht].
      { intros b. apply preserves_bind; [exact _| |].
        - destruct b; simpl; [apply preserves_ret|apply preserves_raise]; exact _.
        - intros _. apply preserves_get_specific, all_events. }
      exists (expand_command H (the_env e s) (num_jobs s)
                ["git"; "clone"; git_url (retrievers s !! r); subdir]), None, t.
      split; [|split; reflexivity].
      rewrite <- Ht. unfold mbind, M_bind.
      destruct (run_commands H _ None None s) as [[[]|?|] s2]; simpl; reflexivity.
  - unfold git_get. rewrite Hsha. reflexivity.
Qed.

(** The first thing [run_commands] does with a list of commands, when
    the program of the first cannot be started. *)
Lemma run_commands_cannot_start command rest subdir env (s : state W) e :
  runner_env s = Some e ->
  runner_dry_run s = false ->
  let cmd := expand_command H (the_env e s) (num_jobs s) command in
  subprocess_call H (world s) cmd subdir (ENV (the_env (default e env) s)) = None ->
  run_commands H (command :: rest) subdir env s =
    (Raise (spawn_error cmd), set_trace (trace s ++ [ERun cmd subdir]) s).
Proof.
  intros He Hd cmd Hcall. unfold run_commands. rewrite bind_gets, He.
  apply bind_raise. cbn [for_return]. apply bind_raise.
  rewrite bind_gets. change (id s) with s. rewrite Hd. fold cmd. rewrite Hcall.
  reflexivity.
Qed.

(** C7, where the code leaves the claim: [download] hands [run_commands]
    the words of the curl command where a list of commands is expected,
    so the program asked of [subprocess.call] first is c, with the
    arguments u, r and l.  On a machine where that program cannot be
    started the call raises, and [download] ends with that exception at
    its first attempt: nothing is reported, there is no sleep and no
    second attempt, and neither True nor False is returned. *)
Theorem download_cannot_start_curl (url md5 basename : string) (s : state W) (e : nat) :
  runner_env s = Some e ->
  runner_dry_run s = false ->
  let cmd := expand_command H (the_env e s) (num_jobs s) ["c"; "u"; "r"; "l"] in
  subprocess_call H (world s) cmd None (ENV (the_env e s)) = None ->
  download H url md5 basename s =
    (Raise (spawn_error cmd), set_trace (trace s ++ [ERun cmd None]) s).
Proof.
  intros He Hd cmd Hcall. unfold download. cbn [seq Nat.add download_loop].
  apply bind_raise.
  exact (run_commands_cannot_start ["c"; "u"; "r"; "l"] _ None None s e He Hd Hcall).
Qed.

End Retrievers.

(** C7 at work: a machine that has curl and git, and no program c. *)
Lemma download_cannot_start_curl_witness :
  download (with_programs ["curl"; "git"] build_host)
    "https://example.org/pkg-1.0.tar.gz" test_digest "pkg-1.0.tar.gz" (test_state [])
  = (Raise (IOError "subprocess.call" "c"),
     set_trace [ERun ["c"; "u"; "r"; "l"] None] (test_state [])).
Proof.
  exact (download_cannot_start_curl (with_programs ["curl"; "git"] build_host)
           "https://example.org/pkg-1.0.tar.gz" test_digest "pkg-1.0.tar.gz"
           (test_state []) 0 eq_refl eq_refl eq_refl).
Defined.

(** With a program c that can be started and fails, the four attempts
    are made, none of them with curl. *)
Example download_never_runs_curl :
  let r := download offline_host "https://example.org/pkg-1.0.tar.gz" test_digest
             "pkg-1.0.tar.gz" (test_state []) in
  r.1 = Ok false /\
  trace r.2 =
    [ERun ["c"; "u"; "r"; "l"] None; ETryFailed 1 "Download command failed"; ESleep 1;
     ERun ["c"; "u"; "r"; "l"] None; ETryFailed 2 "Download command failed"; ESleep 2;
     ERun ["c"; "u"; "r"; "l"] None; ETryFailed 3 "Download command failed"; ESleep 4;
     ERun ["c"; "u"; "r"; "l"] None; ETryFailed 4 "Download command failed"].
Proof. vm_compute. split; reflexivity. Qed.

(** C3 at work: a commit SHA is given, the directory is absent. *)
Lemma git_get_pin_check_witness :
  exists cmd cwd t,
    trace (git_get build_host 0 "/build/external/foo"
             (mkGetKw (Some "abc123") None (Some [])) git_state).2
    = trace git_state ++ ERun cmd cwd :: t /\
    (os_path_exists build_host (world git_state) "/build/external/foo" = false ->
     cwd = None /\
     cmd = expand_command build_host (the_env 0 git_state) (num_jobs git_state)
             ["git"; "clone"; git_url (retrievers git_state !! 0); "/build/external/foo"]).
Proof.
  exact (git_get_pin_check build_host 0 "/build/external/foo"
           (mkGetKw (Some "abc123") None (Some [])) git_state 0 eq_refl eq_refl).
Defined.

(** C3 as stated fails: a branch is given and no commit SHA, and [get]
    still raises DownloadFailure before any command. *)
Lemma branch_alone_is_refused :
  let kw := mkGetKw None (Some "main") (Some []) in
  (kw_commit_sha kw <> None \/ kw_branch kw <> None) /\
  git_get build_host 0 "/build/external/foo" kw git_state =
    (Raise (DownloadFailure "https://example.org/foo.git" "/build/external/foo"),
     git_state).
Proof.
  split; [right; discriminate|reflexivity].
Qed.

(** C2 at the failing input: the archive's one member resolves to
    /home/build_cache/evil, outside the working directory /home/build,
    yet the check lets it through and the archive is extracted. *)
Example web_get_extracts_outside :
  let member := "../build_cache/evil" in
  let r := web_get build_host "https://example.org/pkg-1.0.tar.gz" test_digest false
             "/build/external/pkg" archive_state in
  Path.abspath "/home/build" (Path.join "." member) = "/home/build_cache/evil" /\
  path_inside (Path.abspath "/home/build" ".") "/home/build_cache/evil" = false /\
  is_within_directory "/home/build" "." (Path.join "." member) = true /\
  r.1 = Ok tt /\
  trace r.2 = [EExtractAll "pkg-1.0.tar.gz" ".";
               ERename "../build_cache/evil" "/build/external/pkg"] /\
  In "/home/build_cache/evil" (world r.2).
Proof. vm_compute. repeat split; auto. Qed.

(** * The target checks of a component *)

(** ** The dry run during the checks *)
Section DryRun.

Context {W : Type} (H : host W).
Variable c : component W.

Lemma restores_none : restores c (mret None : M W (option bool)).
Proof. intros s. exists None, s. split; reflexivity. Qed.

Lemma restores_failed : restores c (checks_failed c).
Proof.
  intros s. unfold checks_failed. destruct (c_check_only c) eqn:Hc.
  - eexists (Some true), _. split; [reflexivity|]. reflexivity.
  - exists (Some true), s. split; [reflexivity|]. reflexivity.
Qed.

Lemma restores_after {A} (m : M W A) (k : A -> M W (option bool)) :
  keeps_dry_run m -> (forall a, restores c (k a)) -> restores c (m ≫= k).
Proof.
  intros Hm Hk s. destruct (Hm s) as (a & s1 & Hr & Hn).
  destruct (Hk a s1) as (r & s2 & Hr2 & Hres). exists r, s2.
  rewrite (bind_ok _ _ _ _ _ Hr). split; [exact Hr2|].
  destruct r; congruence.
Qed.

Lemma restores_or_else (m1 m2 : M W (option bool)) :
  restores c m1 -> restores c m2 -> restores c (or_else m1 m2).
Proof.
  intros H1 H2 s. unfold or_else. destruct (H1 s) as (r & s1 & Hr & Hres).
  rewrite (bind_ok _ _ _ _ _ Hr). destruct r as [v|].
  - exists (Some v), s1. split; [reflexivity|exact Hres].
  - destruct (H2 s1) as (r & s2 & Hr2 & Hres2). exists r, s2. split; [exact Hr2|].
    destruct r; congruence.
Qed.

Lemma restores_for_return {A} (l : list A) (body : A -> M W (option bool)) :
  (forall x, restores c (body x)) -> restores c (for_return l body).
Proof.
  intros Hb. induction l as [|x l IH]; [apply restores_none|].
  intros s. cbn [for_return]. destruct (Hb x s) as (r & s1 & Hr & Hres).
  rewrite (bind_ok _ _ _ _ _ Hr). destruct r as [v|].
  - exists (Some v), s1. split; [reflexivity|exact Hres].
  - destruct (IH s1) as (r & s2 & Hr2 & Hres2). exists r, s2. split; [exact Hr2|].
    destruct r; congruence.
Qed.

Lemma keeps_dry_run_probe p cenv check : keeps_dry_run (run_probe p cenv check : M W bool).
Proof.
  intros s. unfold run_probe. rewrite bind_gets. change (id s) with s.
  destruct (check (world s) (the_env cenv s)) as [result e'].
  eexists _, _. split; reflexivity.
Qed.

Lemma keeps_dry_run_update_env i f : keeps_dry_run (update_env i f : M W unit).
Proof. intros s. eexists _, _. split; reflexivity. Qed.

Lemma keeps_dry_run_gets {A} (f : state W -> A) : keeps_dry_run (gets f).
Proof. intros s. eexists _, _. split; reflexivity. Qed.

Lemma keeps_dry_run_bind {A B} (m : M W A) (k : A -> M W B) :
  keeps_dry_run m -> (forall a, keeps_dry_run (k a)) -> keeps_dry_run (m ≫= k).
Proof.
  intros Hm Hk s. destruct (Hm s) as (a & s1 & Hr & Hn).
  destruct (Hk a s1) as (b & s2 & Hr2 & Hn2). exists b, s2.
  rewrite (bind_ok _ _ _ _ _ Hr). split; [exact Hr2|congruence].
Qed.

Lemma restores_probe p cenv check :
  restores c (ok ← run_probe p cenv check;
              if negb ok then checks_failed c else mret None).
Proof.
  apply restores_after; [apply keeps_dry_run_probe|].
  intros ok. destruct ok; [apply restores_none|apply restores_failed].
Qed.

Lemma restores_check_functions fs cenv : restores c (check_functions H c fs cenv).
Proof.
  revert cenv. induction fs as [|[lib fns] rest IH]; intros cenv; simpl.
  - apply restores_none.
  - apply restores_after.
    { intros s. eexists _, _. split; reflexivity. }
    intros saved. apply restores_after; [apply keeps_dry_run_update_env|]. intros _.
    apply restores_or_else; [|apply IH].
    apply restores_for_return. intros f. apply restores_probe.
Qed.

(** The five phases of [has_missing_targets] leave the dry-run setting
    as it was when all checks pass, and switched on by a check-only
    component when one fails. *)
Lemma restores_checks (env : nat) (m : M W (option bool)) :
  m = or_else
        match config_cb c with
        | Some cb =>
            ok ← run_probe PConfigCb env cb;
            if negb ok then checks_failed c else mret None
        | None => mret None
        end
        (or_else
           (for_return (progs c) (fun prog =>
              ok ← run_probe (PProg prog) env (pure_check (CheckProg H) prog);
              if negb ok then checks_failed c else mret None))
           (or_else
              (for_return (headers c) (fun header =>
                 ok ← run_probe (PHeader header) env (pure_check (CheckHeader H) header);
                 if negb ok then checks_failed c else mret None))
              (or_else
                 (for_return (libs c) (fun lib =>
                    old_cc ← gets (fun s => subst H (the_env env s) "$CC");
                    match libs_cc c with
                    | Some cc =>
                        if Str.truthy cc then
                          update_env env
                            (Replace (Str.upper (name c) +:+ "_PREFIX") (component_prefix c));;
                          update_env env (Replace "CC" (Some cc))
                        else mret tt
                    | None => mret tt
                    end;;
                    result ← run_probe (PLib lib) env (fun w e => CheckLib H w e lib);
                    update_env env (Replace "CC" (Some old_cc));;
                    if negb result then checks_failed c else mret None))
                 (check_functions H c (functions c) env)))) ->
  restores c m.
Proof.
  intros ->.
  apply restores_or_else.
  { destruct (config_cb c); [apply restores_probe|apply restores_none]. }
  apply restores_or_else.
  { apply restores_for_return. intros p. apply restores_probe. }
  apply restores_or_else.
  { apply restores_for_return. intros p. apply restores_probe. }
  apply restores_or_else; [|apply restores_check_functions].
  apply restores_for_return. intros lib.
  apply restores_after; [apply keeps_dry_run_gets|]. intros old_cc.
  apply restores_after.
  { destruct (libs_cc c) as [cc|]; [|intros s0; eexists _, _; split; reflexivity].
    destruct (Str.truthy cc); [|intros s0; eexists _, _; split; reflexivity].
    apply keeps_dry_run_bind; [apply keeps_dry_run_update_env|].
    intros _. apply keeps_dry_run_update_env. }
  intros _. apply restores_after; [apply keeps_dry_run_probe|]. intros result.
  apply restores_after; [apply keeps_dry_run_update_env|]. intros _.
  destruct result; [apply restores_none|apply restores_failed].
Qed.

End DryRun.

Section Targets.

Context {W : Type} (H : host W).

#[local] Instance still_preorder : PreOrder (@still W).
Proof.
  split.
  - intros s. repeat split; reflexivity.
  - intros s1 s2 s3 (D1 & T1 & C1 & W1) (D2 & T2 & C2 & W2). repeat split; congruence.
Qed.

Definition anywhere (s : state W) : Prop := True.

Ltac still_now := intros ? _; split; [repeat split; reflexivity|exact I].

Ltac quiet :=
  repeat first
    [ yields_step
    | apply yields_modify; still_now ].

Lemma still_update_env i f : yields anywhere still (update_env i f : M W unit).
Proof. unfold update_env. quiet. Qed.

Lemma still_SetOption b : yields anywhere still (SetOption_no_exec b : M W unit).
Proof. unfold SetOption_no_exec. quiet. Qed.

Lemma still_Clone i : yields anywhere still (Clone i : M W nat).
Proof. intros s _. eexists _, _. split; [reflexivity|]. repeat split. Qed.

Lemma verdict_of_check (c : component W) (b : bool) :
  verdict b (if negb b then checks_failed c else mret None).
Proof.
  intros s. destruct b; simpl.
  - exists s. split; [reflexivity|]. reflexivity.
  - unfold checks_failed, when, SetOption_no_exec. munfold.
    destruct (c_check_only c); simpl; eexists; (split; [reflexivity|]);
      repeat split; reflexivity.
Qed.

Lemma verdict_after {A} (b : bool) (m : M W A) (k : A -> M W (option bool)) :
  yields anywhere still m -> (forall a, verdict b (k a)) -> verdict b (m ≫= k).
Proof.
  intros Hm Hk s. destruct (Hm s I) as (a & s1 & Hr & Hs1 & _).
  destruct (Hk a s1) as (s2 & Hr2 & Hs2).
  exists s2. unfold mbind, M_bind. rewrite Hr, Hr2. split; [reflexivity|].
  etransitivity; eauto.
Qed.

Lemma passed_app ps qs : passed (ps ++ qs) = passed ps ++ passed qs.
Proof. apply map_app. Qed.

Lemma logged_app l1 l2 : logged (l1 ++ l2) = logged l1 ++ logged l2.
Proof. apply map_app. Qed.

(** One check, and what the phase makes of its result. *)
Lemma phase_probe (p : probe) (cenv : nat) check (k : bool -> M W (option bool)) :
  (forall b, verdict b (k b)) -> phase (run_probe p cenv check ≫= k) [p].
Proof.
  intros Hk s. unfold run_probe. munfold. simpl.
  destruct (check (world s) (the_env cenv s)) as [result e'] eqn:Hc. simpl.
  match goal with |- context [k result ?s1] =>
    destruct (Hk result s1) as (s2 & Hr & Hd & Ht & _) end.
  exists (if result then None else Some true), s2, [(p, result)].
  rewrite Hr. split; [reflexivity|]. split; [rewrite Hd; reflexivity|].
  split; [rewrite Ht; reflexivity|].
  destruct result; [reflexivity|]. split; [reflexivity|].
  exists 0, p. split; reflexivity.
Qed.

Lemma phase_after {A} (m : M W A) (k : A -> M W (option bool)) ps :
  yields anywhere still m -> (forall a, phase (k a) ps) -> phase (m ≫= k) ps.
Proof.
  intros Hm Hk s. destruct (Hm s I) as (a & s1 & Hr & (Hd & Ht & _) & _).
  destruct (Hk a s1) as (r & s2 & results & Hr2 & Hd2 & Ht2 & Hres).
  exists r, s2, results. unfold mbind, M_bind. rewrite Hr, Hr2.
  repeat split; auto; congruence.
Qed.

Lemma phase_nothing : phase (mret None : M W (option bool)) [].
Proof.
  intros s. exists None, s, []. simpl. rewrite app_nil_r. auto.
Qed.

Lemma checked_until_failure_l ps qs results :
  checked_until_failure ps results -> checked_until_failure (ps ++ qs) results.
Proof.
  intros (k & p & Hk & Hres). exists k, p.
  pose proof (lookup_lt_Some _ _ _ Hk) as Hlt. split.
  - rewrite lookup_app_l; auto.
  - rewrite take_app_le by lia. exact Hres.
Qed.

Lemma checked_until_failure_r ps qs results :
  checked_until_failure qs results ->
  checked_until_failure (ps ++ qs) (passed ps ++ results).
Proof.
  intros (k & p & Hk & Hres). exists (length ps + k), p. split.
  - rewrite lookup_app_r by lia. replace (length ps + k - length ps) with k by lia.
    exact Hk.
  - rewrite take_app_ge by lia. replace (length ps + k - length ps) with k by lia.
    rewrite passed_app, Hres, app_assoc. reflexivity.
Qed.

(** Two phases in a row are the phase of their checks in a row. *)
Lemma phase_or_else (m1 m2 : M W (option bool)) ps qs :
  phase m1 ps -> phase m2 qs -> phase (or_else m1 m2) (ps ++ qs).
Proof.
  intros H1 H2 s. destruct (H1 s) as (r1 & s1 & res1 & Hr1 & Hd1 & Ht1 & Hres1).
  unfold or_else, mbind, M_bind. rewrite Hr1. destruct r1 as [b|].
  - destruct Hres1 as [-> Hc]. exists (Some true), s1, res1. simpl.
    repeat split; auto. apply checked_until_failure_l, Hc.
  - destruct (H2 s1) as (r2 & s2 & res2 & Hr2 & Hd2 & Ht2 & Hres2).
    exists r2, s2, (res1 ++ res2). rewrite Hr2. split; [reflexivity|].
    split; [congruence|]. split.
    + rewrite Ht2, Ht1, logged_app, app_assoc. reflexivity.
    + subst res1. destruct r2 as [b|].
      * destruct Hres2 as [-> Hc]. split; [reflexivity|].
        apply checked_until_failure_r, Hc.
      * rewrite Hres2, passed_app. reflexivity.
Qed.

(** A loop of checks is the phase of the checks of its elements. *)
Lemma phase_for_return {A} (l : list A) (body : A -> M W (option bool)) (g : A -> probe) :
  (forall x, phase (body x) [g x]) -> phase (for_return l body) (map g l).
Proof.
  intros Hb. induction l as [|x l IH]; simpl.
  - apply phase_nothing.
  - change (g x :: map g l) with ([g x] ++ map g l).
    apply (phase_or_else (body x) (for_return l body) [g x] (map g l)); auto.
Qed.

Lemma phase_check_functions (c : component W) fs :
  forall cenv,
  phase (check_functions H c fs cenv)
    (flat_map (fun lf : string * list string => map PFunc lf.2) fs).
Proof.
  induction fs as [|[lib fns] rest IH]; intros cenv; simpl.
  - apply phase_nothing.
  - apply phase_after; [apply still_Clone|]. intros saved.
    apply phase_after; [apply still_update_env|]. intros _.
    apply phase_or_else; [|apply IH].
    apply phase_for_return. intros function.
    apply phase_probe. intros b. apply verdict_of_check.
Qed.

(** The five phases of [has_missing_targets] are the checks of the
    component, in order. *)
Lemma phase_checks (c : component W) (env : nat) :
  phase
    (or_else
       match config_cb c with
       | Some cb =>
           ok ← run_probe PConfigCb env cb;
           if negb ok then checks_failed c else mret None
       | None => mret None
       end
       (or_else
          (for_return (progs c) (fun prog =>
             ok ← run_probe (PProg prog) env (pure_check (CheckProg H) prog);
             if negb ok then checks_failed c else mret None))
          (or_else
             (for_return (headers c) (fun header =>
                ok ← run_probe (PHeader header) env (pure_check (CheckHeader H) header);
                if negb ok then checks_failed c else mret None))
             (or_else
                (for_return (libs c) (fun lib =>
                   old_cc ← gets (fun s => subst H (the_env env s) "$CC");
                   match libs_cc c with
                   | Some cc =>
                       if Str.truthy cc then
                         update_env env
                           (Replace (Str.upper (name c) +:+ "_PREFIX") (component_prefix c));;
                         update_env env (Replace "CC" (Some cc))
                       else mret tt
                   | None => mret tt
                   end;;
                   result ← run_probe (PLib lib) env (fun w e => CheckLib H w e lib);
                   update_env env (Replace "CC" (Some old_cc));;
                   if negb result then checks_failed c else mret None))
                (check_functions H c (functions c) env)))))
    (all_probes c).
Proof.
  unfold all_probes.
  apply phase_or_else.
  { destruct (config_cb c) as [cb|]; [|apply phase_nothing].
    apply phase_probe. intros b. apply verdict_of_check. }
  apply phase_or_else.
  { apply phase_for_return. intros prog. apply phase_probe. intros b.
    apply verdict_of_check. }
  apply phase_or_else.
  { apply phase_for_return. intros header. apply phase_probe. intros b.
    apply verdict_of_check. }
  apply phase_or_else; [|apply phase_check_functions].
  apply phase_for_return. intros lib.
  apply phase_after; [quiet|]. intros old_cc.
  apply phase_after.
  { destruct (libs_cc c) as [cc|]; [destruct (Str.truthy cc)|]; quiet;
      apply still_update_env. }
  intros _. apply phase_probe. intros b.
  apply verdict_after; [apply still_update_env|]. intros _. apply verdict_of_check.
Qed.

Lemma still_frame {A} (m : M W A) :
  yields anywhere still m -> forall s, exists a s', m s = (Ok a, s') /\ still s s'.
Proof. intros Hm s. destruct (Hm s I) as (a & s' & Hr & Hs & _). eauto. Qed.

(** What [parse_config] does to the registry: it returns, and logs the
    pkg-config call if it makes one. *)
Lemma parse_config_run (c : component W) (env : nat) (opts : string) (s : state W) :
  exists s',
    parse_config H c env opts s = (Ok tt, s') /\
    defined s' = defined s /\ consts s' = consts s /\ world s' = world s /\
    opt_no_exec s' = opt_no_exec s /\
    (trace s' = trace s \/
     exists pkg, pkgconfig c = Some pkg /\
       trace s' = trace s ++ [EParseConfig ("pkg-config " +:+ opts +:+ " " +:+ pkg)]).
Proof.
  unfold parse_config. destruct (pkgconfig c) as [pkg|]; [|exists s; auto 10].
  assert (forall {A} (m : M W A) (k : A -> M W unit),
    yields (fun s => True) (fun s s' => still s s' /\ opt_no_exec s' = opt_no_exec s) m ->
    (forall a s, exists s',
       k a s = (Ok tt, s') /\
       defined s' = defined s /\ consts s' = consts s /\ world s' = world s /\
       opt_no_exec s' = opt_no_exec s /\
       (trace s' = trace s \/
        exists pkg0, Some pkg = Some pkg0 /\
          trace s' = trace s ++ [EParseConfig ("pkg-config " +:+ opts +:+ " " +:+ pkg0)])) ->
    forall s, exists s',
       (m ≫= k) s = (Ok tt, s') /\
       defined s' = defined s /\ consts s' = consts s /\ world s' = world s /\
       opt_no_exec s' = opt_no_exec s /\
       (trace s' = trace s \/
        exists pkg0, Some pkg = Some pkg0 /\
          trace s' = trace s ++ [EParseConfig ("pkg-config " +:+ opts +:+ " " +:+ pkg0)]))
    as Hseq.
  { intros A m k Hm Hk s0.
    destruct (Hm s0 I) as (a & s1 & Hr & ((Hd & Ht & Hc & Hw) & Hn) & _).
    destruct (Hk a s1) as (s2 & Hr2 & Hd2 & Hc2 & Hw2 & Hn2 & Ht2).
    exists s2. unfold mbind, M_bind. rewrite Hr, Hr2.
    repeat split; try congruence.
    destruct Ht2 as [Ht2|(pkg0 & Hp & Ht2)]; [left|right; exists pkg0; split; auto];
      congruence. }
  assert (PreOrder (fun s s' : state W => still s s' /\ opt_no_exec s' = opt_no_exec s))
    as Hpre.
  { split.
    - intros x. split; reflexivity.
    - intros x y z [S1 N1] [S2 N2]. split; [etransitivity; eauto|congruence]. }
  assert (forall i f, yields (fun s : state W => True)
            (fun s s' => still s s' /\ opt_no_exec s' = opt_no_exec s)
            (update_env i f)) as Hupd.
  { intros i f s0 _. eexists tt, _. split; [reflexivity|]. repeat split. }
  apply Hseq; [apply yields_gets; exact Hpre|]. intros path.
  apply Hseq; [apply yields_gets; exact Hpre|]. intros e.
  apply Hseq.
  { destruct (truthy_opt path && bool_decide (ENV e !! "PKG_CONFIG_PATH" = None));
      [apply Hupd|apply yields_ret; exact Hpre]. }
  intros _. apply Hseq.
  { destruct (component_prefix c) as [cp|]; [|apply yields_ret; exact Hpre].
    destruct (negb (use_installed c) && negb (String.eqb cp "/usr"));
      [|apply yields_ret; exact Hpre].
    apply yields_for_fold; [exact Hpre|]. intros x acc.
    apply yields_bind; [exact Hpre|apply yields_gets; exact Hpre|]. intros ex.
    destruct (negb ex); [apply yields_ret; exact Hpre|].
    apply yields_bind; [exact Hpre|apply Hupd|]. intros _.
    apply yields_ret; exact Hpre. }
  intros go s0. destruct (negb go); [exists s0; auto 10|].
  munfold. simpl.
  destruct (pkg_config H (world s0) (ENV (the_env env s0)) _) as [fl|]; simpl;
    eexists; (split; [reflexivity|]); repeat split; right; exists pkg; split; reflexivity.
Qed.

(** What a call of [has_missing_targets] comes to, case by case. *)
Lemma has_missing_targets_run (n : string) (env : nat) (s : state W) :
  let c := default no_component (defined s !! n) in
  if targets_found c then has_missing_targets H n env s = (Ok false, s)
  else
    exists missing s' parse results,
      has_missing_targets H n env s = (Ok missing, s') /\
      trace s' = trace s ++ parse ++ logged results /\
      (parse = [] \/
       exists pkg, pkgconfig c = Some pkg /\
         parse = [EParseConfig ("pkg-config --cflags " +:+ pkg)]) /\
      consts s' = consts s /\
      opt_no_exec s' = (if makes_checks c s then c_check_only c
                        else negb (c_check_only c) && opt_no_exec s) /\
      if negb (makes_checks c s)
      then missing = true /\ results = [] /\ defined s' = defined s
      else if missing
        then checked_until_failure (all_probes c) results /\ defined s' = defined s
        else results = passed (all_probes c) /\
             defined s' = alter (set_targets_found true) n (defined s).
Proof.
  intros c.
  assert (forall r s', has_missing_targets H n env s = (r, s') -> consts s' = consts s)
    as Hconsts.
  { intros r s' Hr.
    pose proof (preserves_has_missing_targets H any_event (fun _ _ => I) n env s) as Hf.
    rewrite Hr in Hf. apply Hf. }
  destruct (targets_found c) eqn:Hfound.
  { unfold has_missing_targets, self. rewrite bind_gets. fold c. rewrite Hfound.
    reflexivity. }
  enough (exists missing s' parse results,
      has_missing_targets H n env s = (Ok missing, s') /\
      trace s' = trace s ++ parse ++ logged results /\
      (parse = [] \/
       exists pkg, pkgconfig c = Some pkg /\
         parse = [EParseConfig ("pkg-config --cflags " +:+ pkg)]) /\
      opt_no_exec s' = (if makes_checks c s then c_check_only c
                        else negb (c_check_only c) && opt_no_exec s) /\
      if negb (makes_checks c s)
      then missing = true /\ results = [] /\ defined s' = defined s
      else if missing
        then checked_until_failure (all_probes c) results /\ defined s' = defined s
        else results = passed (all_probes c) /\
             defined s' = alter (set_targets_found true) n (defined s))
    as (missing & s' & parse & results & Hr & Ht & Hp & Hn & Hcase).
  { exists missing, s', parse, results. repeat split; auto. eapply Hconsts, Hr. }
  unfold has_missing_targets, self. rewrite bind_gets. fold c. rewrite Hfound.
  set (s1 := if c_check_only c then set_no_exec false s else s).
  assert (when (c_check_only c) (SetOption_no_exec false) s = (Ok tt, s1)) as Hs1.
  { unfold s1. destruct (c_check_only c); reflexivity. }
  assert (defined s1 = defined s /\ trace s1 = trace s /\ consts s1 = consts s /\
          opt_no_exec s1 = (negb (c_check_only c) && opt_no_exec s))
    as (Hd1 & Ht1 & Hc1 & Hn1).
  { unfold s1. destruct (c_check_only c); simpl; auto. }
  assert (cmd_no_exec s1 = cmd_no_exec s /\ opt_help s1 = opt_help s) as [Hcmd1 Hh1].
  { unfold s1. destruct (c_check_only c); simpl; auto. }
  rewrite (bind_ok _ _ _ _ _ Hs1). unfold GetOption_no_exec. rewrite bind_gets.
  unfold no_exec. rewrite Hcmd1, Hn1. unfold makes_checks.
  destruct (cmd_no_exec s || negb (c_check_only c) && opt_no_exec s) eqn:Hdry; simpl.
  { exists true, s1, [], []. rewrite Ht1. simpl. rewrite app_nil_r. auto 10. }
  destruct (parse_config_run c env "--cflags" s1) as (s2 & Hs2 & Hd2 & Hc2 & Hw2 & Hn2 & Ht2).
  assert (opt_help s2 = opt_help s) as Hh2.
  { rewrite <- Hh1. unfold consts in Hc2. congruence. }
  assert (exists parse, trace s2 = trace s ++ parse /\
            (parse = [] \/
             exists pkg, pkgconfig c = Some pkg /\
               parse = [EParseConfig ("pkg-config --cflags " +:+ pkg)]))
    as (parse & Htp & Hparse).
  { destruct Ht2 as [Ht2|(pkg & Hp & Ht2)].
    - exists []. rewrite app_nil_r. split; [congruence|auto].
    - eexists. split; [rewrite Ht2, Ht1; reflexivity|]. right. exists pkg. auto. }
  rewrite (bind_ok _ _ _ _ _ Hs2), bind_gets, Hh2.
  destruct (opt_help s) eqn:Hhelp; simpl.
  { exists true, s2, parse, []. simpl. rewrite app_nil_r.
    repeat split; auto; congruence. }
  apply orb_false_iff in Hdry as [_ Hsetting].
  destruct (phase_checks c env s2) as (r & s3 & results & Hs3 & Hd3 & Ht3 & Hres).
  destruct (restores_checks H c env _ eq_refl s2) as (r' & s3' & Hs3' & Hn3).
  rewrite Hs3 in Hs3'. injection Hs3' as <- <-.
  rewrite (bind_ok _ _ _ _ _ Hs3).
  destruct r as [b|].
  - destruct Hres as [-> Hc]. exists true, s3, parse, results.
    split; [reflexivity|]. split; [rewrite Ht3, Htp, <- app_assoc; reflexivity|].
    split; [exact Hparse|]. split; [|split; [exact Hc|congruence]].
    rewrite Hn3, Hn2, Hn1, Hsetting. apply orb_false_r.
  - unfold update_self. rewrite bind_modify.
    assert (c_check_only c = false -> opt_no_exec s3 = false) as Hoff.
    { intros Hco. rewrite Hn3, Hn2, Hn1, Hsetting. reflexivity. }
    destruct (c_check_only c) eqn:Hco; simpl;
      (eexists false, _, parse, results; split; [reflexivity|]; simpl;
       split; [rewrite Ht3, Htp, <- app_assoc; reflexivity|];
       split; [exact Hparse|]; split; [auto|];
       split; [exact Hres|congruence]).
Qed.

Lemma probe_log_logged results : probe_log (logged results) = results.
Proof.
  induction results as [|[p r] l IH]; simpl; [reflexivity|].
  unfold probe_log in *. simpl. rewrite IH. reflexivity.
Qed.

Lemma probe_log_parse parse results (c : component W) :
  (parse = [] \/
   exists pkg, pkgconfig c = Some pkg /\
     parse = [EParseConfig ("pkg-config --cflags " +:+ pkg)]) ->
  probe_log (parse ++ logged results) = results.
Proof.
  intros [->|(pkg & _ & ->)]; simpl; apply probe_log_logged.
Qed.

Lemma found_lookup (s : state W) n c :
  defined s !! n = Some c -> found s n <-> targets_found c = true.
Proof.
  intros Hc. unfold found. split.
  - intros (c' & Hc' & Ht). congruence.
  - intros Ht. eauto.
Qed.

(** ** The checks of the log are those the machine answered *)

#[local] Instance honest_preorder (c : component W) : PreOrder (honest H c).
Proof.
  split.
  - intros s. exists []. rewrite app_nil_r. split; [reflexivity|constructor].
  - intros s1 s2 s3 (t1 & H1 & F1) (t2 & H2 & F2). exists (t1 ++ t2).
    split; [rewrite H2, H1, app_assoc; reflexivity|].
    unfold probe_log in *. rewrite omap_app. apply Forall_app. auto.
Qed.

Lemma honest_quiet (c : component W) (s s' : state W) :
  trace s' = trace s -> honest H c s s'.
Proof. intros Ht. exists []. rewrite app_nil_r. split; [exact Ht|constructor]. Qed.

Lemma honest_run_probe (c : component W) p cenv check :
  (forall w e, (check w e).1 = check_of H c p w e) ->
  preserves (honest H c) (run_probe p cenv check).
Proof.
  intros Hcheck s. unfold run_probe. rewrite bind_gets. change (id s) with s.
  specialize (Hcheck (world s) (the_env cenv s)).
  destruct (check (world s) (the_env cenv s)) as [result e']. simpl in Hcheck.
  exists [EProbe p result]. split; [reflexivity|].
  repeat constructor. exists (world s), (the_env cenv s). exact Hcheck.
Qed.

Ltac honest_walk :=
  repeat first
    [ solve [intros ?; apply honest_quiet; reflexivity]
    | solve [apply honest_run_probe; intros; reflexivity]
    | solve [intros ?; exists [EParseConfig _]; split; [reflexivity|constructor]]
    | pres_step ].

Lemma honest_parse_config (c c' : component W) env opts :
  preserves (honest H c) (parse_config H c' env opts).
Proof.
  unfold parse_config, log. honest_walk.
  all: intros s'; eexists [_]; split; [reflexivity|constructor].
Qed.

Lemma honest_checks_failed (c : component W) : preserves (honest H c) (checks_failed c).
Proof. unfold checks_failed, SetOption_no_exec. honest_walk. Qed.

Lemma honest_check_functions (c : component W) fs :
  forall cenv, preserves (honest H c) (check_functions H c fs cenv).
Proof.
  induction fs as [|[lib fns] rest IH]; intros cenv; simpl.
  - honest_walk.
  - repeat first
      [ apply IH
      | apply honest_checks_failed
      | solve [intros ?; apply honest_quiet; reflexivity]
      | solve [apply honest_run_probe; intros; reflexivity]
      | pres_step ].
Qed.

(** Every check [has_missing_targets] logs shows what the machine
    answered for it. *)
Lemma honest_has_missing_targets (n : string) (env : nat) (s : state W) :
  honest H (default no_component (defined s !! n)) s (has_missing_targets H n env s).2.
Proof.
  set (c := default no_component (defined s !! n)).
  unfold has_missing_targets, self. rewrite bind_gets. fold c.
  match goal with |- honest H c s (?m s).2 =>
    enough (preserves (honest H c) m) as Hp by apply Hp end.
  clearbody c. clear s.
  destruct (targets_found c); [honest_walk|].
  unfold GetOption_no_exec, SetOption_no_exec, update_self.
  destruct (config_cb c) as [cb|] eqn:Hcb.
  - repeat first
      [ apply honest_parse_config
      | apply honest_check_functions
      | apply honest_checks_failed
      | solve [intros ?; apply honest_quiet; reflexivity]
      | solve [apply honest_run_probe; intros; unfold check_of; rewrite ?Hcb; reflexivity]
      | pres_step ].
  - repeat first
      [ apply honest_parse_config
      | apply honest_check_functions
      | apply honest_checks_failed
      | solve [intros ?; apply honest_quiet; reflexivity]
      | solve [apply honest_run_probe; intros; reflexivity]
      | pres_step ].
Qed.

(** The guards of a call are those of the call before it. *)
Lemma makes_checks_after (c : component W) (s s' : state W) :
  consts s' = consts s ->
  opt_no_exec s' = (if makes_checks c s then c_check_only c
                    else negb (c_check_only c) && opt_no_exec s) ->
  makes_checks c s' = makes_checks c s.
Proof.
  intros Hc Hn.
  assert (cmd_no_exec s' = cmd_no_exec s /\ opt_help s' = opt_help s) as [Hcmd Hhelp].
  { unfold consts in Hc. split; congruence. }
  unfold makes_checks in *. rewrite Hcmd, Hhelp, Hn.
  destruct (cmd_no_exec s), (c_check_only c), (opt_no_exec s), (opt_help s); reflexivity.
Qed.

(** A call for a component not yet found. *)
Lemma not_found_run (n : string) (env : nat) (s : state W) (c : component W) :
  defined s !! n = Some c ->
  targets_found c = false ->
  exists missing s' t,
    has_missing_targets H n env s = (Ok missing, s') /\
    trace s' = trace s ++ t /\
    checks_logged H c s missing (probe_log t) /\
    makes_checks c s' = makes_checks c s /\
    (if missing then defined s' = defined s else found s' n).
Proof.
  intros Hc Hfound. pose proof (has_missing_targets_run n env s) as Hrun.
  pose proof (honest_has_missing_targets n env s) as (t & Hobs & Hhonest).
  simpl in Hrun. rewrite Hc in Hrun, Hhonest. simpl in Hrun, Hhonest.
  rewrite Hfound in Hrun.
  destruct Hrun as (missing & s' & parse & results & Hr & Ht & Hp & Hk & Hn & Hcase).
  rewrite Hr in Hobs. cbn [snd] in Hobs. rewrite Ht in Hobs.
  apply app_inv_head in Hobs. subst t.
  exists missing, s', (parse ++ logged results). split; [exact Hr|]. split; [exact Ht|].
  rewrite (probe_log_parse parse results c Hp) in *.
  split; [|split; [apply makes_checks_after; assumption|]].
  - split; [exact Hhonest|]. destruct (makes_checks c s); simpl in Hcase.
    + destruct missing; tauto.
    + tauto.
  - destruct (makes_checks c s); simpl in Hcase.
    + destruct missing; [tauto|]. destruct Hcase as [_ Hd].
      exists (set_targets_found true c). rewrite Hd, lookup_alter_eq, Hc. auto.
    + destruct Hcase as (-> & _ & Hd). exact Hd.
Qed.

(** Where the checks are made and the machine passes every check, the
    answer is "present". *)
Lemma all_pass_present (c : component W) (s : state W) missing results :
  checks_logged H c s missing results ->
  makes_checks c s = true ->
  (forall p w e, check_of H c p w e = true) ->
  missing = false.
Proof.
  intros [Hobs Hlog] Hguards Hpass. rewrite Hguards in Hlog.
  destruct missing; [|reflexivity].
  destruct Hlog as (k & p & _ & ->).
  apply Forall_app in Hobs as [_ Hobs]. apply Forall_inv in Hobs.
  destruct Hobs as (w & e & Hobs). simpl in Hobs. rewrite Hpass in Hobs.
  discriminate Hobs.
Qed.

(** C6: a component found has [has_missing_targets] answer "present" at
    once, the registry untouched and no check made.  For a component not
    yet found the call goes through its guards and makes the checks,
    each logged with what the machine answered: "present" is answered
    when every check of the component is in the log as passed (as it is
    when the machine passes every check), and then the component is
    found; "missing" is answered at the first check
    that fails (or at a guard, in a dry run and for the help text,
    without any check), it leaves the component not found, and the next
    call, for whatever environment, goes through the same guards and
    makes the checks again. *)
Theorem targets_found_cache (n : string) (env : nat) (s : state W) (c : component W) :
  defined s !! n = Some c ->
  exists missing s' t,
    has_missing_targets H n env s = (Ok missing, s') /\
    trace s' = trace s ++ t /\
    (found s n -> missing = false /\ s' = s) /\
    (~ found s n -> checks_logged H c s missing (probe_log t)) /\
    (~ found s n -> makes_checks c s = true ->
     (forall p w e, check_of H c p w e = true) -> missing = false) /\
    (missing = false -> found s' n) /\
    (missing = true ->
     ~ found s' n /\
     forall env', exists missing2 s2 t2,
       has_missing_targets H n env' s' = (Ok missing2, s2) /\
       trace s2 = trace s' ++ t2 /\
       checks_logged H c s missing2 (probe_log t2)).
Proof.
  intros Hc. pose proof (found_lookup s n c Hc) as Hf.
  destruct (targets_found c) eqn:Hfound.
  - pose proof (has_missing_targets_run n env s) as Hrun.
    simpl in Hrun. rewrite Hc in Hrun. simpl in Hrun. rewrite Hfound in Hrun.
    exists false, s, []. rewrite app_nil_r.
    split; [exact Hrun|]. split; [reflexivity|]. split; [auto|].
    split; [intros Hn; exfalso; apply Hn, Hf; reflexivity|].
    split; [reflexivity|].
    split; [intros _; apply Hf; reflexivity|discriminate].
  - destruct (not_found_run n env s c Hc Hfound)
      as (missing & s' & t & Hr & Ht & Hlog & Hsame & Hafter).
    exists missing, s', t. split; [exact Hr|]. split; [exact Ht|].
    split; [intros Hn; apply Hf in Hn; discriminate|].
    split; [intros _; exact Hlog|].
    split; [intros _; apply (all_pass_present c s _ _ Hlog)|].
    destruct missing.
    + split; [discriminate|]. intros _.
      assert (defined s' !! n = Some c) as Hc' by (rewrite Hafter; exact Hc).
      split.
      * intros (c' & Hc'' & Ht'). congruence.
      * intros env'.
        destruct (not_found_run n env' s' c Hc' Hfound)
          as (missing2 & s2 & t2 & Hr2 & Ht2 & Hlog2 & _ & _).
        exists missing2, s2, t2. split; [exact Hr2|]. split; [exact Ht2|].
        unfold checks_logged in *. rewrite Hsame in Hlog2. exact Hlog2.
    + split; [intros _; exact Hafter|discriminate].
Qed.




End Targets.

(** C6 at work: foo is not found yet and its program is not installed. *)
Lemma targets_found_cache_witness :
  exists missing s' t,
    has_missing_targets build_host "foo" 0 (foo_state []) = (Ok missing, s') /\
    trace s' = trace (foo_state []) ++ t /\
    (found (foo_state []) "foo" -> missing = false /\ s' = foo_state []) /\
    (~ found (foo_state []) "foo" ->
     checks_logged build_host foo_component (foo_state []) missing (probe_log t)) /\
    (~ found (foo_state []) "foo" -> makes_checks foo_component (foo_state []) = true ->
     (forall p w e, check_of build_host foo_component p w e = true) -> missing = false) /\
    (missing = false -> found s' "foo") /\
    (missing = true ->
     ~ found s' "foo" /\
     forall env', exists missing2 s2 t2,
       has_missing_targets build_host "foo" env' s' = (Ok missing2, s2) /\
       trace s2 = trace s' ++ t2 /\
       checks_logged build_host foo_component (foo_state []) missing2 (probe_log t2)).
Proof.
  exact (targets_found_cache build_host "foo" 0 (foo_state []) foo_component eq_refl).
Defined.


Example failing_program_stops_checks :
  let r := has_missing_targets build_host "foo" 0 (foo_state ["foo.h"; "foo"]) in
  r.1 = Ok true /\ trace r.2 = [EProbe (PProg "foo-config") false].
Proof. vm_compute. split; reflexivity. Qed.

Example all_checks_pass_in_order :
  let r := has_missing_targets build_host "foo" 0
             (foo_state ["foo-config"; "foo.h"; "foo"]) in
  r.1 = Ok false /\
  trace r.2 = [EProbe (PProg "foo-config") true; EProbe (PHeader "foo.h") true;
               EProbe (PLib "foo") true] /\
  has_missing_targets build_host "foo" 0 r.2 = (Ok false, r.2).
Proof. vm_compute. repeat split; reflexivity. Qed.

(** After a check that failed the next call checks again: the program of
    foo is missing both times, and both calls look for it. *)
Example missing_is_checked_again :
  let r1 := has_missing_targets build_host "foo" 0 (foo_state ["foo.h"; "foo"]) in
  let r2 := has_missing_targets build_host "foo" 0 r1.2 in
  r1.1 = Ok true /\ r2.1 = Ok true /\
  trace r2.2 = [EProbe (PProg "foo-config") false; EProbe (PProg "foo-config") false].
Proof. vm_compute. repeat split; reflexivity. Qed.

(** * The environment of a component *)

Section EnvAlgebra.

Lemma env_eta (e : Env) : mkEnv (cvars e) (svars e) (ENV e) = e.
Proof. destruct e; reflexivity. Qed.

Lemma append_unique_elem l x : x ∈ l -> append_unique l x = l.
Proof. intros Hx. unfold append_unique. rewrite bool_decide_eq_true_2; auto. Qed.

Lemma elem_append_unique l x y : y ∈ l -> y ∈ append_unique l x.
Proof.
  intros Hy. unfold append_unique. case_bool_decide; auto.
  apply elem_of_app; auto.
Qed.

Lemma elem_append_unique_new l x : x ∈ append_unique l x.
Proof.
  unfold append_unique. case_bool_decide; auto.
  apply elem_of_app. right. apply list_elem_of_singleton. reflexivity.
Qed.

Lemma elem_of_append_unique l x y : y ∈ append_unique l x <-> y ∈ l \/ y = x.
Proof.
  unfold append_unique. case_bool_decide as Hx.
  - split; [auto|]. intros [Hy| ->]; auto.
  - rewrite elem_of_app, list_elem_of_singleton. reflexivity.
Qed.

Lemma append_unique_NoDup l x : NoDup l -> NoDup (append_unique l x).
Proof.
  intros Hl. unfold append_unique. case_bool_decide; auto.
  apply NoDup_app. repeat split; auto.
  - intros y Hy Hy'. apply list_elem_of_singleton in Hy'. subst. contradiction.
  - apply NoDup_singleton.
Qed.

Lemma default_elem_lookup (m : gmap string (list string)) k x :
  x ∈ default [] (m !! k) -> m !! k = Some (default [] (m !! k)).
Proof. destruct (m !! k); simpl; auto. intros Hx. inversion Hx. Qed.

(** ** Keeping one occurrence of each value *)

Lemma fold_append_unique_elem l : forall acc x,
  x ∈ fold_left append_unique l acc <-> x ∈ acc \/ x ∈ l.
Proof.
  induction l as [|y l IH]; intros acc x; simpl.
  - split; [auto|]. intros [Hx|Hx]; [exact Hx|inversion Hx].
  - rewrite IH, elem_of_append_unique, elem_of_cons. tauto.
Qed.

Lemma fold_append_unique_NoDup l : forall acc,
  NoDup acc -> NoDup (fold_left append_unique l acc).
Proof.
  induction l as [|y l IH]; intros acc Hacc; simpl; [exact Hacc|].
  apply IH, append_unique_NoDup, Hacc.
Qed.

Lemma fold_append_unique_new l : forall acc,
  NoDup (acc ++ l) -> fold_left append_unique l acc = acc ++ l.
Proof.
  induction l as [|y l IH]; intros acc Hnd; simpl; [rewrite app_nil_r; reflexivity|].
  assert (y ∉ acc) as Hy.
  { apply NoDup_app in Hnd as (_ & Hdis & _). intros Hy. apply (Hdis y Hy). left. }
  unfold append_unique at 2. rewrite bool_decide_eq_false_2 by exact Hy.
  rewrite IH; rewrite <- app_assoc; [reflexivity|exact Hnd].
Qed.

Lemma fold_append_unique_old l : forall acc,
  (forall x, x ∈ l -> x ∈ acc) -> fold_left append_unique l acc = acc.
Proof.
  induction l as [|y l IH]; intros acc Hsub; simpl; [reflexivity|].
  rewrite append_unique_elem by (apply Hsub; left).
  apply IH. intros x Hx. apply Hsub. right. exact Hx.
Qed.

Lemma keep_leftmost_elem l x : x ∈ keep_leftmost l <-> x ∈ l.
Proof.
  unfold keep_leftmost. rewrite fold_append_unique_elem. split; [|auto].
  intros [Hx|Hx]; [inversion Hx|exact Hx].
Qed.

Lemma keep_leftmost_NoDup l : NoDup (keep_leftmost l).
Proof. apply fold_append_unique_NoDup, NoDup_nil_2. Qed.

(** Values that are there leave a list without repeats as it is. *)
Lemma keep_leftmost_again l v :
  NoDup l -> (forall x, x ∈ v -> x ∈ l) -> keep_leftmost (l ++ v) = l.
Proof.
  intros Hl Hv. unfold keep_leftmost. rewrite fold_left_app.
  rewrite (fold_append_unique_new l []) by exact Hl. simpl.
  apply fold_append_unique_old, Hv.
Qed.

Lemma keep_rightmost_cons x l :
  keep_rightmost (x :: l) =
    if bool_decide (x ∈ keep_rightmost l) then keep_rightmost l
    else x :: keep_rightmost l.
Proof. unfold keep_rightmost. simpl. rewrite fold_left_app. reflexivity. Qed.

Lemma keep_rightmost_elem l x : x ∈ keep_rightmost l <-> x ∈ l.
Proof.
  induction l as [|y l IH]; [reflexivity|].
  rewrite keep_rightmost_cons. case_bool_decide as Hy.
  - rewrite elem_of_cons, IH. split; [auto|]. intros [->|Hx]; [apply IH, Hy|exact Hx].
  - rewrite !elem_of_cons, IH. reflexivity.
Qed.

Lemma keep_rightmost_NoDup l : NoDup (keep_rightmost l).
Proof.
  induction l as [|y l IH]; [apply NoDup_nil_2|].
  rewrite keep_rightmost_cons. case_bool_decide as Hy; [exact IH|].
  apply NoDup_cons_2; assumption.
Qed.

(** Values that are there are moved, none is added or lost. *)
Lemma keep_rightmost_again l v :
  NoDup l -> (forall x, x ∈ v -> x ∈ l) -> keep_rightmost (l ++ v) ≡ₚ l.
Proof.
  intros Hl Hv. apply NoDup_Permutation; [apply keep_rightmost_NoDup|exact Hl|].
  intros x. rewrite keep_rightmost_elem, elem_of_app. split; [|auto].
  intros [Hx|Hx]; [exact Hx|apply Hv, Hx].
Qed.

(** ** What a change does to a variable *)

Lemma merge_flag_ENV key v e : ENV (merge_flag key v e) = ENV e.
Proof. destruct v; reflexivity. Qed.

Lemma merge_flag_svars key v e : svars (merge_flag key v e) = svars e.
Proof. destruct v; reflexivity. Qed.

Lemma cvar_merge_eq key v e :
  v <> [] ->
  cvar key (merge_flag key v e) =
    if Str.endswith key "PATH" then keep_leftmost (cvar key e ++ v)
    else keep_rightmost (cvar key e ++ v).
Proof.
  intros Hv. destruct v as [|x v]; [congruence|].
  unfold cvar, merge_flag. cbn [cvars]. rewrite lookup_insert_eq. reflexivity.
Qed.

Lemma cvar_merge_ne key key' v e :
  key <> key' -> cvar key' (merge_flag key v e) = cvar key' e.
Proof.
  intros Hne. destruct v as [|x v]; [reflexivity|].
  unfold cvar, merge_flag. cbn [cvars]. rewrite lookup_insert_ne by exact Hne.
  reflexivity.
Qed.

Lemma cvar_merge_elem key key' v e x :
  x ∈ cvar key' e -> x ∈ cvar key' (merge_flag key v e).
Proof.
  intros Hx. destruct (decide (key = key')) as [->|Hne];
    [|rewrite cvar_merge_ne by exact Hne; exact Hx].
  destruct v as [|y v]; [exact Hx|]. rewrite cvar_merge_eq by discriminate.
  destruct (Str.endswith key' "PATH");
    [apply keep_leftmost_elem|apply keep_rightmost_elem]; apply elem_of_app; auto.
Qed.

Lemma cvar_apply_op_elem o e key x :
  x ∈ cvar key e -> x ∈ cvar key (apply_op o e).
Proof.
  intros Hx. destruct o as [k y|k v|name path|name v]; simpl; auto.
  - unfold cvar, AppendUnique. cbn [cvars].
    destruct (decide (k = key)) as [->|Hne].
    + rewrite lookup_insert_eq. simpl. apply elem_append_unique, Hx.
    + rewrite lookup_insert_ne by exact Hne. exact Hx.
  - apply cvar_merge_elem, Hx.
  - case_bool_decide; exact Hx.
Qed.

Lemma apply_op_NoDup o e key :
  NoDup (cvar key e) -> NoDup (cvar key (apply_op o e)).
Proof.
  intros Hnd. destruct o as [k x|k v|name path|name v]; simpl; auto.
  - unfold cvar, AppendUnique in *. cbn [cvars].
    destruct (decide (k = key)) as [->|Hne].
    + rewrite lookup_insert_eq. simpl. apply append_unique_NoDup, Hnd.
    + rewrite lookup_insert_ne; auto.
  - destruct (decide (k = key)) as [->|Hne];
      [|rewrite cvar_merge_ne by exact Hne; exact Hnd].
    destruct v as [|y v]; [exact Hnd|]. rewrite cvar_merge_eq by discriminate.
    destruct (Str.endswith key "PATH");
      [apply keep_leftmost_NoDup|apply keep_rightmost_NoDup].
  - case_bool_decide; auto.
Qed.

Lemma apply_ops_NoDup ops e key :
  NoDup (cvar key e) -> NoDup (cvar key (apply_ops ops e)).
Proof.
  revert e. induction ops as [|o ops IH]; intros e He; simpl; auto.
  apply IH, apply_op_NoDup, He.
Qed.

Lemma ENV_apply_op_elem o e name path :
  path ∈ default [] (ENV e !! name) ->
  path ∈ default [] (ENV (apply_op o e) !! name).
Proof.
  intros Hp. destruct o as [k x|k v|name' path'|name' v']; simpl; auto.
  - rewrite merge_flag_ENV. exact Hp.
  - destruct (decide (name' = name)) as [->|Hne].
    + rewrite lookup_insert_eq. simpl. apply elem_append_unique, Hp.
    + rewrite lookup_insert_ne; auto.
  - case_bool_decide as Hn; simpl; auto.
    destruct (decide (name' = name)) as [->|Hne].
    + rewrite Hn in Hp. inversion Hp.
    + rewrite lookup_insert_ne; auto.
Qed.

Lemma ENV_apply_op_set o e name :
  ENV e !! name <> None -> ENV (apply_op o e) !! name <> None.
Proof.
  intros Hp. destruct o as [k x|k v|name' path'|name' v']; simpl; auto.
  - rewrite merge_flag_ENV. exact Hp.
  - destruct (decide (name' = name)) as [->|Hne].
    + rewrite lookup_insert_eq. discriminate.
    + rewrite lookup_insert_ne; auto.
  - case_bool_decide as Hn; simpl; auto.
    destruct (decide (name' = name)) as [->|Hne].
    + rewrite lookup_insert_eq. discriminate.
    + rewrite lookup_insert_ne; auto.
Qed.

(** A stable change already made changes nothing. *)
Lemma satisfied_id o e : stable o -> satisfied o e -> apply_op o e = e.
Proof.
  destruct o as [key x|key v|name path|name v]; simpl; intros Hst Hs.
  - unfold AppendUnique. unfold cvar in Hs. rewrite append_unique_elem by exact Hs.
    rewrite insert_id by (eapply default_elem_lookup; eauto). apply env_eta.
  - destruct v as [|y v]; [reflexivity|].
    destruct Hst as [Hst|Hpath]; [discriminate|].
    destruct Hs as [Hs|[Hnd Hsub]]; [discriminate|].
    unfold merge_flag. rewrite Hpath.
    fold (cvar key e). rewrite (keep_leftmost_again _ (y :: v) Hnd Hsub).
    rewrite insert_id; [apply env_eta|].
    eapply default_elem_lookup. apply (Hsub y). left.
  - unfold AppendENVPath. rewrite append_unique_elem by exact Hs.
    rewrite insert_id by (eapply default_elem_lookup; eauto). apply env_eta.
  - rewrite bool_decide_eq_false_2; auto.
Qed.

(** A change is made once it is applied. *)
Lemma satisfied_apply o e : satisfied o (apply_op o e).
Proof.
  destruct o as [key x|key v|name path|name v]; simpl.
  - unfold cvar. cbn [AppendUnique cvars]. rewrite lookup_insert_eq. simpl.
    apply elem_append_unique_new.
  - destruct v as [|y v]; [left; reflexivity|right].
    rewrite cvar_merge_eq by discriminate.
    destruct (Str.endswith key "PATH").
    + split; [apply keep_leftmost_NoDup|].
      intros x Hx. apply keep_leftmost_elem, elem_of_app. auto.
    + split; [apply keep_rightmost_NoDup|].
      intros x Hx. apply keep_rightmost_elem, elem_of_app. auto.
  - rewrite lookup_insert_eq. simpl. apply elem_append_unique_new.
  - case_bool_decide as Hn; simpl; [rewrite lookup_insert_eq; discriminate|exact Hn].
Qed.

(** A change made stays made whatever is applied next. *)
Lemma satisfied_mono o o' e : satisfied o e -> satisfied o (apply_op o' e).
Proof.
  destruct o as [key x|key v|name path|name v]; simpl; intros Hs.
  - apply cvar_apply_op_elem, Hs.
  - destruct Hs as [Hs|[Hnd Hsub]]; [left; exact Hs|right]. split.
    + apply apply_op_NoDup, Hnd.
    + intros x Hx. apply cvar_apply_op_elem, Hsub, Hx.
  - apply ENV_apply_op_elem, Hs.
  - apply ENV_apply_op_set, Hs.
Qed.

Lemma apply_ops_app ops1 ops2 e :
  apply_ops (ops1 ++ ops2) e = apply_ops ops2 (apply_ops ops1 e).
Proof. apply fold_left_app. Qed.

Lemma satisfied_mono_ops o ops e : satisfied o e -> satisfied o (apply_ops ops e).
Proof.
  revert e. induction ops as [|o' ops IH]; intros e Hs; simpl; auto.
  apply IH, satisfied_mono, Hs.
Qed.

Lemma satisfied_apply_ops o ops e : o ∈ ops -> satisfied o (apply_ops ops e).
Proof.
  revert e. induction ops as [|o' ops IH]; intros e Ho; [inversion Ho|].
  simpl. apply elem_of_cons in Ho as [->|Ho].
  - apply satisfied_mono_ops, satisfied_apply.
  - apply IH, Ho.
Qed.

Lemma apply_ops_satisfied ops e :
  (forall o, o ∈ ops -> stable o) ->
  (forall o, o ∈ ops -> satisfied o e) -> apply_ops ops e = e.
Proof.
  induction ops as [|o ops IH]; intros Hst Hall; simpl; auto.
  rewrite satisfied_id by (first [apply Hst|apply Hall]; left).
  apply IH; intros o' Ho'; [apply Hst|apply Hall]; right; exact Ho'.
Qed.

Lemma neutral_ENV ops e :
  (forall o, o ∈ ops -> neutral o e) -> ENV (apply_ops ops e) = ENV e.
Proof.
  revert e. induction ops as [|o ops IH]; intros e Hall; simpl; auto.
  assert (neutral o e) as Ho by (apply Hall; left).
  rewrite IH.
  - destruct o; [reflexivity|apply merge_flag_ENV
                |rewrite satisfied_id by (exact I || exact Ho); reflexivity..].
  - intros o' Ho'. assert (neutral o' e) as Hn by (apply Hall; right; exact Ho').
    destruct o'; [exact I|exact I|apply satisfied_mono; exact Hn..].
Qed.

Lemma flag_ops_neutral fl o e : o ∈ flag_ops fl -> neutral o e.
Proof.
  unfold flag_ops. intros Ho. apply list_elem_of_fmap in Ho as (kv & -> & _). exact I.
Qed.

(** ** Environments that differ in the order of values only *)

Lemma same_entries_refl e : same_entries e e.
Proof. repeat split; reflexivity. Qed.

Lemma same_entries_trans e1 e2 e3 :
  same_entries e1 e2 -> same_entries e2 e3 -> same_entries e1 e3.
Proof.
  intros (E1 & S1 & C1) (E2 & S2 & C2). split; [congruence|]. split; [congruence|].
  intros key. destruct (C1 key) as [P1 Q1], (C2 key) as [P2 Q2]. split.
  - etransitivity; eauto.
  - intros Hp. rewrite Q2, Q1 by exact Hp. reflexivity.
Qed.

(** A change already made leaves the entries, and moves values only in
    a variable whose name does not end in PATH. *)
Lemma satisfied_same o e : satisfied o e -> same_entries e (apply_op o e).
Proof.
  intros Hs.
  assert (stable o -> same_entries e (apply_op o e)) as Hst.
  { intros Hst. rewrite satisfied_id by assumption. apply same_entries_refl. }
  destruct o as [key x|key v|name path|name v]; try (apply Hst; exact I).
  destruct v as [|y v]; [apply Hst; left; reflexivity|].
  destruct (Str.endswith key "PATH") eqn:Hpath; [apply Hst; right; exact Hpath|].
  destruct Hs as [Hs|[Hnd Hsub]]; [discriminate|].
  cbn [apply_op]. split; [apply merge_flag_ENV|]. split; [apply merge_flag_svars|].
  intros key'. destruct (decide (key = key')) as [<-|Hne].
  - rewrite cvar_merge_eq, Hpath by discriminate. split.
    + apply keep_rightmost_again; assumption.
    + discriminate.
  - rewrite cvar_merge_ne by exact Hne. split; reflexivity.
Qed.

Lemma apply_ops_same ops : forall e,
  (forall o, o ∈ ops -> satisfied o e) -> same_entries e (apply_ops ops e).
Proof.
  induction ops as [|o ops IH]; intros e Hall; simpl; [apply same_entries_refl|].
  eapply same_entries_trans.
  - apply satisfied_same, Hall. left.
  - apply IH. intros o' Ho'. apply satisfied_mono, Hall. right. exact Ho'.
Qed.

End EnvAlgebra.

Section EnvIdempotent.

Context {W : Type} (H : host W) (w : W) (c : component W).

Lemma ENV_tail ops tail e :
  (forall o, o ∈ tail -> neutral o (apply_ops ops e)) ->
  ENV (apply_ops (ops ++ tail) e) = ENV (apply_ops ops e).
Proof. intros Hn. rewrite apply_ops_app. apply neutral_ENV, Hn. Qed.

Lemma pkg_config_paths_sub opts e o :
  pkgconfig c <> None ->
  o ∈ pkg_config_paths H w c -> o ∈ parse_config_ops H w c opts e.
Proof.
  intros Hp Ho. unfold parse_config_ops. destruct (pkgconfig c); [|congruence].
  apply elem_of_app. left. exact Ho.
Qed.

(** The changes of [parse_config] are its paths, then what pkg-config
    gave, which is construction variables only. *)
Lemma parse_config_ops_split opts e :
  pkgconfig c <> None ->
  exists fl, parse_config_ops H w c opts e = pkg_config_paths H w c ++ fl /\
             forall o x, o ∈ fl -> neutral o x.
Proof.
  intros Hp. unfold parse_config_ops. destruct (pkgconfig c) as [pkg|]; [|congruence].
  eexists. split; [reflexivity|].
  intros o x Ho. destruct (pkg_config_go H w c); [|inversion Ho].
  destruct (pkg_config H w _ _); [|inversion Ho].
  eapply flag_ops_neutral; eauto.
Qed.

Lemma parse_config_ops_neutral opts e e' o :
  o ∈ parse_config_ops H w c opts e ->
  (forall p, p ∈ pkg_config_paths H w c -> satisfied p e') ->
  neutral o e'.
Proof.
  unfold parse_config_ops. destruct (pkgconfig c) as [pkg|]; [|intros Ho; inversion Ho].
  intros Ho Hp. apply elem_of_app in Ho as [Ho|Ho].
  - specialize (Hp o Ho). destruct o; simpl; auto.
  - destruct (pkg_config_go H w c); [|inversion Ho].
    destruct (pkg_config H w _ _); [|inversion Ho].
    eapply flag_ops_neutral; eauto.
Qed.

(** [parse_config] reads the environment only through env['ENV'] as its
    own path changes leave it. *)
Lemma parse_config_ops_query opts e e' :
  ENV (apply_ops (pkg_config_paths H w c) e) = ENV (apply_ops (pkg_config_paths H w c) e') ->
  parse_config_ops H w c opts e = parse_config_ops H w c opts e'.
Proof. intros HE. unfold parse_config_ops. rewrite HE. reflexivity. Qed.

Lemma map_AddC_neutral key l o e : o ∈ map (AddC key) l -> neutral o e.
Proof. intros Ho. apply list_elem_of_fmap in Ho as (x & -> & _). exact I. Qed.

(** A second call makes the changes of the first. *)
Lemma set_environment_ops_again needed_libs e :
  set_environment_ops H w c needed_libs
    (apply_ops (set_environment_ops H w c needed_libs e) e)
  = set_environment_ops H w c needed_libs e.
Proof.
  set (ops1 := set_environment_ops H w c needed_libs e).
  set (e1 := apply_ops ops1 e).
  assert (forall o, o ∈ ops1 -> satisfied o e1) as Hsat.
  { intros o Ho. apply satisfied_apply_ops, Ho. }
  assert (forall o, o ∈ ops1 -> neutral o e1) as Hneutral.
  { intros o Ho. specialize (Hsat o Ho). destruct o; simpl; auto. }
  set (own := own_ops H w c).
  set (P := pkg_config_paths H w c).
  set (C1 := parse_config_ops H w c "--cflags" (apply_ops own e)).
  set (libdirs := map (AddC "LIBPATH")
         (if negb (use_installed c)
             && negb (bool_decide (component_prefix c = Some "/usr"))
          then existing_lib_paths H w c else [])).
  set (rest1 := match needed_libs with
                | None => []
                | Some nl =>
                    parse_config_ops H w c "--libs" (apply_ops (own ++ C1) e)
                    ++ libdirs ++ map (AddC "LIBS") nl
                end).
  assert (ops1 = own ++ C1 ++ rest1) as Hops1 by reflexivity.
  (* the pkg-config call for the compiler flags sees the same env['ENV'] *)
  assert (parse_config_ops H w c "--cflags" (apply_ops own e1) = C1) as HC.
  { destruct (pkgconfig c) as [pkg|] eqn:Hpkg;
      [|unfold C1, parse_config_ops; rewrite Hpkg; reflexivity].
    assert (pkgconfig c <> None) as Hsome by congruence.
    apply parse_config_ops_query. fold P. rewrite <- !apply_ops_app.
    rewrite (neutral_ENV (own ++ P) e1).
    2:{ intros o Ho. apply Hneutral. rewrite Hops1.
        apply elem_of_app in Ho as [Ho|Ho]; rewrite !elem_of_app; [auto|].
        right. left. apply pkg_config_paths_sub; auto. }
    destruct (parse_config_ops_split "--cflags" (apply_ops own e) Hsome)
      as (fl & HfC & Hfl). fold P in HfC. fold C1 in HfC.
    unfold e1. rewrite Hops1, HfC.
    replace (own ++ (P ++ fl) ++ rest1) with ((own ++ P) ++ (fl ++ rest1))
      by (rewrite <- !app_assoc; reflexivity).
    apply ENV_tail. intros o Ho. apply elem_of_app in Ho as [Ho|Ho]; [apply Hfl, Ho|].
    unfold rest1 in Ho. destruct needed_libs as [nl|]; [|inversion Ho].
    apply elem_of_app in Ho as [Ho|Ho].
    - eapply parse_config_ops_neutral; eauto.
      intros p Hp. apply satisfied_apply_ops, elem_of_app. auto.
    - apply elem_of_app in Ho as [Ho|Ho]; eapply map_AddC_neutral; eauto. }
  unfold set_environment_ops at 1. fold own. fold e1. rewrite HC. fold libdirs.
  rewrite Hops1. f_equal. f_equal.
  destruct needed_libs as [nl|]; [|reflexivity]. unfold rest1. f_equal.
  (* and so does the call for the linker flags *)
  destruct (pkgconfig c) as [pkg|] eqn:Hpkg;
    [|unfold parse_config_ops; rewrite Hpkg; reflexivity].
  assert (pkgconfig c <> None) as Hsome by congruence.
  apply parse_config_ops_query. fold P. rewrite <- !apply_ops_app.
  rewrite (neutral_ENV ((own ++ C1) ++ P) e1).
  2:{ intros o Ho. apply Hneutral. rewrite Hops1.
      apply elem_of_app in Ho as [Ho|Ho]; rewrite !elem_of_app.
      - apply elem_of_app in Ho as [Ho|Ho]; auto.
      - right. left. apply pkg_config_paths_sub; auto. }
  destruct (parse_config_ops_split "--libs" (apply_ops (own ++ C1) e) Hsome)
    as (fl & HfL & Hfl). fold P in HfL.
  unfold e1. rewrite Hops1. unfold rest1. rewrite HfL.
  replace (own ++ C1 ++ (P ++ fl) ++ libdirs ++ map (AddC "LIBS") nl)
    with (((own ++ C1) ++ P) ++ (fl ++ libdirs ++ map (AddC "LIBS") nl))
    by (rewrite <- !app_assoc; reflexivity).
  apply ENV_tail. intros o Ho. apply elem_of_app in Ho as [Ho|Ho]; [apply Hfl, Ho|].
  apply elem_of_app in Ho as [Ho|Ho]; eapply map_AddC_neutral; eauto.
Qed.

(** The environment a call leaves keeps its entries over a second call,
    and the order of the values of every variable whose name ends in
    PATH. *)
Lemma set_environment_env_again needed_libs e :
  same_entries (set_environment_env H w c needed_libs e)
    (set_environment_env H w c needed_libs (set_environment_env H w c needed_libs e)).
Proof.
  unfold set_environment_env. destruct (no_prefix_yet c); [apply same_entries_refl|].
  rewrite set_environment_ops_again.
  apply apply_ops_same. intros o Ho. apply satisfied_apply_ops, Ho.
Qed.

(** Without a pkg-config file no change of the call is a merge. *)
Lemma set_environment_ops_stable needed_libs e o :
  pkgconfig c = None -> o ∈ set_environment_ops H w c needed_libs e -> stable o.
Proof.
  intros Hpkg Ho. unfold set_environment_ops, parse_config_ops, own_ops in Ho.
  rewrite Hpkg in Ho. simpl in Ho.
  repeat match type of Ho with
  | _ ∈ _ ++ _ => apply elem_of_app in Ho as [Ho|Ho]
  | _ ∈ (if ?b then _ else _) => destruct b
  | _ ∈ match ?x with Some _ => _ | None => _ end => destruct x
  | _ ∈ [] => inversion Ho
  | _ ∈ _ :: _ => apply elem_of_cons in Ho as [->|Ho]; [exact I|]
  | _ ∈ map _ _ => apply list_elem_of_fmap in Ho as (? & -> & _); exact I
  | _ ∈ flat_map _ _ =>
      apply list_elem_of_In, in_flat_map in Ho as (? & _ & [<-|[<-|[]]]); exact I
  end.
Qed.

(** Without a pkg-config file a second call changes nothing. *)
Lemma set_environment_env_fixed needed_libs e :
  pkgconfig c = None ->
  set_environment_env H w c needed_libs (set_environment_env H w c needed_libs e)
  = set_environment_env H w c needed_libs e.
Proof.
  intros Hpkg. unfold set_environment_env. destruct (no_prefix_yet c); [reflexivity|].
  rewrite set_environment_ops_again. apply apply_ops_satisfied.
  - intros o Ho. eapply set_environment_ops_stable; eauto.
  - intros o Ho. apply satisfied_apply_ops, Ho.
Qed.

Lemma set_environment_env_NoDup needed_libs e key :
  NoDup (cvar key e) -> NoDup (cvar key (set_environment_env H w c needed_libs e)).
Proof.
  intros He. unfold set_environment_env. destruct (no_prefix_yet c); [exact He|].
  apply apply_ops_NoDup, He.
Qed.

End EnvIdempotent.

Section EnvRun.

Context {W : Type} (H : host W) (i : nat) (s0 : state W).
Hypothesis in_range : i < length (envs s0).

Lemma env_is_lookup e (s : state W) : env_is i e s0 s -> the_env i s = e.
Proof.
  intros [_ He]. unfold the_env. rewrite He, list_lookup_insert_eq by exact in_range.
  reflexivity.
Qed.

Lemma env_is_update e (s : state W) f :
  env_is i e s0 s -> env_is i (f e) s0 (set_envs (alter f i (envs s)) s).
Proof.
  intros [Hw He]. split; [exact Hw|]. simpl. rewrite He.
  apply list_eq. intros j. destruct (decide (i = j)) as [<-|Hne].
  - rewrite list_lookup_alter_eq, !list_lookup_insert_eq by
      (rewrite ?length_insert; exact in_range). reflexivity.
  - rewrite list_lookup_alter_ne, !list_lookup_insert_ne by auto. reflexivity.
Qed.

Lemma does_ret {A} (a : A) e : does i s0 (mret a : M W A) e a [].
Proof. intros s Hs. exists s. split; [reflexivity|exact Hs]. Qed.

Lemma does_bind {A B} (m : M W A) (k : A -> M W B) e a b ops1 ops2 ops :
  ops = ops1 ++ ops2 ->
  does i s0 m e a ops1 ->
  does i s0 (k a) (apply_ops ops1 e) b ops2 ->
  does i s0 (m ≫= k) e b ops.
Proof.
  intros -> Hm Hk s Hs. destruct (Hm s Hs) as (s1 & Hr1 & Hs1).
  destruct (Hk s1 Hs1) as (s2 & Hr2 & Hs2).
  exists s2. rewrite (bind_ok _ _ _ _ _ Hr1), Hr2. split; [reflexivity|].
  rewrite apply_ops_app. exact Hs2.
Qed.

Lemma does_gets {A} (f : state W -> A) e a :
  (forall s, env_is i e s0 s -> f s = a) -> does i s0 (gets f) e a [].
Proof.
  intros Hf s Hs. exists s. unfold gets. rewrite (Hf s Hs). split; [reflexivity|exact Hs].
Qed.

Lemma does_update o e : does i s0 (update_env i (apply_op o) : M W unit) e tt [o].
Proof.
  intros s Hs. eexists. split; [reflexivity|]. apply (env_is_update e s (apply_op o) Hs).
Qed.

Lemma does_log ev e : does i s0 (log ev : M W unit) e tt [].
Proof. intros s [Hw He]. eexists. split; [reflexivity|]. split; assumption. Qed.

Lemma does_for_each {A} (l : list A) (body : A -> M W unit) (h : A -> list env_op) :
  (forall x e, does i s0 (body x) e tt (h x)) ->
  forall e, does i s0 (for_each l body) e tt (flat_map h l).
Proof.
  intros Hb. induction l as [|x l IH]; intros e; simpl.
  - apply does_ret.
  - eapply does_bind; [reflexivity|apply Hb|apply IH].
Qed.

Lemma MergeFlags_ops fl e : MergeFlags fl e = apply_ops (flag_ops fl) e.
Proof.
  unfold MergeFlags, flag_ops, apply_ops. revert e.
  induction fl as [|[k vs] fl IH]; intros e; simpl; [reflexivity|]. apply IH.
Qed.

Lemma flat_map_singleton {A B} (f : A -> B) (l : list A) :
  flat_map (fun x => [f x]) l = map f l.
Proof. induction l; simpl; congruence. Qed.

Lemma does_gets_bind {A B} (f : state W -> A) (k : A -> M W B) e a b ops :
  (forall s, env_is i e s0 s -> f s = a) ->
  does i s0 (k a) e b ops ->
  does i s0 (gets f ≫= k) e b ops.
Proof.
  intros Hf Hk. eapply does_bind; [|apply does_gets, Hf|exact Hk]. reflexivity.
Qed.

Lemma does_update_fn f ops e :
  f e = apply_ops ops e -> does i s0 (update_env i f : M W unit) e tt ops.
Proof.
  intros Hf s Hs. eexists. split; [reflexivity|]. rewrite <- Hf.
  apply (env_is_update e s f Hs).
Qed.

Lemma does_AppendUnique key x e :
  does i s0 (update_env i (AppendUnique key x) : M W unit) e tt [AddC key x].
Proof. apply does_update_fn. reflexivity. Qed.

Lemma does_AppendENVPath name path e :
  does i s0 (update_env i (AppendENVPath name path) : M W unit) e tt [AddE name path].
Proof. apply does_update_fn. reflexivity. Qed.

Lemma does_world {A B} (g : W -> A) (k : A -> M W B) e b ops :
  does i s0 (k (g (world s0))) e b ops ->
  does i s0 (gets (fun s => g (world s)) ≫= k) e b ops.
Proof.
  intros Hk. eapply does_gets_bind; [|exact Hk]. intros s [Hw _]. rewrite Hw. reflexivity.
Qed.

(** The loop of [parse_config] over the pkgconfig directories. *)
Lemma does_pkgconfig_dirs (g : string -> string) (l : list string) :
  forall acc e,
  does i s0
    (for_fold l acc (fun path path_found =>
       ex ← gets (fun s => os_path_exists H (world s) (g path));
       if negb ex then mret path_found
       else update_env i (AppendENVPath "PKG_CONFIG_PATH" (g path));;
            mret true))
    e
    (acc || negb (bool_decide
              (filter (fun d => os_path_exists H (world s0) d = true) (map g l) = [])))
    (map (AddE "PKG_CONFIG_PATH")
       (filter (fun d => os_path_exists H (world s0) d = true) (map g l))).
Proof.
  induction l as [|p l IH]; intros acc e; simpl.
  - rewrite orb_false_r. apply does_ret.
  - rewrite filter_cons.
    destruct (os_path_exists H (world s0) (g p)) eqn:Hex; simpl.
    + rewrite ?decide_True by reflexivity. simpl. rewrite orb_true_r.
      eapply (does_bind _ _ e true _ [AddE "PKG_CONFIG_PATH" (g p)]); [reflexivity| |].
      * apply (does_world (fun w => os_path_exists H w (g p))). rewrite Hex. simpl.
        eapply does_bind; [|apply does_AppendENVPath|apply does_ret]. reflexivity.
      * apply (IH true).
    + rewrite ?decide_False by discriminate.
      eapply (does_bind _ _ e acc _ []); [reflexivity| |apply IH].
      apply (does_world (fun w => os_path_exists H w (g p))). rewrite Hex. simpl.
      apply does_ret.
Qed.

(** [parse_config] makes the changes of [parse_config_ops]. *)
Lemma does_parse_config (c : component W) opts e :
  does i s0 (parse_config H c i opts) e tt (parse_config_ops H (world s0) c opts e).
Proof.
  unfold parse_config, parse_config_ops. destruct (pkgconfig c) as [pkg|]; [|apply does_ret].
  apply (does_world (fun w => os_environ_get H w "PKG_CONFIG_PATH")).
  eapply does_gets_bind; [intros s Hs; apply env_is_lookup, Hs|].
  set (path := os_environ_get H (world s0) "PKG_CONFIG_PATH").
  set (o1 := if truthy_opt path
             then [InitE "PKG_CONFIG_PATH" (Str.split ":" (default "" path))]
             else []).
  set (o2 := if pkg_config_scoped c
             then map (AddE "PKG_CONFIG_PATH") (pkg_config_dirs H (world s0) c)
             else []).
  assert (pkg_config_paths H (world s0) c = o1 ++ o2) as -> by reflexivity.
  rewrite <- app_assoc.
  eapply (does_bind _ _ e tt _ o1); [reflexivity| |].
  { (* PKG_CONFIG_PATH taken from the process when env['ENV'] has none *)
    unfold o1. destruct (truthy_opt path); simpl.
    - case_bool_decide as Habs.
      + apply does_update_fn. simpl. rewrite bool_decide_eq_true_2 by exact Habs.
        reflexivity.
      + intros s Hs. exists s. split; [reflexivity|]. simpl.
        rewrite bool_decide_eq_false_2 by exact Habs. exact Hs.
    - apply does_ret. }
  eapply (does_bind _ _ (apply_ops o1 e) (pkg_config_go H (world s0) c) _ o2);
    [reflexivity| |].
  { (* the pkgconfig directories of the component *)
    unfold o2, pkg_config_go, pkg_config_scoped, pkg_config_dirs.
    destruct (component_prefix c) as [cp|]; simpl; [|apply does_ret].
    destruct (negb (use_installed c) && negb (String.eqb cp "/usr")); [|apply does_ret].
    apply (does_pkgconfig_dirs (fun p => Path.join3 cp p "pkgconfig") ["lib"; "lib64"]
             false). }
  rewrite <- apply_ops_app.
  destruct (pkg_config_go H (world s0) c); simpl; [|apply does_ret].
  eapply (does_gets_bind _ _ _
            (pkg_config H (world s0) (ENV (apply_ops (o1 ++ o2) e))
               ("pkg-config " +:+ opts +:+ " " +:+ pkg))).
  { intros s Hs. rewrite (env_is_lookup _ _ Hs). destruct Hs as [-> _]. reflexivity. }
  eapply does_bind; [|apply does_log|]; [reflexivity|]. simpl.
  destruct (pkg_config H (world s0) _ _) as [fl|]; [|apply does_ret].
  apply does_update_fn, MergeFlags_ops.
Qed.

(** The loop of [set_environment] over the library directories. *)
Lemma does_lib_paths (cp : string) (l : list string) :
  forall acc e,
  does i s0
    (for_fold l acc (fun path lib_paths =>
       full_path ← join_opt (Some cp) path;
       ex ← gets (fun s => os_path_exists H (world s) full_path);
       if negb ex then mret lib_paths
       else
         update_env i (AppendUnique "RPATH_FULL" full_path);;
         update_env i (AppendENVPath "LD_LIBRARY_PATH" full_path);;
         mret (lib_paths ++ [full_path])))
    e
    (acc ++ filter (fun d => os_path_exists H (world s0) d = true) (map (Path.join cp) l))
    (flat_map (fun d => [AddC "RPATH_FULL" d; AddE "LD_LIBRARY_PATH" d])
       (filter (fun d => os_path_exists H (world s0) d = true) (map (Path.join cp) l))).
Proof.
  induction l as [|p l IH]; intros acc e; simpl.
  - rewrite app_nil_r. apply does_ret.
  - rewrite filter_cons.
    destruct (os_path_exists H (world s0) (Path.join cp p)) eqn:Hex; simpl.
    + rewrite ?decide_True by reflexivity. simpl.
      replace (acc ++ Path.join cp p :: filter _ _)
        with ((acc ++ [Path.join cp p]) ++
              filter (fun d => os_path_exists H (world s0) d = true)
                (map (Path.join cp) l))
        by (rewrite <- app_assoc; reflexivity).
      eapply (does_bind _ _ e (acc ++ [Path.join cp p]) _
                [AddC "RPATH_FULL" (Path.join cp p);
                 AddE "LD_LIBRARY_PATH" (Path.join cp p)]); [reflexivity| |apply IH].
      rewrite bind_ret_eq.
      apply (does_world (fun w => os_path_exists H w (Path.join cp p))).
      rewrite Hex. simpl.
      eapply does_bind; [|apply does_AppendUnique|].
      { reflexivity. }
      eapply does_bind; [|apply does_AppendENVPath|apply does_ret].
      reflexivity.
    + rewrite ?decide_False by discriminate.
      eapply (does_bind _ _ e acc _ []); [reflexivity| |apply IH].
      rewrite bind_ret_eq.
      apply (does_world (fun w => os_path_exists H w (Path.join cp p))).
      rewrite Hex. simpl. apply does_ret.
Qed.

(** [set_environment] makes the changes of [set_environment_ops]. *)
Lemma does_set_environment (c : component W) needed_libs e :
  no_prefix_yet c = false ->
  does i s0 (set_environment H c i needed_libs) e tt
    (set_environment_ops H (world s0) c needed_libs e).
Proof.
  intros Hprefix. unfold set_environment, set_environment_ops.
  set (C := parse_config_ops H (world s0) c "--cflags" (apply_ops (own_ops H (world s0) c) e)).
  unfold own_ops in *.
  set (scoped := negb (use_installed c)
                 && negb (bool_decide (component_prefix c = Some "/usr"))) in *.
  set (A := if scoped then
              [AddE "PATH" (Path.join (default "" (component_prefix c)) "bin")]
              ++ map (fun p => AddC "CPPPATH"
                                 (Path.join (default "" (component_prefix c)) p))
                   (include_path c)
              ++ flat_map (fun d => [AddC "RPATH_FULL" d; AddE "LD_LIBRARY_PATH" d])
                   (existing_lib_paths H (world s0) c)
              ++ [AddC "LINKFLAGS" dtags]
            else []) in *.
  set (B := if bool_decide (component_prefix c = Some "/usr")
               && bool_decide (package c = None)
            then [AddC "RPATH" "/usr/lib"; AddC "LINKFLAGS" dtags]
            else []) in *.
  set (D := map (AddC "CPPDEFINES") (defines c)) in *.
  set (lib_paths := if scoped then existing_lib_paths H (world s0) c else []).
  rewrite <- !app_assoc.
  eapply (does_bind _ _ e lib_paths _ A); [reflexivity| |].
  { unfold A, lib_paths. destruct scoped eqn:Hscoped; [|apply does_ret].
    destruct (component_prefix c) as [cp|] eqn:Hcp.
    2:{ unfold no_prefix_yet in Hprefix. unfold scoped in Hscoped.
        rewrite ?Hcp in Hprefix. rewrite ?Hcp in Hscoped.
        destruct (use_installed c); simpl in *; discriminate. }
    simpl. rewrite bind_ret_eq.
    eapply (does_bind _ _ e tt _ [AddE "PATH" (Path.join cp "bin")]);
      [reflexivity|apply does_AppendENVPath|].
    eapply (does_bind _ _ _ tt _
              (map (fun p => AddC "CPPPATH" (Path.join cp p)) (include_path c)));
      [reflexivity| |].
    { rewrite <- flat_map_singleton. apply does_for_each. intros p e'.
      rewrite bind_ret_eq. apply does_AppendUnique. }
    eapply (does_bind _ _ _ (existing_lib_paths H (world s0) c) _
              (flat_map (fun d => [AddC "RPATH_FULL" d; AddE "LD_LIBRARY_PATH" d])
                 (existing_lib_paths H (world s0) c))); [reflexivity| |].
    { unfold existing_lib_paths. rewrite Hcp. simpl.
      apply (does_lib_paths cp (lib_path c) []). }
    eapply does_bind; [|apply does_AppendUnique|apply does_ret].
    rewrite app_nil_r. reflexivity. }
  eapply (does_bind _ _ _ tt _ B); [reflexivity| |].
  { unfold B. destruct (bool_decide (component_prefix c = Some "/usr")
                        && bool_decide (package c = None)); [|apply does_ret].
    eapply does_bind; [|apply does_AppendUnique|apply does_AppendUnique]. reflexivity. }
  eapply (does_bind _ _ _ tt _ D); [reflexivity| |].
  { unfold D. rewrite <- flat_map_singleton. apply does_for_each. intros d e'.
    apply does_AppendUnique. }
  rewrite <- !apply_ops_app.
  eapply (does_bind _ _ _ tt _ C); [reflexivity| |].
  { unfold C. apply does_parse_config. }
  rewrite <- ?apply_ops_app.
  destruct needed_libs as [nl|]; [|apply does_ret].
  rewrite <- !flat_map_singleton.
  eapply does_bind; [reflexivity| |].
  { rewrite <- ?app_assoc. apply does_parse_config. }
  eapply does_bind; [reflexivity| |].
  { apply does_for_each. intros d e'. apply does_AppendUnique. }
  apply does_for_each. intros d e'. apply does_AppendUnique.
Qed.

(** Without a prefix a component that is not a system one makes
    [set_environment] raise before it changes anything. *)
Lemma set_environment_no_prefix (c : component W) needed_libs (s : state W) :
  no_prefix_yet c = true ->
  set_environment H c i needed_libs s =
    (Raise (TypeError "expected str, bytes or os.PathLike object, not NoneType"), s).
Proof.
  unfold no_prefix_yet, set_environment. intros Hn.
  apply andb_true_iff in Hn as [Hu Hp]. apply bool_decide_eq_true in Hp.
  rewrite Hu, Hp. reflexivity.
Qed.

End EnvRun.

Section EnvClaim.

Context {W : Type} (H : host W).

#[local] Instance touches_only_preorder i : PreOrder (@touches_only W i).
Proof.
  split.
  - intros s. split; [|reflexivity]. exists (fun e => e).
    symmetry. apply list_alter_id. reflexivity.
  - intros s1 s2 s3 [(f & Hf) W1] [(g & Hg) W2]. split; [|congruence].
    exists (g ∘ f). rewrite Hg, Hf. apply list_alter_alter_eq.
Qed.

Lemma touches_update i f : preserves (@touches_only W i) (update_env i f).
Proof. intros s. split; [exists f|]; reflexivity. Qed.

Lemma touches_log i ev : preserves (@touches_only W i) (log ev).
Proof.
  intros s. split; [|reflexivity]. exists (fun e => e). simpl.
  symmetry. apply list_alter_id. reflexivity.
Qed.

Ltac touches :=
  repeat first
    [ apply touches_update
    | apply touches_log
    | pres_step ].

Lemma touches_parse_config i c opts :
  preserves (@touches_only W i) (parse_config H c i opts).
Proof. unfold parse_config, join_opt. touches. Qed.

Lemma touches_set_environment i c needed_libs :
  preserves (@touches_only W i) (set_environment H c i needed_libs).
Proof.
  unfold set_environment, join_opt.
  repeat first [ apply touches_parse_config | apply touches_update | pres_step ].
Qed.

(** What a call of [set_environment] leaves of the environments. *)
Lemma set_environment_run i c needed_libs (s : state W) :
  world (set_environment H c i needed_libs s).2 = world s /\
  envs (set_environment H c i needed_libs s).2 =
    alter (set_environment_env H (world s) c needed_libs) i (envs s).
Proof.
  destruct (decide (i < length (envs s))) as [Hlt|Hge].
  - destruct (lookup_lt_is_Some_2 _ _ Hlt) as [e He].
    assert (alter (set_environment_env H (world s) c needed_libs) i (envs s)
            = <[i := set_environment_env H (world s) c needed_libs e]> (envs s)) as ->.
    { rewrite list_insert_alter. apply list_alter_ext; [|reflexivity].
      intros x Hx. congruence. }
    unfold set_environment_env. destruct (no_prefix_yet c) eqn:Hn.
    + rewrite set_environment_no_prefix by exact Hn. simpl.
      rewrite list_insert_id by exact He. auto.
    + destruct (does_set_environment H i s Hlt c needed_libs e Hn s) as (s' & Hr & Hw & He').
      { split; [reflexivity|]. rewrite list_insert_id by exact He. reflexivity. }
      rewrite Hr. simpl. auto.
  - destruct (touches_set_environment i c needed_libs s) as [(f & Hf) Hw].
    split; [exact Hw|]. rewrite Hf.
    apply list_alter_ext; [|reflexivity].
    intros x Hx. apply lookup_lt_Some in Hx. lia.
Qed.

(** C9, as the code has it: a second call of [set_environment] with the
    same arguments touches no other environment and leaves env['ENV']
    and every list of the environment with the entries the first call
    left, none added and none lost.  The lists whose name ends in PATH
    (CPPPATH, LIBPATH, RPATH) keep their order as well, and for a
    component without pkg-config file the second call changes nothing at
    all; in the other lists (CPPDEFINES, LINKFLAGS, LIBS) the merge of
    the pkg-config flags may move values.  A list that had no entry twice
    before the first call has none twice after it. *)
Theorem set_environment_twice (c : component W) (i : nat)
    (needed_libs : option (list string)) (s : state W) :
  let s1 := (set_environment H c i needed_libs s).2 in
  let s2 := (set_environment H c i needed_libs s1).2 in
  length (envs s2) = length (envs s1) /\
  (forall j, j <> i -> envs s2 !! j = envs s1 !! j) /\
  same_entries (the_env i s1) (the_env i s2) /\
  (pkgconfig c = None -> envs s2 = envs s1) /\
  forall key, NoDup (cvar key (the_env i s)) -> NoDup (cvar key (the_env i s1)).
Proof.
  intros s1 s2.
  destruct (set_environment_run i c needed_libs s) as [Hw1 He1].
  destruct (set_environment_run i c needed_libs s1) as [Hw2 He2].
  fold s1 in Hw1, He1. fold s2 in Hw2, He2.
  split; [rewrite He2; apply length_alter|].
  split; [intros j Hj; rewrite He2; apply list_lookup_alter_ne; auto|].
  split; [|split].
  - unfold the_env. rewrite He2, list_lookup_alter_eq, He1, list_lookup_alter_eq, Hw1.
    destruct (envs s !! i) as [e|]; simpl; [|apply same_entries_refl].
    apply set_environment_env_again.
  - intros Hpkg. rewrite He2, He1, Hw1, list_alter_alter_eq.
    apply list_alter_ext; [|reflexivity].
    intros x _. apply set_environment_env_fixed, Hpkg.
  - intros key Hkey. unfold the_env. rewrite He1, list_lookup_alter_eq.
    unfold the_env in Hkey. destruct (envs s !! i); simpl in *; [|exact Hkey].
    apply set_environment_env_NoDup, Hkey.
Qed.

End EnvClaim.

(** C9 as stated fails: pkg-config names the libraries pc and z for
    foo, and the caller needs the library extra.  The first call leaves
    LIBS as pc, z, extra; the second moves extra to the front. *)
Lemma set_environment_reorders_libs :
  let s1 := (set_environment pkg_host pkg_foo 0 (Some ["extra"]) (test_state [])).2 in
  let s2 := (set_environment pkg_host pkg_foo 0 (Some ["extra"]) s1).2 in
  cvar "LIBS" (the_env 0 s1) = ["pc"; "z"; "extra"] /\
  cvar "LIBS" (the_env 0 s2) = ["extra"; "pc"; "z"] /\
  cvar "LIBS" (the_env 0 s2) <> cvar "LIBS" (the_env 0 s1).
Proof. vm_compute. repeat split; [reflexivity..|discriminate]. Qed.

(** ** A walk through [configure], [get] and [build]

    [R k] is a family of relations on states graded by a budget [k]:
    what a step leaves of its budget is there for the steps after it.
    A relation that is a preorder is the family that ignores the budget. *)
Section Walk.

Context {W : Type} (H : host W).
Variable R : nat -> relation (state W).
Hypothesis R_refl : forall s, R 0 s s.
Hypothesis R_trans : forall j k s1 s2 s3, R j s1 s2 -> R k s2 s3 -> R (j + k) s1 s3.
Hypothesis R_mono : forall j k s s', j <= k -> R j s s' -> R k s s'.
Hypothesis R_frame : forall s s', frame machine_event s s' -> R 0 s s'.

#[local] Instance walk_preorder : PreOrder (R 0).
Proof.
  split; [exact R_refl|].
  intros s1 s2 s3 H1 H2. exact (R_trans 0 0 s1 s2 s3 H1 H2).
Qed.

Lemma walk_leaf {A} (m : M W A) : preserves (frame machine_event) m -> preserves (R 0) m.
Proof. intros Hm s. apply R_frame, Hm. Qed.

Lemma walk_weaken {A} k (m : M W A) : preserves (R 0) m -> preserves (R k) m.
Proof. intros Hm s. apply (R_mono 0 k); [lia|apply Hm]. Qed.

Lemma walk_bind {A B} j k (m : M W A) (f : A -> M W B) :
  preserves (R j) m -> (forall a, preserves (R k) (f a)) ->
  preserves (R (j + k)) (m ≫= f).
Proof.
  intros Hm Hf s. unfold mbind, M_bind. specialize (Hm s).
  destruct (m s) as [[a|e|] s']; simpl in *.
  - eapply R_trans; [exact Hm|apply Hf].
  - apply (R_mono j); [lia|exact Hm].
  - apply (R_mono j); [lia|exact Hm].
Qed.

Lemma walk_bind_first {A B} k (m : M W A) (f : A -> M W B) :
  preserves (R 0) m -> (forall a, preserves (R k) (f a)) -> preserves (R k) (m ≫= f).
Proof. intros Hm Hf. exact (walk_bind 0 k m f Hm Hf). Qed.

Lemma walk_bind_last {A B} k (m : M W A) (f : A -> M W B) :
  preserves (R k) m -> (forall a, preserves (R 0) (f a)) -> preserves (R k) (m ≫= f).
Proof.
  intros Hm Hf. pose proof (walk_bind k 0 m f Hm Hf) as Hb.
  rewrite Nat.add_0_r in Hb. exact Hb.
Qed.

Lemma walk_try {A} k (m : M W A) h :
  preserves (R k) m -> (forall e, preserves (R 0) (h e)) ->
  preserves (R k) (try_except m h).
Proof.
  intros Hm Hh s. unfold try_except. specialize (Hm s).
  destruct (m s) as [[a|e|] s']; simpl in *; auto.
  rewrite <- (Nat.add_0_r k). eapply R_trans; [exact Hm|apply Hh].
Qed.

Variable m : string.
Hypothesis R_paths : forall f : component W -> component W,
  (forall c, static (f c) = static c) ->
  forall s, R 0 s (set_defined (alter f m (defined s)) s).

Variables kc kb kg kx : nat.
Hypothesis R_configure : forall s, R kc s (set_trace (trace s ++ [EConfigure m]) s).
Hypothesis R_build : forall s, R kb s (set_trace (trace s ++ [EBuild m]) s).
Hypothesis R_get : forall s, R kg s (set_trace (trace s ++ [EGet m]) s).
Hypothesis R_commands : forall s, R kx s (set_trace (trace s ++ [ECommands m]) s).

Let leaf_event : forall e, machine_event e -> machine_event e := fun e He => He.

Ltac leaf :=
  apply walk_leaf;
  first
    [ apply preserves_self | apply preserves_Clone | apply preserves_update_env
    | apply preserves_set_environment | apply preserves_has_missing_targets
    | apply preserves_is_installed | apply preserves_has_missing_system_deps
    | apply preserves_check_installed_package | apply preserves_ensure_dir_exists
    | apply preserves_rm_old_dir | apply preserves_save_component_prefix
    | apply preserves_get_prebuilt_path | apply preserves_get_prefixes
    | apply preserves_get_src_path | apply preserves_get_config
    | apply preserves_load_config | apply preserves_resolve_patches
    | apply preserves_patch_rpaths | apply preserves_run_commands
    | apply preserves_retriever_get ];
  exact leaf_event.

Ltac paths := intros ?; simpl; apply R_paths; reflexivity.

(** A computation that spends nothing. *)
Ltac free :=
  repeat first
    [ solve [leaf]
    | solve [paths]
    | solve [auto]
    | pres_step ].

(** One step of the walk: what comes first spends nothing. *)
Ltac walk :=
  lazymatch goal with
  | |- preserves (R 0) _ => solve [free]
  | |- preserves (R _) (_ ≫= _) => apply walk_bind_first; [solve [free]|intros]
  | |- preserves (R _) (if ?b then _ else _) => destruct b
  | |- preserves (R _) (match ?x with _ => _ end) => destruct x
  | |- preserves (R _) _ => apply walk_weaken; solve [free]
  end.

Lemma walk_log_configure : preserves (R kc) (log (EConfigure m) : M W unit).
Proof. intros s. apply R_configure. Qed.

Lemma walk_configure : preserves (R kc) (configure H m).
Proof.
  unfold configure, update_self. apply walk_bind_last; [apply walk_log_configure|].
  intros _. free.
Qed.

Lemma walk_get : preserves (R kg) (get H m).
Proof.
  unfold get. repeat walk.
  apply walk_bind_last; [intros s; apply R_get|]. intros _. free.
Qed.

Lemma walk_modify_prefix : preserves (R 0) (_modify_prefix H m).
Proof. unfold _modify_prefix. free. Qed.

Section Rec.

Variable require_rec : nat -> list string -> require_kw -> M W bool.
Hypothesis R_rec : forall env comps kw, preserves (R 0) (require_rec env comps kw).

Lemma walk_check_user_options env needed_libs :
  preserves (R 0) (_check_user_options H require_rec m env needed_libs).
Proof. unfold _check_user_options. free. Qed.

Lemma walk_build env needed_libs :
  preserves (R (kb + (kg + kx))) (build H require_rec m env needed_libs).
Proof.
  unfold build. apply walk_bind; [intros s; apply R_build|]. intros _.
  apply walk_bind_first; [free|]. intros sys.
  apply walk_bind_first; [free|]. intros envcopy.
  apply walk_bind_first; [apply walk_check_user_options|]. intros stop.
  destruct stop; [apply walk_weaken; free|].
  apply walk_bind_first; [free|]. intros c.
  apply walk_bind_first; [free|]. intros _.
  destruct (truthy_opt (prebuilt_path c)); [apply walk_weaken; free|].
  apply walk_bind_first; [free|]. intros s.
  apply walk_bind_first; [free|]. intros [build_dep missing_targets].
  apply walk_bind_last; [|intros changes; free].
  destruct build_dep; [|apply walk_weaken; free].
  apply walk_bind_first; [free|]. intros missing.
  apply walk_bind_first; [free|]. intros _.
  apply walk_bind; [apply walk_get|]. intros _.
  apply walk_bind_first; [free|]. intros _.
  apply walk_bind_first; [free|]. intros _.
  apply walk_bind_first; [free|]. intros pp.
  apply walk_bind_first; [free|]. intros _.
  apply walk_bind_first; [free|]. intros _.
  apply walk_bind_last; [intros s'; apply R_commands|]. intros _. free.
Qed.

End Rec.

End Walk.

(** The operations below [require] that keep the frame. *)
Ltac frame_leaf :=
  first
    [ apply preserves_self | apply preserves_Clone | apply preserves_update_env
    | apply preserves_set_environment | apply preserves_has_missing_targets
    | apply preserves_is_installed | apply preserves_has_missing_system_deps
    | apply preserves_check_installed_package | apply preserves_ensure_dir_exists
    | apply preserves_rm_old_dir | apply preserves_save_component_prefix
    | apply preserves_get_prebuilt_path | apply preserves_get_prefixes
    | apply preserves_get_src_path | apply preserves_get_config
    | apply preserves_load_config | apply preserves_resolve_patches
    | apply preserves_patch_rpaths | apply preserves_run_commands
    | apply preserves_retriever_get ];
  let e := fresh in let He := fresh in intros e He; exact He.

(** ** A walk through [require]

    A preorder that the steps of every component but [n] respect, and
    that [require] of [n] alone respects, is respected by [require]. *)
Section RequireWalk.

Context {W : Type} (H : host W).
Variable R : relation (state W).
Context `{!PreOrder R}.
Hypothesis R_frame : forall s s', frame machine_event s s' -> R s s'.
Variable special : string -> Prop.
Context `{!forall m, Decision (special m)}.
Hypothesis R_paths : forall m (f : component W -> component W),
  ~ special m -> (forall c, static (f c) = static c) ->
  forall s, R s (set_defined (alter f m (defined s)) s).
Hypothesis R_log : forall m e,
  ~ special m -> e ∈ work_of m ->
  forall s : state W, R s (set_trace (trace s ++ [e]) s).
Hypothesis R_required : forall m (s : state W),
  ~ special m -> R s (set_required (<[m := false]> (required s)) s).
Hypothesis R_errors : forall m e (s : state W),
  ~ special m -> R s (set_errors (<[m := e]> (errors s)) s).
Hypothesis R_special : forall m rec env kw,
  special m ->
  (forall env comps kw, preserves R (rec env comps kw)) ->
  preserves R (require_one H rec env kw m).

Ltac free :=
  repeat first
    [ solve [apply (preserves_weaken (frame machine_event)); [exact R_frame|frame_leaf]]
    | solve [auto]
    | pres_step ].

Lemma walk_require_one rec env kw m :
  (forall env comps kw, preserves R (rec env comps kw)) ->
  preserves R (require_one H rec env kw m).
Proof.
  intros Hrec. destruct (decide (special m)) as [Hs|Hm]; [apply R_special; assumption|].
  assert (forall e, e ∈ work_of m -> forall s : state W,
            R s (set_trace (trace s ++ [e]) s)) as Hlog.
  { intros e He. apply (R_log m); assumption. }
  assert (preserves R (configure H m)) as Hconfigure.
  { apply (walk_configure H (fun _ => R)); auto.
    - intros s. reflexivity.
    - intros _ _ s1 s2 s3. apply transitivity.
    - intros s. apply Hlog. set_solver. }
  assert (forall env needed_libs, preserves R (build H rec m env needed_libs))
    as Hbuild.
  { intros env' nl. apply (walk_build H (fun _ => R)) with (kb := 0) (kg := 0) (kx := 0);
      auto.
    - intros s. reflexivity.
    - intros _ _ s1 s2 s3. apply transitivity.
    - intros s. apply Hlog. set_solver.
    - intros s. apply Hlog. set_solver.
    - intros s. apply Hlog. set_solver. }
  assert (preserves R (_modify_prefix H m)) as Hprefix.
  { apply (walk_modify_prefix H (fun _ => R)); auto.
    - intros s. reflexivity.
    - intros _ _ s1 s2 s3. apply transitivity. }
  unfold require_one. free.
  - intros s. apply R_required, Hm.
  - intros s. apply R_required, Hm.
  - intros s. apply R_errors, Hm.
Qed.

Lemma walk_require_loop rec env kw comps changes :
  (forall env comps kw, preserves R (rec env comps kw)) ->
  preserves R (require_loop H rec env kw comps changes).
Proof.
  intros Hrec. revert changes. induction comps as [|comp rest IH]; intros changes; simpl.
  - apply preserves_ret; exact _.
  - apply preserves_bind; [exact _|apply walk_require_one, Hrec|]. intros a. apply IH.
Qed.

Lemma walk_require fuel env comps kw : preserves R (require H fuel env comps kw).
Proof.
  revert env comps kw. induction fuel as [|fuel IH]; intros env comps kw; simpl.
  - apply preserves_out_of_fuel; exact _.
  - apply walk_require_loop, IH.
Qed.

End RequireWalk.

(** ** Calls that return *)
Section Returns.

Context {W : Type} (H : host W).

Lemma returns_yields {A} (m : M W A) :
  returns m <-> yields (fun _ => True) (fun _ _ => True) m.
Proof.
  split.
  - intros Hm s _. destruct (Hm s) as (a & s' & Hr). exists a, s'. auto.
  - intros Hm s. destruct (Hm s I) as (a & s' & Hr & _). exists a, s'. auto.
Qed.

#[local] Instance anything_preorder : PreOrder (fun _ _ : state W => True).
Proof. split; auto. Qed.

Lemma returns_update_env i f : returns (update_env i f : M W unit).
Proof. intros s. eexists _, _. reflexivity. Qed.

Lemma returns_parse_config c env opts : returns (parse_config H c env opts).
Proof.
  intros s. destruct (parse_config_run H c env opts s) as (s' & Hr & _).
  exists tt, s'. exact Hr.
Qed.

Lemma returns_has_missing_targets n env : returns (has_missing_targets H n env).
Proof.
  intros s. pose proof (has_missing_targets_run H n env s) as Hr. simpl in Hr.
  destruct (targets_found (default (no_component) (defined s !! n))).
  - eexists _, _. exact Hr.
  - destruct Hr as (missing & s' & parse & results & Hr & _). eexists _, _. exact Hr.
Qed.

Lemma returns_set_environment c env needed_libs :
  no_prefix_yet c = false -> returns (set_environment H c env needed_libs).
Proof.
  intros Hp. apply returns_yields. unfold set_environment.
  assert (forall i f, yields (fun _ => True) (fun _ _ => True)
            (update_env i f : M W unit)) as Hu.
  { intros i f. apply returns_yields, returns_update_env. }
  assert (forall opts, yields (fun _ => True) (fun _ _ => True)
            (parse_config H c env opts)) as Hc.
  { intros opts. apply returns_yields, returns_parse_config. }
  destruct (component_prefix c) as [cp|] eqn:Hcp.
  - simpl. repeat first [ solve [auto] | yields_step ].
  - unfold no_prefix_yet in Hp. rewrite Hcp in Hp.
    destruct (use_installed c); [|discriminate Hp].
    simpl. repeat first [ solve [auto] | yields_step ].
Qed.


End Returns.

(** ** The exception cached for a name *)
Section Errors.

Context {W : Type} (H : host W).

#[local] Instance keeps_error_preorder n e : PreOrder (@keeps_error W n e).
Proof.
  split.
  - intros s Hs. exact Hs.
  - intros s1 s2 s3 H12 H23 Hs. apply H23, H12, Hs.
Qed.

#[local] Instance stays_defined_preorder n : PreOrder (@stays_defined W n).
Proof.
  split.
  - intros s Hs. exact Hs.
  - intros s1 s2 s3 H12 H23 Hs. apply H23, H12, Hs.
Qed.

Lemma frame_is_defined Pe (s s' : state W) n :
  frame Pe s s' -> is_Some (defined s !! n) -> is_Some (defined s' !! n).
Proof.
  intros Hf [c Hc]. pose proof (frame_defined _ _ _ Hf) as Hd.
  apply (f_equal (fun d => d !! n)) in Hd. rewrite !lookup_fmap, Hc in Hd.
  destruct (defined s' !! n); [eauto|discriminate Hd].
Qed.

Lemma alter_is_defined (f : component W -> component W) m n (s : state W) :
  is_Some (defined s !! n) ->
  is_Some (defined (set_defined (alter f m (defined s)) s) !! n).
Proof.
  intros [c Hc]. simpl. destruct (decide (m = n)) as [->|Hne].
  - rewrite lookup_alter_eq, Hc. simpl. eauto.
  - rewrite lookup_alter_ne by exact Hne. eauto.
Qed.

(** A defined name stays defined. *)
Lemma stays_defined_require n fuel env comps kw :
  preserves (stays_defined n) (require H fuel env comps kw).
Proof.
  apply walk_require with (special := fun _ => False).
  - exact _.
  - intros s s' Hf Hs. eapply frame_is_defined; eauto.
  - exact _.
  - intros m f _ _ s Hs. apply alter_is_defined, Hs.
  - intros m ev _ _ s Hs. exact Hs.
  - intros m s _ Hs. exact Hs.
  - intros m e' s _ Hs. exact Hs.
  - intros m rec env' kw' [].
Qed.

(** A name with a cached exception: [require] of it raises the
    exception at once. *)
Lemma require_one_replays rec n c e env kw (s : state W) :
  defined s !! n = Some c -> errors s !! n = Some e ->
  require_one H rec env kw n s = (Raise e, s).
Proof.
  intros Hd He. unfold require_one. rewrite bind_gets. unfold id.
  rewrite Hd, He. reflexivity.
Qed.

Lemma require_replays n c e fuel env rest kw (s : state W) :
  defined s !! n = Some c -> errors s !! n = Some e ->
  require H (S fuel) env (n :: rest) kw s = (Raise e, s).
Proof.
  intros Hd He. cbn [require require_loop].
  apply bind_raise. eapply require_one_replays; eassumption.
Qed.






End Errors.



(** Nor is the exception of a name required before: foo was required
    and is defined anew, its prefix not set yet, and [set_environment]
    raises where [require] replays it, outside the block that caches. *)
Example replay_error_is_not_cached :
  let s := set_required {["foo" := false]} (foo_state []) in
  let r := require build_host 2 0 ["foo"] (mkRequireKw false ∅) s in
  r.1 = Raise (TypeError "expected str, bytes or os.PathLike object, not NoneType") /\
  errors r.2 !! "foo" = None.
Proof. vm_compute. split; reflexivity. Qed.

(** ** Work done once *)
Section Once.

Context {W : Type} (H : host W).

Lemma times_app g t1 t2 : times g (t1 ++ t2) = times g t1 + times g t2.
Proof. unfold times. rewrite filter_app, length_app. reflexivity. Qed.

Lemma times_one g e : times g [e] = cost g e.
Proof.
  unfold times, cost. rewrite filter_cons, filter_nil.
  destruct (decide (same_work g e = true)) as [Ht|Hf].
  - rewrite Ht. reflexivity.
  - destruct (same_work g e); [congruence|reflexivity].
Qed.

Lemma times_machine g t : Forall machine_event t -> times g t = 0.
Proof.
  induction 1 as [|e t He _ IH]; [reflexivity|].
  change (e :: t) with ([e] ++ t). rewrite times_app, IH, times_one.
  unfold cost. destruct g, e; try reflexivity; discriminate He.
Qed.

Lemma spends_refl n g (s : state W) : spends n g 0 s s.
Proof.
  exists []. rewrite app_nil_r. split; [reflexivity|]. split.
  - intros Hs. split; [exact Hs|]. reflexivity.
  - intros _. unfold times. simpl. lia.
Qed.

Lemma spends_trans n g j k (s1 s2 s3 : state W) :
  spends n g j s1 s2 -> spends n g k s2 s3 -> spends n g (j + k) s1 s3.
Proof.
  intros (t1 & Ht1 & Hin1 & Hout1) (t2 & Ht2 & Hin2 & Hout2).
  exists (t1 ++ t2). rewrite Ht2, Ht1, app_assoc, times_app.
  split; [reflexivity|]. split.
  - intros Hs. destruct (Hin1 Hs) as [Hs2 Hj]. destruct (Hin2 Hs2) as [Hs3 Hk].
    split; [exact Hs3|lia].
  - intros Hs. specialize (Hout1 Hs).
    destruct (required s2 !! n) as [b|] eqn:H2.
    + destruct Hin2 as [[b3 H3] Hk]; [eauto|]. rewrite H3. lia.
    + specialize (Hout2 eq_refl). lia.
Qed.

Lemma spends_mono n g j k (s s' : state W) :
  j <= k -> spends n g j s s' -> spends n g k s s'.
Proof.
  intros Hjk (t & Ht & Hin & Hout). exists t. split; [exact Ht|]. split.
  - intros Hs. destruct (Hin Hs). split; [assumption|lia].
  - intros Hs. specialize (Hout Hs). lia.
Qed.

Lemma spends_frame n g (s s' : state W) :
  frame machine_event s s' -> spends n g 0 s s'.
Proof.
  intros [Hr _ _ _ _ (t & Ht & Hm)]. exists t. split; [exact Ht|].
  rewrite (times_machine g t Hm), Hr. split.
  - intros Hs. split; [exact Hs|lia].
  - intros _. lia.
Qed.

(** A change that leaves the log and what is required alone. *)
Lemma spends_quiet n g (s s' : state W) :
  trace s' = trace s -> required s' = required s -> spends n g 0 s s'.
Proof.
  intros Ht Hr. exists []. rewrite app_nil_r, Hr. split; [exact Ht|]. split.
  - intros Hs. split; [exact Hs|reflexivity].
  - intros _. unfold times. simpl. lia.
Qed.

Lemma spends_log n g e (s : state W) :
  spends n g (cost g e) s (set_trace (trace s ++ [e]) s).
Proof.
  exists [e]. split; [reflexivity|]. rewrite times_one. simpl. split.
  - intros Hs. split; [exact Hs|reflexivity].
  - intros _. lia.
Qed.

Lemma spends_required n g m (s : state W) :
  spends n g 0 s (set_required (<[m := false]> (required s)) s).
Proof.
  exists []. rewrite app_nil_r. split; [reflexivity|]. simpl.
  assert (times g [] = 0) as -> by reflexivity.
  split.
  - intros Hs. split; [|reflexivity].
    destruct (decide (m = n)) as [->|Hne].
    + rewrite lookup_insert_eq. eauto.
    + rewrite lookup_insert_ne by exact Hne. exact Hs.
  - intros _. lia.
Qed.

#[local] Instance spends_preorder n g : PreOrder (@spends W n g 0).
Proof.
  split; [intros s; apply spends_refl|].
  intros s1 s2 s3 H1 H2. exact (spends_trans n g 0 0 s1 s2 s3 H1 H2).
Qed.

Lemma cost_foreign n m g e : g ∈ work_of n -> e ∈ work_of m -> m <> n -> cost g e = 0.
Proof.
  unfold work_of, cost. intros Hg He Hne.
  assert (String.eqb n m = false) as Hnm by (apply String.eqb_neq; congruence).
  set_unfold. destruct Hg as [->|[->|[->|[->|[]]]]];
    destruct He as [->|[->|[->|[->|[]]]]]; simpl; rewrite ?Hnm; reflexivity.
Qed.

Lemma cost_once n g :
  g ∈ work_of n ->
  cost g (EConfigure n) + (cost g (EBuild n) + (cost g (EGet n) + cost g (ECommands n)))
    <= 1.
Proof.
  unfold work_of, cost. intros Hg. set_unfold.
  destruct Hg as [->|[->|[->|[->|[]]]]]; simpl; rewrite String.eqb_refl; lia.
Qed.

Ltac spends_side :=
  first
    [ apply spends_refl | apply spends_trans | apply spends_mono | apply spends_frame
    | assumption
    | intros; apply spends_log
    | intros; apply spends_quiet; reflexivity ].

(** [require] of the name [n] itself. *)
Lemma spends_require_one n g rec env kw :
  g ∈ work_of n ->
  (forall env comps kw, preserves (spends n g 0) (rec env comps kw)) ->
  preserves (spends n g 0) (require_one H rec env kw n).
Proof.
  intros Hg Hrec s. unfold require_one. rewrite bind_gets. unfold id.
  destruct (defined s !! n) as [c|]; [|apply spends_refl].
  destruct (errors s !! n) as [e|]; [apply spends_refl|].
  destruct (required s !! n) as [changed|] eqn:Hr.
  { destruct (opt_help s); [apply spends_refl|].
    match goal with
    | |- spends n g 0 s (?m s).2 => assert (preserves (spends n g 0) m) as Hm
    end; [|apply Hm].
    apply (preserves_weaken (frame machine_event)); [apply spends_frame|].
    apply preserves_bind; [apply frame_preorder|frame_leaf|]. intros _.
    destruct (opt_clean s); apply preserves_ret; apply frame_preorder. }
  rewrite bind_modify.
  set (nl := if headers_only kw then None
             else default (Some (libs c)) (kw_libs kw !! (n +:+ "_libs"))).
  set (s1 := set_required (<[n:=false]> (required s)) s).
  match goal with
  | |- spends n g 0 s (?rest s1).2 => assert (preserves (spends n g 1) rest) as Hrest
  end.
  { apply (walk_bind_first (spends n g) (spends_trans n g) (spends_mono n g)).
    { apply (preserves_weaken (frame machine_event));
        [apply spends_frame|frame_leaf]. }
    intros inst. destruct inst.
    { intros s'. apply (spends_mono n g 0); [lia|apply spends_refl]. }
    apply (walk_try (spends n g) (spends_trans n g)).
    2:{ intros e. apply preserves_bind; [exact _| |intros _; apply preserves_raise; exact _].
        intros s'. apply spends_quiet; reflexivity. }
    intros s'. eapply spends_mono; [apply (cost_once n g Hg)|]. revert s'.
    apply (walk_bind (spends n g) (spends_trans n g) (spends_mono n g)).
    { apply walk_configure with (R := spends n g); spends_side. }
    intros _.
    apply (walk_bind_last (spends n g) (spends_trans n g) (spends_mono n g)).
    { apply walk_build with (R := spends n g); spends_side. }
    intros built.
    apply preserves_bind; [exact _| |intros _].
    { destruct built.
      - intros s'. apply spends_required.
      - apply walk_modify_prefix with (R := spends n g); spends_side. }
    apply preserves_bind; [exact _| |intros c'].
    { apply (preserves_weaken (frame machine_event)); [apply spends_frame|frame_leaf]. }
    apply preserves_bind; [exact _| |intros _; apply preserves_ret; exact _].
    apply (preserves_weaken (frame machine_event)); [apply spends_frame|frame_leaf]. }
  destruct (Hrest s1) as (t & Ht & Hin & _).
  destruct Hin as [Hs' Hle].
  { unfold s1. simpl. rewrite lookup_insert_eq. eauto. }
  exists t. split; [exact Ht|]. split.
  - intros [b Hb]. rewrite Hr in Hb. discriminate Hb.
  - intros _. destruct Hs' as [b ->]. lia.
Qed.

Lemma spends_require n g fuel env comps kw :
  g ∈ work_of n -> preserves (spends n g 0) (require H fuel env comps kw).
Proof.
  intros Hg. apply walk_require with (special := fun m => m = n).
  - exact _.
  - apply spends_frame.
  - exact _.
  - intros m f _ _ s. apply spends_quiet; reflexivity.
  - intros m e Hm He s. rewrite <- (cost_foreign n m g e Hg He Hm). apply spends_log.
  - intros m s _. apply spends_required.
  - intros m e s _. apply spends_quiet; reflexivity.
  - intros m rec env' kw' -> Hrec. apply spends_require_one; assumption.
Qed.

Lemma spends_calls n g calls (s : state W) :
  g ∈ work_of n -> spends n g 0 s (run_calls H calls s).
Proof.
  intros Hg. revert s. induction calls as [|c calls IH]; intros s; simpl.
  - reflexivity.
  - etransitivity; [apply spends_require, Hg|apply IH].
Qed.

(** A name required before: what [require] of it comes to. *)
Lemma require_one_again rec n c changed env kw (s : state W) :
  defined s !! n = Some c -> errors s !! n = None ->
  required s !! n = Some changed ->
  require_one H rec env kw n s =
    (if opt_help s then mret false
     else set_environment H c env (needed_libs_of kw n c);;
          if opt_clean s then mret false else mret changed) s.
Proof.
  intros Hd He Hr. unfold require_one. rewrite bind_gets. unfold id.
  rewrite Hd, He, Hr. reflexivity.
Qed.

Lemma require_again n c changed fuel env kw (s : state W) :
  defined s !! n = Some c -> errors s !! n = None ->
  required s !! n = Some changed ->
  require H (S fuel) env [n] kw s =
    (if opt_help s then mret false
     else set_environment H c env (needed_libs_of kw n c);;
          mret (if opt_clean s then false else changed)) s.
Proof.
  intros Hd He Hr. cbn [require require_loop].
  rewrite bind_run, (require_one_again _ n c changed) by assumption.
  destruct (opt_help s); [reflexivity|]. rewrite !bind_run.
  destruct (set_environment H c env _ s) as [[[]|e|] s']; try reflexivity.
  destruct (opt_clean s); reflexivity.
Qed.

#[local] Instance flags_preorder :
  PreOrder (fun s s' : state W => flags_false s -> flags_false s').
Proof. split; [intros s Hs; exact Hs|intros s1 s2 s3 H1 H2 Hs; auto]. Qed.

(** No flag cached by [require] is ever True. *)
Lemma flags_false_require fuel env comps kw :
  preserves (fun s s' : state W => flags_false s -> flags_false s')
    (require H fuel env comps kw).
Proof.
  apply walk_require with (special := fun _ => False).
  - exact _.
  - intros s0 s' Hf Hs m b. rewrite (frame_required _ _ _ Hf). apply Hs.
  - exact _.
  - intros m f _ _ s0 Hs. exact Hs.
  - intros m e _ _ s0 Hs. exact Hs.
  - intros m s0 _ Hs k b. simpl. destruct (decide (m = k)) as [->|Hne].
    + rewrite lookup_insert_eq. congruence.
    + rewrite lookup_insert_ne by exact Hne. apply Hs.
  - intros m e s0 _ Hs. exact Hs.
  - intros m rec env' kw' [].
Qed.

Lemma required_flags_false calls (s : state W) :
  flags_false s -> flags_false (run_calls H calls s).
Proof.
  revert s. induction calls as [|c calls IH]; intros s Hs; simpl; [exact Hs|].
  apply IH. revert Hs. apply flags_false_require.
Qed.

(** C1: over any run of calls of [require], [configure], [build], the
    retrieval of the source and the build commands of a component are
    each run at most once, and not at all if the component was required
    before; and [require] of a name required before, with no exception
    cached, returns False at once in help mode, and otherwise applies
    [set_environment] of the component to the caller's environment and
    returns the flag cached for the name (False in clean mode). *)
Theorem require_builds_once (n : string) (c : component W) (s : state W) :
  defined s !! n = Some c ->
  (forall calls g, g ∈ work_of n ->
     exists t, trace (run_calls H calls s) = trace s ++ t /\
       times g t <= 1 /\
       (is_Some (required s !! n) -> times g t = 0)) /\
  (forall changed fuel env kw,
     errors s !! n = None -> required s !! n = Some changed ->
     require H (S fuel) env [n] kw s =
       (if opt_help s then mret false
        else set_environment H c env (needed_libs_of kw n c);;
             mret (if opt_clean s then false else changed)) s).
Proof.
  intros Hd. split.
  - intros calls g Hg. destruct (spends_calls n g calls s Hg) as (t & Ht & Hin & Hout).
    exists t. split; [exact Ht|]. split.
    + destruct (required s !! n) as [b|] eqn:Hr.
      * destruct Hin as [_ Hle]; [eauto|lia].
      * specialize (Hout eq_refl). destruct (required (run_calls H calls s) !! n); lia.
    + intros Hs. destruct (Hin Hs) as [_ Hle]. lia.
  - intros changed fuel env kw He Hr. eapply require_again; eassumption.
Qed.

End Once.

(** C1 at work: the registry of foo, nothing required yet. *)
Lemma require_builds_once_witness :
  (forall calls g, g ∈ work_of "foo" ->
     exists t, trace (run_calls build_host calls (foo_state []))
               = trace (foo_state []) ++ t /\
       times g t <= 1 /\
       (is_Some (required (foo_state []) !! "foo") -> times g t = 0)) /\
  (forall changed fuel env kw,
     errors (foo_state []) !! "foo" = None ->
     required (foo_state []) !! "foo" = Some changed ->
     require build_host (S fuel) env ["foo"] kw (foo_state []) =
       (if opt_help (foo_state []) then mret false
        else set_environment build_host foo_component env
               (needed_libs_of kw "foo" foo_component);;
             mret (if opt_clean (foo_state []) then false else changed))
         (foo_state [])).
Proof.
  exact (require_builds_once build_host "foo" foo_component (foo_state []) eq_refl).
Defined.

(** C1 as stated fails in help mode: the first [require] of foo returns
    True; the second, for another environment, returns False and leaves
    the environment as it was, where [set_environment] would have added
    the library directory of the system to RPATH. *)
Lemma require_again_in_help_mode :
  help_first.1 = Ok true /\
  require build_host 2 1 ["foo"] (mkRequireKw false ∅) help_first.2
    = (Ok false, help_first.2) /\
  cvar "RPATH" (the_env 1 help_first.2) = [] /\
  cvar "RPATH"
    (the_env 1 (set_environment build_host help_foo 1 (Some ["foo"]) help_first.2).2)
    = ["/usr/lib"].
Proof. vm_compute. repeat split. Qed.

(** ** A component without retriever *)
Section Prebuilt.

Context {W : Type} (H : host W).
Variable n : string.

#[local] Instance stays_prebuilt_preorder : PreOrder (@stays_prebuilt W n).
Proof.
  split.
  - intros s Hs. split; [exact Hs|]. exists []. rewrite app_nil_r. auto.
  - intros s1 s2 s3 H12 H23 Hs.
    destruct (H12 Hs) as (Hs2 & t1 & Ht1 & Hf1).
    destruct (H23 Hs2) as (Hs3 & t2 & Ht2 & Hf2).
    split; [exact Hs3|]. exists (t1 ++ t2).
    rewrite Ht2, Ht1, app_assoc. split; [reflexivity|]. apply Forall_app; auto.
Qed.







Lemma bind_update_self {B} m f (k : unit -> M W B) (s : state W) :
  (update_self m f ≫= k) s = k tt (set_defined (alter f m (defined s)) s).
Proof. reflexivity. Qed.




Section Rec.

Variable require_rec : nat -> list string -> require_kw -> M W bool.
Hypothesis rec_stays : forall env comps kw,
  preserves (stays_prebuilt n) (require_rec env comps kw).




End Rec.




End Prebuilt.


(** * More of the engine: the runner and the retrievers *)
Section Runner.

Context {W : Type} (H : host W).

(** In a dry run [run_commands] runs nothing and returns True. *)
Lemma run_commands_loop_dry_run self_env passed_env subdir commands (s : state W) :
  runner_dry_run s = true ->
  for_return commands (fun command =>
     s ← gets id;
     let cmd := expand_command H (the_env self_env s) (num_jobs s) command in
     if runner_dry_run s then mret None
     else
       match subprocess_call H (world s) cmd subdir (ENV (the_env passed_env s)) with
       | Some (rc, w) =>
           modify (set_world w);;
           log (ERun cmd subdir);;
           if negb (Z.eqb rc 0) then mret (Some false) else mret None
       | None =>
           log (ERun cmd subdir);;
           raise (spawn_error cmd)
       end) s
  = (Ok (None : option bool), s).
Proof.
  intros Hdry. induction commands as [|command rest IH]; [reflexivity|].
  cbn [for_return]. rewrite bind_run, bind_gets. change (id s) with s.
  rewrite Hdry. exact IH.
Qed.

(** X1: an initialised runner in a dry run returns True for any commands
    and changes nothing: no command is run. *)
Theorem run_commands_dry_run commands subdir env (s : state W) :
  runner_ready s -> runner_dry_run s = true ->
  run_commands H commands subdir env s = (Ok true, s).
Proof.
  intros [self_env Hr] Hdry. unfold run_commands. rewrite bind_gets, Hr.
  rewrite bind_run, run_commands_loop_dry_run by exact Hdry. reflexivity.
Qed.



End Runner.

(** A dry run: the two commands are not run. *)
Lemma run_commands_dry_run_witness :
  run_commands build_host [["make"]; ["make"; "install"]] None None dry_run_state
  = (Ok true, dry_run_state).
Proof.
  apply (run_commands_dry_run build_host [["make"]; ["make"; "install"]] None None
           dry_run_state).
  - vm_compute. eauto.
  - reflexivity.
Defined.


(** The second command cannot be started: its exception leaves
    [run_commands] after the first command ran. *)
Example run_commands_cannot_start_make :
  let r := run_commands (with_programs ["curl"; "git"] build_host)
             [["git"; "status"]; ["make"; "install"]] None None (foo_state []) in
  r.1 = Raise (IOError "subprocess.call" "make") /\
  trace r.2 = [ERun ["git"; "status"] None; ERun ["make"; "-j"; "1"; "install"] None].
Proof. vm_compute. split; reflexivity. Qed.

Section Extract.

Context {W : Type} (H : host W).

Lemma lcp_prefix a b : String.eqb (Str.lcp a b) a = String.prefix a b.
Proof.
  revert b. induction a as [|x a IH]; intros b; [destruct b; reflexivity|].
  destruct b as [|y b]; [reflexivity|]. simpl.
  destruct (Ascii.eqb_spec x y) as [->|Hne].
  - destruct (ascii_dec y y) as [_|Hn]; [|congruence].
    simpl. rewrite Ascii.eqb_refl. apply IH.
  - destruct (ascii_dec x y) as [He|_]; [congruence|]. reflexivity.
Qed.

(** X3: [is_within_directory] holds exactly when the absolute directory
    is a prefix, character by character, of the absolute target. *)
Theorem is_within_directory_prefix (cwd directory target : string) :
  is_within_directory cwd directory target
  = Str.startswith (Path.abspath cwd target) (Path.abspath cwd directory).
Proof. unfold is_within_directory, Path.commonprefix. simpl. apply lcp_prefix. Qed.

Lemma safe_extract_check cwd path members (s : state W) :
  for_each members (fun member_name =>
    if negb (is_within_directory cwd path (Path.join path member_name))
    then raise (PyException "Attempted Path Traversal in Tar File")
    else mret tt) s
  = if forallb (fun m => is_within_directory cwd path (Path.join path m)) members
    then (Ok tt, s)
    else (Raise (PyException "Attempted Path Traversal in Tar File"), s).
Proof.
  induction members as [|m rest IH]; [reflexivity|].
  cbn [for_each forallb]. rewrite bind_run.
  destruct (is_within_directory cwd path (Path.join path m)); simpl; [exact IH|].
  reflexivity.
Qed.

(** X4: [safe_extract] checks every member before it extracts anything:
    when a member fails [is_within_directory] it raises with the machine
    untouched and the archive is not extracted; when all pass, the whole
    archive is extracted in one call. *)
Theorem safe_extract_checks_first archive members path (s : state W) :
  safe_extract H archive members path s =
    if forallb (fun m => is_within_directory (os_getcwd H (world s)) path
                           (Path.join path m)) members
    then
      match tar_extractall H (world s) archive path with
      | Some w' =>
          (Ok tt, set_trace (trace s ++ [EExtractAll archive path]) (set_world w' s))
      | None => (Raise (IOError "extractall" archive), s)
      end
    else (Raise (PyException "Attempted Path Traversal in Tar File"), s).
Proof.
  unfold safe_extract. rewrite bind_gets, bind_run, safe_extract_check.
  destruct (forallb _ members); [|reflexivity].
  rewrite bind_gets. destruct (tar_extractall H (world s) archive path); reflexivity.
Qed.

(** X5: when [ensure_dir_exists] returns, the directory is there, unless
    it was absent in a dry run, where nothing is done. *)
Theorem ensure_dir_exists_spec dirname dry_run (s s' : state W) :
  ensure_dir_exists H dirname dry_run s = (Ok tt, s') ->
  (os_path_exists H (world s) dirname = false /\ dry_run = true /\ s' = s) \/
  os_path_isdir H (world s') dirname = true.
Proof.
  unfold ensure_dir_exists, mbind, M_bind, gets, mret, M_ret, modify, log, raise.
  destruct (os_path_exists H (world s) dirname) eqn:Hex; simpl.
  - destruct (os_path_isdir H (world s) dirname) eqn:Hd; simpl; [|discriminate].
    intros [= <-]. right. exact Hd.
  - destruct dry_run; simpl; [intros [= <-]; left; auto|].
    destruct (os_makedirs H (world s) dirname) as [w'|]; simpl.
    + destruct (os_path_isdir H w' dirname) eqn:Hd; simpl; [|discriminate].
      intros [= <-]. right. exact Hd.
    + destruct (os_path_isdir H (world s) dirname) eqn:Hd; simpl; [|discriminate].
      rewrite Hd. simpl. intros [= <-]. right. exact Hd.
Qed.

End Extract.

(** The directory is absent and is made. *)
Lemma ensure_dir_exists_spec_witness :
  ensure_dir_exists build_host "/install/prereq" false (test_state [])
    = (Ok tt, (ensure_dir_exists build_host "/install/prereq" false (test_state [])).2) /\
  ((os_path_exists build_host (world (test_state [])) "/install/prereq" = false /\
    false = true /\
    (ensure_dir_exists build_host "/install/prereq" false (test_state [])).2
      = test_state []) \/
   os_path_isdir build_host
     (world (ensure_dir_exists build_host "/install/prereq" false (test_state [])).2)
     "/install/prereq" = true).
Proof.
  assert (ensure_dir_exists build_host "/install/prereq" false (test_state [])
          = (Ok tt, (ensure_dir_exists build_host "/install/prereq" false
                       (test_state [])).2)) as Hrun by (vm_compute; reflexivity).
  split; [exact Hrun|].
  exact (ensure_dir_exists_spec build_host "/install/prereq" false (test_state []) _ Hrun).
Defined.

(** * What the retrievers may raise *)
Section Raises.

Context {W : Type} (Q : state W -> Prop) (P : exn -> Prop).

Lemma raises_ret {A} (a : A) : raises_in Q P (mret a : M W A).
Proof. intros s Hs. split; [exact Hs|]. intros e [=]. Qed.

Lemma raises_raise {A} e : P e -> raises_in Q P (raise e : M W A).
Proof. intros He s Hs. split; [exact Hs|]. intros e' [= <-]. exact He. Qed.

Lemma raises_gets {A} (f : state W -> A) : raises_in Q P (gets f).
Proof. intros s Hs. split; [exact Hs|]. intros e [=]. Qed.

Lemma raises_modify (f : state W -> state W) :
  (forall s, Q s -> Q (f s)) -> raises_in Q P (modify f).
Proof. intros Hf s Hs. split; [apply Hf, Hs|]. intros e [=]. Qed.

Lemma raises_bind {A B} (m : M W A) (f : A -> M W B) :
  raises_in Q P m -> (forall a, raises_in Q P (f a)) -> raises_in Q P (m ≫= f).
Proof.
  intros Hm Hf s Hs. rewrite bind_run. destruct (Hm s Hs) as [Hs' He].
  destruct (m s) as [[a|e|] s']; simpl in *.
  - apply Hf, Hs'.
  - split; [exact Hs'|]. intros e' [= <-]. apply He. reflexivity.
  - split; [exact Hs'|]. intros e' [=].
Qed.

(** What is read from the state is read where [Q] holds. *)
Lemma raises_gets_bind {A B} (f : state W -> A) (k : A -> M W B) :
  (forall a, (exists s, Q s /\ f s = a) -> raises_in Q P (k a)) ->
  raises_in Q P (gets f ≫= k).
Proof. intros Hk s Hs. rewrite bind_gets. apply Hk; eauto. Qed.

Lemma raises_for_each {A} (l : list A) (body : A -> M W unit) :
  (forall x, raises_in Q P (body x)) -> raises_in Q P (for_each l body).
Proof.
  intros Hb. induction l; simpl; [apply raises_ret|].
  apply raises_bind; auto.
Qed.

Lemma raises_for_return {A B} (l : list A) (body : A -> M W (option B)) :
  (forall x, raises_in Q P (body x)) -> raises_in Q P (for_return l body).
Proof.
  intros Hb. induction l; simpl; [apply raises_ret|].
  apply raises_bind; auto. intros [v|]; auto using raises_ret.
Qed.

End Raises.

Lemma raises_weaken {W A} (Q : state W -> Prop) (P P' : exn -> Prop) (m : M W A) :
  (forall e, P e -> P' e) -> raises_in Q P m -> raises_in Q P' m.
Proof. intros HP Hm s Hs. destruct (Hm s Hs) as [Hs' He]. split; auto. Qed.


Ltac raises_step :=
  lazymatch goal with
  | |- raises_in _ _ (mret _) => apply raises_ret
  | |- raises_in _ _ (gets _) => apply raises_gets
  | |- raises_in _ _ (_ ≫= _) => apply raises_bind; [|intros]
  | |- raises_in _ _ (for_each _ _) => apply raises_for_each; intros
  | |- raises_in _ _ (for_return _ _) => apply raises_for_return; intros
  | |- raises_in _ _ (if ?b then _ else _) => destruct b
  | |- raises_in _ _ (match ?x with _ => _ end) => destruct x
  | |- raises_in _ _ (let '(_, _) := ?x in _) => destruct x
  end.

Section RetrieverErrors.

Context {W : Type} (H : host W).
Variable Q : state W -> Prop.
Hypothesis Q_ready : forall s, Q s -> runner_ready s.
Hypothesis Q_world : forall s w, Q s -> Q (set_world w s).
Hypothesis Q_trace : forall s t, Q s -> Q (set_trace t s).

Lemma raises_log P e : raises_in Q P (log e : M W unit).
Proof. apply raises_modify. intros s Hs. apply Q_trace, Hs. Qed.

(** What an initialised runner raises is the exception of a command
    that could not be started. *)
Lemma raises_run_commands (P : exn -> Prop) commands subdir env :
  (forall e, spawn_failure e -> P e) ->
  raises_in Q P (run_commands H commands subdir env).
Proof.
  intros HP. unfold run_commands. apply raises_gets_bind. intros renv (s & Hs & <-).
  destruct (Q_ready s Hs) as [self_env ->].
  repeat first
    [ apply raises_log
    | apply raises_raise; apply HP; eexists; reflexivity
    | apply raises_modify; intros; apply Q_world; assumption
    | raises_step ].
Qed.





End RetrieverErrors.

Section GitErrors.

Context {W : Type} (H : host W).
Variables (r : nat) (url subdir : string).

(** The runner is initialised and the retriever [r] has the url [url]. *)
Let Q (s : state W) : Prop :=
  runner_ready s /\ git_url (retrievers s !! r) = url.

Let P (e : exn) : Prop := e = DownloadFailure url subdir \/ spawn_failure e.

Lemma git_ready s : Q s -> runner_ready s.
Proof. intros [Hs _]. exact Hs. Qed.

Lemma git_world s w : Q s -> Q (set_world w s).
Proof. intros Hs. exact Hs. Qed.

Lemma git_trace s t : Q s -> Q (set_trace t s).
Proof. intros Hs. exact Hs. Qed.

Lemma git_run commands sub env : raises_in Q P (run_commands H commands sub env).
Proof.
  apply raises_run_commands; [apply git_ready|apply git_world|apply git_trace|].
  intros e He. right. exact He.
Qed.

Lemma git_self {A} (k : option retriever -> M W A) :
  (forall self, git_url self = url -> raises_in Q P (k self)) ->
  raises_in Q P (self_retriever r ≫= k).
Proof.
  intros Hk. unfold self_retriever. apply raises_gets_bind.
  intros self (s & [_ Hs] & <-). apply Hk, Hs.
Qed.

Lemma git_update f :
  (forall x, git_url (Some (f x)) = git_url (Some x)) ->
  raises_in Q P (update_retriever r f).
Proof.
  intros Hf. apply raises_modify. intros s [Hs Hu]. split; [exact Hs|].
  simpl. rewrite list_lookup_alter_eq.
  destruct (retrievers s !! r) as [x|]; simpl; [|exact Hu].
  rewrite <- Hu. apply Hf.
Qed.

Lemma git_failure {A} self : git_url self = url ->
  raises_in Q P (raise (DownloadFailure (git_url self) subdir) : M W A).
Proof. intros ->. apply raises_raise. left. reflexivity. Qed.

Ltac git_step :=
  lazymatch goal with
  | |- raises_in _ _ (run_commands _ _ _ _) => apply git_run
  | |- raises_in _ _ (self_retriever _ ≫= _) => apply git_self; intros
  | |- raises_in _ _ (raise _) => apply git_failure; assumption
  | |- raises_in _ _ (update_retriever _ _) =>
      apply git_update; intros []; reflexivity
  | |- _ => raises_step
  end.

Ltac git := repeat git_step.

Lemma raises_checkout_commit : raises_in Q P (checkout_commit H r subdir).
Proof. unfold checkout_commit. git. Qed.

Lemma raises_checkout_or_fetch rev : raises_in Q P (checkout_or_fetch H r subdir rev).
Proof. unfold checkout_or_fetch. git. Qed.

Lemma raises_update_submodules : raises_in Q P (_update_submodules H r subdir).
Proof. unfold _update_submodules. git. Qed.

Lemma raises_apply_patches patches : raises_in Q P (_apply_patches H r subdir patches).
Proof. unfold _apply_patches. git. Qed.

Ltac git_call :=
  lazymatch goal with
  | |- raises_in _ _ (checkout_commit _ _ _) => apply raises_checkout_commit
  | |- raises_in _ _ (checkout_or_fetch _ _ _ _) => apply raises_checkout_or_fetch
  | |- raises_in _ _ (_update_submodules _ _ _) => apply raises_update_submodules
  | |- raises_in _ _ (_apply_patches _ _ _ _) => apply raises_apply_patches
  | |- _ => git_step
  end.

Lemma raises_get_specific kw : raises_in Q P (_get_specific H r subdir kw).
Proof. unfold _get_specific. repeat git_call. Qed.

Lemma raises_git_get kw : raises_in Q P (git_get H r subdir kw).
Proof.
  unfold git_get.
  repeat lazymatch goal with
         | |- raises_in _ _ (_get_specific _ _ _ _) => apply raises_get_specific
         | |- _ => git_step
         end.
Qed.

End GitErrors.

Section RetrieverTheorems.

Context {W : Type} (H : host W).

(** X6: with the runner initialised, every failure that
    [GitRepoRetriever.get] reports itself is the DownloadFailure of the
    retriever's url and the directory: the missing commit SHA, a failed
    clone, a checkout that fails again after the fetch, a failed reset,
    submodule update or patch.  The one other exception that leaves it
    is that of [subprocess.call] for a command that cannot be started. *)
Theorem git_get_raises_download_failure (r : nat) (subdir : string) (kw : get_kw)
    (s s' : state W) (e : exn) :
  runner_ready s ->
  git_get H r subdir kw s = (Raise e, s') ->
  e = DownloadFailure (git_url (retrievers s !! r)) subdir \/ spawn_failure e.
Proof.
  intros Hr Hrun.
  destruct (raises_git_get H r (git_url (retrievers s !! r)) subdir kw s) as [_ He].
  { split; [exact Hr|reflexivity]. }
  apply He. rewrite Hrun. reflexivity.
Qed.


End RetrieverTheorems.

(** The clone cannot be started on a machine without git. *)
Lemma git_get_raises_download_failure_witness :
  let h := with_programs ["curl"] build_host in
  let kw := mkGetKw (Some "abc123") None (Some []) in
  runner_ready git_state /\
  (git_get h 0 "/build/external/foo" kw git_state).1
    = Raise (IOError "subprocess.call" "git") /\
  (IOError "subprocess.call" "git"
     = DownloadFailure (git_url (retrievers git_state !! 0)) "/build/external/foo" \/
   spawn_failure (IOError "subprocess.call" "git")).
Proof.
  assert (runner_ready git_state) as Hr by (vm_compute; eauto).
  split; [exact Hr|]. split; [reflexivity|].
  exact (git_get_raises_download_failure (with_programs ["curl"] build_host) 0
           "/build/external/foo" (mkGetKw (Some "abc123") None (Some [])) git_state
           _ _ Hr eq_refl).
Defined.

(** A branch and no commit SHA: the DownloadFailure of the url. *)
Example git_get_reports_download_failure :
  git_get build_host 0 "/build/external/foo" (mkGetKw None (Some "main") None) git_state
  = (Raise (DownloadFailure "https://example.org/foo.git" "/build/external/foo"),
     git_state).
Proof. reflexivity. Qed.


(** The archive is not there and the download cannot start its first
    command: the exception of [subprocess.call] leaves [get]. *)
Example web_get_cannot_start_download :
  (web_get (with_programs ["curl"; "git"] build_host)
     "https://example.org/pkg-1.0.tar.gz" test_digest false "/build/external/pkg"
     (test_state [])).1
  = Raise (IOError "subprocess.call" "c").
Proof. reflexivity. Qed.

(** * More of the registry *)
Section RegistryExtras.

Context {W : Type} (H : host W).

(** An undefined name stops [require] at its first step. *)
Lemma require_undefined (n : string) (fuel env : nat) (rest : list string)
    (kw : require_kw) (s : state W) :
  defined s !! n = None ->
  require H (S fuel) env (n :: rest) kw s = (Raise (MissingDefinition n), s).
Proof.
  intros Hd. cbn [require require_loop]. apply bind_raise.
  unfold require_one. rewrite bind_gets. change (id s) with s. rewrite Hd. reflexivity.
Qed.

(** X8: [require] of a name that is not defined raises
    MissingDefinition at once and leaves the registry as it is: nothing
    is cached for the name, neither as required nor as an exception. *)
Theorem require_missing_definition (n : string) (fuel env : nat) (rest : list string)
    (kw : require_kw) (s : state W) :
  defined s !! n = None ->
  require H (S fuel) env (n :: rest) kw s = (Raise (MissingDefinition n), s).
Proof.
  exact (require_undefined n fuel env rest kw s).
Qed.

Lemma require_returned_defined n fuel env kw b (s s' : state W) :
  require H fuel env [n] kw s = (Ok b, s') -> is_Some (defined s' !! n).
Proof.
  intros Hrun. pose proof (stays_defined_require H n fuel env [n] kw s) as Hs.
  rewrite Hrun in Hs. apply Hs. clear Hs.
  destruct fuel as [|fuel]; [discriminate Hrun|].
  destruct (defined s !! n) eqn:Hd; [eauto|].
  rewrite require_undefined in Hrun by exact Hd. discriminate Hrun.
Qed.

(** What [check_component] comes to: [require] on a clone of the
    registry's environment, an exception turned into False unless
    --require-optional is given. *)
Lemma check_component_run fuel require_optional comps kw (s : state W) :
  check_component H fuel require_optional comps kw s =
    match require H fuel (length (envs s)) comps kw (Clone (reg_env s) s).2 with
    | (Ok _, s') => (Ok true, s')
    | (Raise e, s') => if require_optional then (Raise e, s') else (Ok false, s')
    | (OutOfFuel, s') => (OutOfFuel, s')
    end.
Proof.
  unfold check_component. rewrite bind_gets, bind_run. unfold Clone at 1.
  unfold try_except. rewrite bind_run. simpl snd.
  destruct (require H fuel (length (envs s)) comps kw _) as [[b|e|] s']; try reflexivity.
  destruct require_optional; reflexivity.
Qed.

(** X9: without --require-optional [is_installed] of the registry never
    raises: it answers False when [require] of the name raises, an
    undefined name included, and True only for a defined component whose
    use_installed flag is set. *)
Theorem registry_is_installed_never_raises (fuel : nat) (name : string)
    (s : state W) :
  match Registry.is_installed H fuel false name s with
  | (Ok true, s') => exists c, defined s' !! name = Some c /\ use_installed c = true
  | (Raise _, _) => False
  | _ => True
  end.
Proof.
  unfold Registry.is_installed. rewrite bind_run, check_component_run.
  destruct (require H fuel (length (envs s)) [name] _ _) as [[b|e|] s'] eqn:Hreq;
    [|exact I|exact I].
  rewrite bind_gets.
  destruct (require_returned_defined _ _ _ _ _ _ _ Hreq) as [c Hc]. rewrite Hc.
  unfold mret, M_ret. destruct (use_installed c) eqn:Hu; [eauto|exact I].
Qed.

(** X10: [require] leaves what the registry was built with: the handles
    of its environments, its build directory and prefix, the installed
    list, the download and build switches, the runner, and the options
    help, clean, jobs and the -n of the command line.  Of a component it
    changes nothing but the two cached flags and the paths [configure]
    assigns, and no component is added or removed.  (The no_exec value
    that SetOption sets is not among these: a check-only component
    switches it.) *)
Theorem require_keeps_registry (calls : list call) (s : state W) :
  keeps_registry s (run_calls H calls s).
Proof.
  assert (PreOrder (@keeps_registry W)) as Hpre.
  { split.
    - intros s0. split; reflexivity.
    - intros s1 s2 s3 [H1 H2] [H3 H4]. split; congruence. }
  assert (forall fuel env comps kw,
            preserves keeps_registry (require H fuel env comps kw)) as Hreq.
  { intros fuel env comps kw. apply walk_require with (special := fun _ => False).
    - exact Hpre.
    - intros s0 s' Hf. apply frame_evolves in Hf. destruct Hf. split; assumption.
    - exact _.
    - intros m f _ Hf s0. split; [reflexivity|]. simpl. apply fmap_alter_same, Hf.
    - intros m e _ _ s0. split; reflexivity.
    - intros m s0 _. split; reflexivity.
    - intros m e s0 _. split; reflexivity.
    - intros m rec env' kw' []. }
  revert s. induction calls as [|c calls IH]; intros s; simpl.
  - reflexivity.
  - etransitivity; [apply Hreq|apply IH].
Qed.

(** X11: the flag [require] caches for a name is never True, not even
    when the component was built; so [require] of a name required
    before never returns True. *)
Theorem require_cached_flag_false (calls : list call) (n : string) (c : component W)
    (fuel env : nat) (kw : require_kw) (s : state W) :
  flags_false s ->
  let s1 := run_calls H calls s in
  flags_false s1 /\
  (defined s1 !! n = Some c -> errors s1 !! n = None -> is_Some (required s1 !! n) ->
   forall b s2, require H (S fuel) env [n] kw s1 = (Ok b, s2) -> b = false).
Proof.
  intros Hs s1.
  assert (flags_false s1) as Hs1 by (apply required_flags_false, Hs).
  split; [exact Hs1|]. intros Hd He [changed Hr] b s2.
  rewrite (require_again H n c changed) by assumption.
  rewrite (Hs1 n changed Hr).
  destruct (opt_help s1); [intros [= <- _]; reflexivity|].
  rewrite bind_run.
  destruct (set_environment H c env _ s1) as [[[]|e|] s']; [|discriminate..].
  destruct (opt_clean s1); intros [= <- _]; reflexivity.
Qed.

(** X12: [define] does not reset what [require] cached: a name defined
    anew with an exception cached still has [require] raise it at once. *)
Theorem define_keeps_cached_exception (n : string) (comp : component W) (e : exn)
    (fuel env : nat) (rest : list string) (kw : require_kw) (s : state W) :
  errors s !! n = Some e ->
  let s1 := (define n comp s).2 in
  require H (S fuel) env (n :: rest) kw s1 = (Raise e, s1).
Proof.
  intros He s1.
  apply (require_replays H n (set_flags false
           (bool_decide ("all" ∈ installed s) || bool_decide (n ∈ installed s)) comp)).
  - unfold s1, define. simpl. apply lookup_insert_eq.
  - exact He.
Qed.

End RegistryExtras.

(** Nothing is defined: the name foo is missing. *)
Lemma require_missing_definition_witness :
  require build_host 1 0 ["foo"] (mkRequireKw false ∅) (test_state [])
    = (Raise (MissingDefinition "foo"), test_state []).
Proof.
  exact (require_missing_definition build_host "foo" 0 0 [] (mkRequireKw false ∅)
           (test_state []) eq_refl).
Defined.

(** The registry of foo starts with nothing cached. *)
Lemma require_cached_flag_false_witness :
  flags_false (run_calls build_host [mkCall 2 0 ["foo"] (mkRequireKw false ∅)]
                 (foo_state [])) /\
  (defined (run_calls build_host [mkCall 2 0 ["foo"] (mkRequireKw false ∅)]
              (foo_state [])) !! "foo" = Some foo_component ->
   errors (run_calls build_host [mkCall 2 0 ["foo"] (mkRequireKw false ∅)]
             (foo_state [])) !! "foo" = None ->
   is_Some (required (run_calls build_host [mkCall 2 0 ["foo"] (mkRequireKw false ∅)]
                        (foo_state [])) !! "foo") ->
   forall b s2,
     require build_host 1 0 ["foo"] (mkRequireKw false ∅)
       (run_calls build_host [mkCall 2 0 ["foo"] (mkRequireKw false ∅)] (foo_state []))
       = (Ok b, s2) -> b = false).
Proof.
  apply (require_cached_flag_false build_host
           [mkCall 2 0 ["foo"] (mkRequireKw false ∅)] "foo" foo_component 0 0
           (mkRequireKw false ∅) (foo_state [])).
  intros m b Hm. vm_compute in Hm. discriminate Hm.
Defined.

(** The exception cached for foo by a first [require] outlives a new
    definition of foo. *)
Lemma define_keeps_cached_exception_witness :
  require build_host 1 0 ["foo"] (mkRequireKw false ∅)
    (define "foo" foo_component
       (require build_host 2 0 ["foo"] (mkRequireKw false ∅) (foo_state [])).2).2
  = (Raise (MissingTargets "foo" (Some "foo")),
     (define "foo" foo_component
        (require build_host 2 0 ["foo"] (mkRequireKw false ∅) (foo_state [])).2).2).
Proof.
  apply (define_keeps_cached_exception build_host "foo" foo_component
           (MissingTargets "foo" (Some "foo")) 0 0 [] (mkRequireKw false ∅)
           (require build_host 2 0 ["foo"] (mkRequireKw false ∅) (foo_state [])).2).
  vm_compute. reflexivity.
Defined.

(** * More of the component *)
Section ComponentExtras.

Context {W : Type} (H : host W).

#[local] Instance unchanged_preorder {A} (f : state W -> A) : PreOrder (unchanged f).
Proof. split; [intros s; reflexivity|intros s1 s2 s3 H1 H2; unfold unchanged in *; congruence]. Qed.

Ltac same_walk := repeat first [ solve [intros ?; reflexivity] | pres_step ].

Lemma beside_envs_parse_config c env opts :
  preserves (unchanged beside_envs) (parse_config H c env opts).
Proof. unfold parse_config. same_walk. Qed.

Lemma beside_envs_set_environment c env needed_libs :
  preserves (unchanged beside_envs) (set_environment H c env needed_libs).
Proof.
  unfold set_environment, join_opt.
  repeat first
    [ apply beside_envs_parse_config
    | solve [intros ?; reflexivity]
    | pres_step ].
Qed.

(** X13: [set_environment] changes the environment it is given and
    nothing else: the components, the caches of the registry, its
    options, the retrievers, the machine and every other environment are
    as before. *)
Theorem set_environment_only_env (c : component W) (i : nat)
    (needed_libs : option (list string)) (s : state W) :
  only_env i s (set_environment H c i needed_libs s).2.
Proof.
  split; [apply beside_envs_set_environment|].
  destruct (touches_set_environment H i c needed_libs s) as [(f & Hf) _].
  rewrite Hf. split; [apply length_alter|].
  intros j Hj. apply list_lookup_alter_ne. congruence.
Qed.

(** X14: [set_environment] raises exactly for a component that is neither
    used as installed nor configured yet: joining the missing prefix
    raises the TypeError before anything is changed.  For every other
    component it returns. *)
Theorem set_environment_raises_unconfigured (c : component W) (i : nat)
    (needed_libs : option (list string)) (s : state W) :
  if negb (use_installed c) && bool_decide (component_prefix c = None)
  then set_environment H c i needed_libs s
       = (Raise (TypeError "expected str, bytes or os.PathLike object, not NoneType"), s)
  else exists s', set_environment H c i needed_libs s = (Ok tt, s').
Proof.
  destruct (negb (use_installed c) && bool_decide (component_prefix c = None)) eqn:Hn.
  - apply set_environment_no_prefix. exact Hn.
  - destruct (returns_set_environment H c i needed_libs Hn s) as ([] & s' & Hr).
    exists s'. exact Hr.
Qed.

(** X15: in a dry run that check_only does not lift (the one of the
    command line never is), and in help mode, [has_missing_targets] of a
    component not yet found answers "missing" without making any
    configure check, and leaves the component not found; at most
    pkg-config was asked for the cflags. *)
Theorem has_missing_targets_skips (n : string) (env : nat) (c : component W)
    (s : state W) :
  defined s !! n = Some c ->
  targets_found c = false ->
  cmd_no_exec s || negb (c_check_only c) && opt_no_exec s || opt_help s = true ->
  exists s' parse,
    has_missing_targets H n env s = (Ok true, s') /\
    trace s' = trace s ++ parse /\
    (parse = [] \/
     exists pkg, pkgconfig c = Some pkg /\
       parse = [EParseConfig ("pkg-config --cflags " +:+ pkg)]) /\
    defined s' = defined s.
Proof.
  intros Hc Hfound Hskip.
  pose proof (has_missing_targets_run H n env s) as Hrun.
  simpl in Hrun. rewrite Hc in Hrun. simpl in Hrun. unfold makes_checks in Hrun.
  rewrite Hfound, Hskip in Hrun. simpl in Hrun.
  destruct Hrun as (missing & s' & parse & results & Hr & Ht & Hp & _ & _ & -> & -> & Hd).
  exists s', parse. simpl in Ht. rewrite app_nil_r in Ht. auto.
Qed.


End ComponentExtras.

(** The registry of foo in help mode: foo is reported missing, no check
    is made. *)
Lemma has_missing_targets_skips_witness :
  exists s' parse,
    has_missing_targets build_host "foo" 0 help_state = (Ok true, s') /\
    trace s' = trace help_state ++ parse /\
    (parse = [] \/
     exists pkg, pkgconfig foo_component = Some pkg /\
       parse = [EParseConfig ("pkg-config --cflags " +:+ pkg)]) /\
    defined s' = defined help_state.
Proof.
  exact (has_missing_targets_skips build_host "foo" 0 foo_component help_state
           eq_refl eq_refl eq_refl).
Defined.

(** * Optional components and compiler flags *)

(** X17: [included] answers False exactly when one of the names is an
    optional component that the include list holds neither by its name
    nor through "all"; a name that is not optional never matters. *)
Theorem included_spec (include comps : list string) :
  included include comps = true <->
  forall comp, comp ∈ comps -> comp ∈ OPTIONAL_COMPS ->
    comp ∈ include \/ "all" ∈ include.
Proof.
  induction comps as [|c rest IH]; simpl.
  - split; [intros _ comp Hin; inversion Hin|reflexivity].
  - destruct (bool_decide (c ∈ OPTIONAL_COMPS)) eqn:Hopt; simpl.
    + apply bool_decide_eq_true in Hopt.
      destruct (bool_decide (c ∈ include)) eqn:Hc; simpl.
      * apply bool_decide_eq_true in Hc. rewrite IH. split.
        -- intros Hrest comp Hin Ho. apply elem_of_cons in Hin as [->|Hin]; auto.
        -- intros Hall comp Hin. apply Hall. apply elem_of_cons. auto.
      * apply bool_decide_eq_false in Hc.
        destruct (bool_decide ("all" ∈ include)) eqn:Ha; simpl.
        -- apply bool_decide_eq_true in Ha. rewrite IH. split; [auto|].
           intros Hall comp Hin. apply Hall. apply elem_of_cons. auto.
        -- apply bool_decide_eq_false in Ha. split; [discriminate|].
           intros Hall. destruct (Hall c) as [Hin|Hin]; [apply elem_of_cons; auto|..];
             tauto.
    + apply bool_decide_eq_false in Hopt. rewrite IH. split.
      * intros Hrest comp Hin Ho. apply elem_of_cons in Hin as [->|Hin]; [tauto|auto].
      * intros Hall comp Hin. apply Hall. apply elem_of_cons. auto.
Qed.

Section FlagChecks.

Context {W : Type}.

Lemma check_flags_loop_first_seen (CheckFlag CheckFlagCC : string -> M W bool)
    env key cxx value checked (s : state W) :
  check_flags_loop CheckFlag CheckFlagCC env key cxx value checked s
  = check_flags_loop CheckFlag CheckFlagCC env key cxx (first_seen checked value)
      checked s.
Proof.
  revert checked s. induction value as [|flag rest IH]; intros checked s; [reflexivity|].
  cbn [check_flags_loop first_seen].
  destruct (bool_decide (flag ∈ checked)) eqn:Hin; [apply IH|].
  cbn [check_flags_loop]. rewrite Hin, !bind_run.
  destruct (_ s) as [[insert|e|] s1]; [|reflexivity..].
  rewrite !bind_run. destruct (_ s1) as [[[]|e|] s2]; [|reflexivity..].
  apply IH.
Qed.

(** X18: [check_flags] tests a flag once: a flag that stands several
    times in the list is tested, and appended, at its first place only,
    so the call is the call for the list without the repeats. *)
Theorem check_flags_first_seen (CheckFlag CheckFlagCC : string -> M W bool)
    (env : nat) (key : string) (value : list string) (s : state W) :
  check_flags CheckFlag CheckFlagCC env key value s
  = check_flags CheckFlag CheckFlagCC env key (first_seen [] value) s.
Proof.
  unfold check_flags. rewrite !bind_gets.
  destruct (opt_help s || opt_clean s); [reflexivity|].
  rewrite !bind_gets. apply check_flags_loop_first_seen.
Qed.

Lemma check_flags_loop_cflags (CheckFlag CheckFlagCC CheckFlagCC' : string -> M W bool)
    env cxx value checked (s : state W) :
  check_flags_loop CheckFlag CheckFlagCC env "CFLAGS" cxx value checked s
  = check_flags_loop CheckFlag CheckFlagCC' env "CFLAGS" cxx value checked s.
Proof.
  revert checked s. induction value as [|flag rest IH]; intros checked s; [reflexivity|].
  cbn [check_flags_loop]. destruct (bool_decide (flag ∈ checked)); [apply IH|].
  simpl String.eqb. cbv iota. rewrite !bind_run.
  destruct (CheckFlag flag s) as [[insert|e|] s1]; [|reflexivity..].
  rewrite !bind_run. destruct (_ s1) as [[[]|e|] s2]; [|reflexivity..].
  apply IH.
Qed.

Lemma check_flags_loop_other (CheckFlag CheckFlag' CheckFlagCC : string -> M W bool)
    env key cxx value checked (s : state W) :
  String.eqb key "CCFLAGS" = false -> String.eqb key "CFLAGS" = false ->
  check_flags_loop CheckFlag CheckFlagCC env key cxx value checked s
  = check_flags_loop CheckFlag' CheckFlagCC env key cxx value checked s.
Proof.
  intros H1 H2. revert checked s.
  induction value as [|flag rest IH]; intros checked s; [reflexivity|].
  cbn [check_flags_loop]. destruct (bool_decide (flag ∈ checked)); [apply IH|].
  rewrite H1, H2, !bind_run.
  destruct (_ s) as [[insert|e|] s1]; [|reflexivity..].
  rewrite !bind_run. destruct (_ s1) as [[[]|e|] s2]; [|reflexivity..].
  apply IH.
Qed.

(** X19: which test [check_flags] runs depends on the variable: the flags
    of CFLAGS are never put to the C++ test, and the flags of a variable
    other than CCFLAGS and CFLAGS never to the C test; whatever these
    tests are, the call is the same. *)
Theorem check_flags_tests (CheckFlag CheckFlag' CheckFlagCC CheckFlagCC'
      : string -> M W bool) (env : nat) (key : string) (value : list string)
    (s : state W) :
  check_flags CheckFlag CheckFlagCC env "CFLAGS" value s
  = check_flags CheckFlag CheckFlagCC' env "CFLAGS" value s /\
  (String.eqb key "CCFLAGS" || String.eqb key "CFLAGS" = false ->
   check_flags CheckFlag CheckFlagCC env key value s
   = check_flags CheckFlag' CheckFlagCC env key value s).
Proof.
  split.
  - unfold check_flags. rewrite !bind_gets.
    destruct (opt_help s || opt_clean s); [reflexivity|].
    rewrite !bind_gets. apply check_flags_loop_cflags.
  - intros Hk. apply orb_false_iff in Hk as [H1 H2].
    unfold check_flags. rewrite !bind_gets.
    destruct (opt_help s || opt_clean s); [reflexivity|].
    rewrite !bind_gets. apply check_flags_loop_other; assumption.
Qed.

End FlagChecks.

(** * Help mode *)
Section HelpMode.

Context {W : Type} (H : host W).

#[local] Instance in_help_preorder : PreOrder (@in_help W).
Proof.
  split.
  - intros s Hs. split; [exact Hs|]. exists []. rewrite app_nil_r. auto.
  - intros s1 s2 s3 H12 H23 Hs.
    destruct (H12 Hs) as (Hs2 & t1 & Ht1 & Hf1).
    destruct (H23 Hs2) as (Hs3 & t2 & Ht2 & Hf2).
    split; [exact Hs3|]. exists (t1 ++ t2).
    rewrite Ht2, Ht1, app_assoc. split; [reflexivity|]. apply Forall_app; auto.
Qed.

Lemma in_help_frame (s s' : state W) : frame machine_event s s' -> in_help s s'.
Proof.
  intros Hf Hs. split.
  - pose proof (frame_consts _ _ _ Hf) as Hc. unfold consts in Hc.
    injection Hc as _ _ _ _ _ _ _ _ _ Hh _ _. congruence.
  - destruct (frame_trace _ _ _ Hf) as (t & Ht & HP). exists t. split; [exact Ht|].
    eapply Forall_impl; [exact HP|]. intros e He. destruct e; try reflexivity;
      discriminate He.
Qed.

(** A change of the state that leaves the option and the log alone. *)
Lemma in_help_quiet (s s' : state W) :
  opt_help s' = opt_help s -> trace s' = trace s -> in_help s s'.
Proof.
  intros Hh Ht Hs. split; [congruence|]. exists []. rewrite app_nil_r. auto.
Qed.

Lemma in_help_log e : source_build e = false -> preserves in_help (log e : M W unit).
Proof.
  intros He s Hs. split; [exact Hs|]. exists [e]. split; [reflexivity|]. auto.
Qed.

Lemma in_help_leaf {A} (m : M W A) :
  preserves (frame machine_event) m -> preserves in_help m.
Proof. apply preserves_weaken, in_help_frame. Qed.

Section Rec.

Variable require_rec : nat -> list string -> require_kw -> M W bool.
Hypothesis rec_in_help : forall env comps kw,
  preserves in_help (require_rec env comps kw).

(** In help mode [_check_user_options] answers True, if it returns. *)
Lemma check_user_options_help n env needed_libs (s s' : state W) stop :
  opt_help s = true ->
  _check_user_options H require_rec n env needed_libs s = (Ok stop, s') ->
  stop = true.
Proof.
  intros Hh. unfold _check_user_options, self. rewrite !bind_gets, Hh, bind_run.
  destruct (_ s) as [[[]|e|] s1]; [|discriminate..].
  intros [= <- _]. reflexivity.
Qed.

Lemma in_help_check_user_options n env needed_libs :
  preserves in_help (_check_user_options H require_rec n env needed_libs).
Proof.
  unfold _check_user_options.
  repeat first
    [ apply rec_in_help
    | solve [apply in_help_leaf; frame_leaf]
    | pres_step ].
Qed.

Lemma in_help_build n env needed_libs :
  preserves in_help (build H require_rec n env needed_libs).
Proof.
  intros s. destruct (opt_help s) eqn:Hs; [|intros Hf; congruence].
  unfold build, log. rewrite bind_modify, bind_gets.
  set (s1 := set_trace (trace s ++ [EBuild n]) s).
  assert (in_help s s1) as H1.
  { intros _. split; [exact Hs|]. exists [EBuild n]. split; [reflexivity|]. auto. }
  destruct (Clone (system_env s1) s1) as [r s2] eqn:HC.
  assert (exists i, r = Ok i) as [i ->] by (injection HC as <- _; eauto).
  assert (in_help s1 s2) as H2.
  { injection HC as _ <-. apply in_help_quiet; reflexivity. }
  rewrite (bind_ok _ _ _ _ _ HC), bind_run.
  assert (opt_help s2 = true) as Hs2 by (apply H2, H1, Hs).
  pose proof (in_help_check_user_options n env needed_libs s2) as H3.
  pose proof (check_user_options_help n env needed_libs s2) as Hstop.
  destruct (_check_user_options H require_rec n env needed_libs s2)
    as [[stop|e|] s3]; simpl in H3.
  - rewrite (Hstop s3 stop Hs2 eq_refl). simpl.
    do 2 (etransitivity; [eassumption|]). exact H3.
  - do 2 (etransitivity; [eassumption|]). exact H3.
  - do 2 (etransitivity; [eassumption|]). exact H3.
Qed.

Lemma in_help_require_one env kw m :
  preserves in_help (require_one H require_rec env kw m).
Proof.
  assert (preserves in_help (configure H m)) as Hconfigure.
  { apply (walk_configure H (fun _ => in_help)) with (kc := 0).
    - intros s. reflexivity.
    - intros _ _ s1 s2 s3. apply transitivity.
    - auto.
    - apply in_help_frame.
    - intros f _ s. apply in_help_quiet; reflexivity.
    - intros s. apply (in_help_log (EConfigure m)). reflexivity. }
  assert (preserves in_help (_modify_prefix H m)) as Hprefix.
  { apply (walk_modify_prefix H (fun _ => in_help)).
    - intros s. reflexivity.
    - intros _ _ s1 s2 s3. apply transitivity.
    - apply in_help_frame. }
  unfold require_one.
  repeat first
    [ apply in_help_build
    | assumption
    | solve [apply in_help_leaf; frame_leaf]
    | solve [intros ?; apply in_help_quiet; reflexivity]
    | pres_step ].
Qed.

End Rec.

Lemma in_help_require fuel env comps kw :
  preserves in_help (require H fuel env comps kw).
Proof.
  apply walk_require with (special := fun _ => True).
  - exact _.
  - apply in_help_frame.
  - exact _.
  - intros m f Hm. tauto.
  - intros m e Hm. tauto.
  - intros m s Hm. tauto.
  - intros m e s Hm. tauto.
  - intros m rec env' kw' _ Hrec. apply in_help_require_one, Hrec.
Qed.

(** X20: in help mode [require] retrieves no source and runs no build
    commands, of any component and over any calls: [build] leaves
    with True as soon as the prerequisites are required. *)
Theorem help_mode_builds_nothing (calls : list call) (s : state W) :
  opt_help s = true ->
  exists t, trace (run_calls H calls s) = trace s ++ t /\
    Forall (fun e => source_build e = false) t.
Proof.
  intros Hs. assert (in_help s (run_calls H calls s)) as Hh.
  { clear Hs. revert s. induction calls as [|c calls IH]; intros s; simpl.
    - reflexivity.
    - etransitivity; [apply in_help_require|apply IH]. }
  apply Hh, Hs.
Qed.

End HelpMode.

(** The registry of foo in help mode, foo required twice. *)
Lemma help_mode_builds_nothing_witness :
  exists t,
    trace (run_calls build_host
             [mkCall 2 0 ["foo"] (mkRequireKw false ∅);
              mkCall 2 1 ["foo"] (mkRequireKw false ∅)] help_state)
    = trace help_state ++ t /\
    Forall (fun e => source_build e = false) t.
Proof.
  exact (help_mode_builds_nothing build_host
           [mkCall 2 0 ["foo"] (mkRequireKw false ∅);
            mkCall 2 1 ["foo"] (mkRequireKw false ∅)] help_state eq_refl).
Defined.

(** * Prebuilt paths and archives *)
Section Prebuilt2.

Context {W : Type} (H : host W).

#[local] Instance unchanged_preorder2 {A} (f : state W -> A) : PreOrder (unchanged f).
Proof.
  split; [intros s; reflexivity|].
  intros s1 s2 s3 H1 H2. unfold unchanged in *. congruence.
Qed.

Ltac same_walk := repeat first [ solve [intros ?; reflexivity] | pres_step ].

Lemma caches_parse_config c env opts :
  preserves (unchanged prebuilt_paths) (parse_config H c env opts).
Proof. unfold parse_config. same_walk. Qed.

Lemma caches_check_functions c fs cenv :
  preserves (unchanged prebuilt_paths) (check_functions H c fs cenv).
Proof.
  revert cenv. induction fs as [|[lib fns] rest IH]; intros cenv; simpl.
  - same_walk.
  - unfold run_probe, checks_failed, SetOption_no_exec.
    repeat first [ apply IH | solve [intros ?; reflexivity] | pres_step ].
Qed.

Lemma caches_has_missing_targets n env :
  preserves (unchanged prebuilt_paths) (has_missing_targets H n env).
Proof.
  unfold has_missing_targets, self, run_probe, checks_failed, SetOption_no_exec,
    update_self.
  repeat first
    [ apply caches_parse_config
    | apply caches_check_functions
    | solve [intros ?; reflexivity]
    | pres_step ].
Qed.

(** The loop of [get_prebuilt_path] over the directories. *)
Lemma get_prebuilt_path_loop n renv paths (s : state W) :
  exists r s',
    for_return paths (fun path =>
      w ← gets world;
      let ipath :=
        let p := Path.join path "include" in
        if os_path_exists H w p then Some p else None in
      let lpath :=
        fold_left (fun (_ : option string) lib =>
          let p := Path.join path lib in
          if os_path_exists H w p then Some p else None) ["lib64"; "lib"] None in
      if bool_decide (ipath = None) && bool_decide (lpath = None) then mret None
      else
        env ← Clone renv;
        (if truthy_opt ipath
         then update_env env (AppendUnique "CPPPATH" (default "" ipath))
         else mret tt);;
        (if truthy_opt lpath
         then update_env env (AppendUnique "LIBPATH" (default "" lpath))
         else mret tt);;
        missing ← has_missing_targets H n env;
        if negb missing then
          modify (fun s => set_caches (<[n := Some path]> (prebuilt_paths s))
                             (src_paths s) s);;
          mret (Some path)
        else mret None) s
    = (Ok r, s') /\
    match r with
    | Some path => prebuilt_paths s' !! n = Some (Some path)
    | None => prebuilt_paths s' = prebuilt_paths s
    end.
Proof.
  match goal with |- context [for_return _ ?b] => set (body := b) end.
  assert (forall path s, exists r s',
            body path s = (Ok r, s') /\
            match r with
            | Some p => prebuilt_paths s' !! n = Some (Some p)
            | None => prebuilt_paths s' = prebuilt_paths s
            end) as Hbody.
  { intros path s0. unfold body. rewrite bind_gets. cbv zeta.
    destruct (_ && _); [exists None, s0; split; reflexivity|].
    set (s1 := (Clone renv s0).2). set (i := length (envs s0)).
    assert (Clone renv s0 = (Ok i, s1)) as HC by reflexivity.
    rewrite (bind_ok _ _ _ _ _ HC).
    match goal with
    | |- context [((if ?b then ?m else mret tt) ≫= ?k) s1] =>
        assert (exists s2, (if b then m else mret tt) s1 = (Ok tt, s2) /\
                  prebuilt_paths s2 = prebuilt_paths s0) as (s2 & H2 & Hc2)
          by (destruct b; eexists; split; reflexivity)
    end.
    rewrite (bind_ok _ _ _ _ _ H2).
    match goal with
    | |- context [((if ?b then ?m else mret tt) ≫= ?k) s2] =>
        assert (exists s3, (if b then m else mret tt) s2 = (Ok tt, s3) /\
                  prebuilt_paths s3 = prebuilt_paths s2) as (s3 & H3 & Hc3)
          by (destruct b; eexists; split; reflexivity)
    end.
    rewrite (bind_ok _ _ _ _ _ H3).
    destruct (returns_has_missing_targets H n i s3) as (missing & s4 & H4).
    pose proof (caches_has_missing_targets n i s3) as Hc4. rewrite H4 in Hc4.
    rewrite (bind_ok _ _ _ _ _ H4).
    destruct missing; cbn [negb].
    + exists None, s4. split; [reflexivity|]. unfold unchanged in Hc4. simpl in Hc4.
      congruence.
    + rewrite bind_modify. eexists (Some path), _. split; [reflexivity|].
      simpl. apply lookup_insert_eq. }
  clearbody body. revert s. induction paths as [|path rest IH]; intros s.
  - exists None, s. split; reflexivity.
  - cbn [for_return]. rewrite bind_run.
    destruct (Hbody path s) as (r & s1 & Hr & Hc). rewrite Hr.
    destruct r as [p|].
    + exists (Some p), s1. split; [reflexivity|exact Hc].
    + destruct (IH s1) as (r & s' & Hr' & Hc'). exists r, s'. split; [exact Hr'|].
      destruct r; [exact Hc'|congruence].
Qed.


(** X22: a directory of ALT_PREFIX that holds neither include nor lib is
    passed over without any check, whatever else it holds: of the loop
    over lib64 and lib only the last answer is kept, so a lib64 does not
    count.  With no other directory the answer is None, and it is cached. *)
Theorem get_prebuilt_path_needs_include_or_lib (n : string) (s : state W) :
  prebuilt_paths s !! n = None ->
  (forall path, path ∈ alt_prefixes s ->
     os_path_exists H (world s) (Path.join path "include") = false /\
     os_path_exists H (world s) (Path.join path "lib") = false) ->
  get_prebuilt_path H n s
  = (Ok None, set_caches (<[n := None]> (prebuilt_paths s)) (src_paths s) s).
Proof.
  intros Hn Hpaths. unfold get_prebuilt_path, alt_prefixes in *.
  rewrite bind_gets, Hn, !bind_gets. cbv zeta.
  match goal with
  | |- (for_return ?paths ?body ≫= _) s = _ =>
      assert (for_return paths body s = (Ok None, s)) as Hloop
  end.
  { revert Hpaths.
    generalize (match env_get "ALT_PREFIX" (the_env (reg_env s) s) with
                | Some x => Str.split ":" x
                | None => []
                end).
    intros paths. induction paths as [|path rest IH]; intros Hpaths; [reflexivity|].
    cbn [for_return]. rewrite bind_run, bind_gets.
    destruct (Hpaths path) as [Hi Hl]; [apply elem_of_cons; auto|].
    cbv zeta. cbn [fold_left]. rewrite Hi, Hl. simpl.
    apply IH. intros p Hp. apply Hpaths. apply elem_of_cons. auto. }
  rewrite (bind_ok _ _ _ _ _ Hloop). reflexivity.
Qed.

#[local] Instance no_runs_preorder : PreOrder (@no_runs W).
Proof.
  split.
  - intros s. exists []. rewrite app_nil_r. auto.
  - intros s1 s2 s3 (t1 & Ht1 & Hf1) (t2 & Ht2 & Hf2). exists (t1 ++ t2).
    rewrite Ht2, Ht1, app_assoc. split; [reflexivity|]. apply Forall_app; auto.
Qed.

Lemma no_runs_quiet (s s' : state W) : trace s' = trace s -> no_runs s s'.
Proof. intros Ht. exists []. rewrite app_nil_r. auto. Qed.

Lemma no_runs_log e : is_run e = false -> preserves no_runs (log e : M W unit).
Proof. intros He s. exists [e]. split; [reflexivity|]. auto. Qed.

(** X23: an archive that is there with the expected digest is not
    downloaded again: [WebRetriever.get] then runs no command at all,
    whether it goes on to extract the archive or not. *)
Theorem web_get_reuses_archive (url md5 : string) (dry_run : bool) (subdir : string)
    (s : state W) :
  os_path_exists H (world s) (Path.basename url) = true ->
  file_md5 H (world s) (Path.basename url) = md5 ->
  no_runs s (web_get H url md5 dry_run subdir s).2.
Proof.
  intros Hex Hmd5. unfold web_get. cbv zeta. rewrite bind_gets.
  destruct (os_path_exists H (world s) subdir); [reflexivity|].
  assert (check_md5 H md5 (Path.basename url) s = (Ok true, s)) as Hcheck.
  { rewrite check_md5_run, Hex, Hmd5, String.eqb_refl. reflexivity. }
  rewrite (bind_ok _ _ _ _ _ Hcheck), bind_ret_eq. cbn [negb].
  match goal with
  | |- no_runs s (?m s).2 => assert (preserves no_runs m) as Hm; [|apply Hm]
  end.
  unfold safe_extract.
  repeat first
    [ solve [apply no_runs_log; reflexivity]
    | solve [intros ?; apply no_runs_quiet; reflexivity]
    | pres_step ].
Qed.

End Prebuilt2.

(** /opt/alt has a lib64 and neither include nor lib: it is passed over. *)
Lemma get_prebuilt_path_needs_include_or_lib_witness :
  os_path_exists build_host (world alt_state) "/opt/alt/lib64" = true /\
  get_prebuilt_path build_host "foo" alt_state
  = (Ok None,
     set_caches (<["foo" := None]> (prebuilt_paths alt_state)) (src_paths alt_state)
       alt_state).
Proof.
  split; [reflexivity|].
  apply (get_prebuilt_path_needs_include_or_lib build_host "foo" alt_state).
  - reflexivity.
  - intros path Hp. vm_compute in Hp. apply list_elem_of_singleton in Hp as ->.
    split; reflexivity.
Defined.

(** The archive of the worked example is there with its digest. *)
Lemma web_get_reuses_archive_witness :
  no_runs archive_state
    (web_get build_host "https://example.org/pkg-1.0.tar.gz" test_digest false
       "/build/external/pkg" archive_state).2.
Proof.
  apply (web_get_reuses_archive build_host "https://example.org/pkg-1.0.tar.gz"
           test_digest false "/build/external/pkg" archive_state).
  - vm_compute. reflexivity.
  - reflexivity.
Defined.

(** * configure and the prefix *)
Section Prefix.

Context {W : Type} (H : host W).
Variable n : string.

#[local] Instance keeps_prefixed_preorder :
  PreOrder (fun s s' : state W => prefixed n s -> prefixed n s').
Proof. split; [intros s Hs; exact Hs|intros s1 s2 s3 H1 H2 Hs; auto]. Qed.

Lemma prefixed_frame (s s' : state W) :
  frame machine_event s s' -> prefixed n s -> prefixed n s'.
Proof.
  intros Hf (c & Hc & Hp). pose proof (frame_defined _ _ _ Hf) as Hd.
  apply (f_equal (fun d => d !! n)) in Hd. rewrite !lookup_fmap, Hc in Hd.
  destruct (defined s' !! n) as [c'|] eqn:Hc'; [|discriminate Hd].
  exists c'. split; [exact Hc'|]. simpl in Hd.
  assert (erase_flags c' = erase_flags c) as He by congruence.
  apply (f_equal component_prefix) in He. simpl in He. rewrite He. exact Hp.
Qed.

Lemma prefixed_update (f : component W -> component W) :
  (forall c, component_prefix (f c) = component_prefix c) ->
  preserves (fun s s' : state W => prefixed n s -> prefixed n s') (update_self n f).
Proof.
  intros Hf s (c & Hc & Hp). exists (f c). simpl.
  rewrite lookup_alter_eq, Hc, Hf. auto.
Qed.

Lemma get_prefixes_returns name prebuilt (s : state W) :
  exists cp pf s', get_prefixes name prebuilt s = (Ok (cp, pf), s').
Proof.
  unfold get_prefixes, _save_component_prefix, set_reg_env. rewrite !bind_gets.
  destruct (truthy_opt prebuilt); eexists _, _, _; reflexivity.
Qed.

Lemma get_prebuilt_path_returns (s : state W) :
  exists v s', get_prebuilt_path H n s = (Ok v, s').
Proof.
  unfold get_prebuilt_path. rewrite bind_gets.
  destruct (prebuilt_paths s !! n) as [v|]; [eexists _, _; reflexivity|].
  rewrite !bind_gets. cbv zeta.
  destruct (get_prebuilt_path_loop H n (reg_env s)
              match env_get "ALT_PREFIX" (the_env (reg_env s) s) with
              | Some x => Str.split ":" x
              | None => []
              end s) as (r & s' & Hr & _).
  rewrite (bind_ok _ _ _ _ _ Hr). destruct r; eexists _, _; reflexivity.
Qed.

(** X24: when [configure] returns, the component has its prefix, so
    [set_environment] of it returns for every environment: the TypeError
    of the missing prefix cannot come after configure. *)
Theorem configure_sets_prefix (c : component W) (s s' : state W) :
  defined s !! n = Some c ->
  configure H n s = (Ok tt, s') ->
  exists c',
    defined s' !! n = Some c' /\
    is_Some (component_prefix c') /\
    forall i needed_libs s1, exists s2,
      set_environment H c' i needed_libs s1 = (Ok tt, s2).
Proof.
  intros Hc Hrun.
  assert (prefixed n s') as (c' & Hc' & Hp).
  { revert Hrun. unfold configure, log. rewrite bind_modify.
    unfold self. rewrite bind_gets. simpl defined. rewrite Hc. simpl default.
    set (s0 := set_trace (trace s ++ [EConfigure n]) s).
    assert (exists pb s1,
              (if bool_decide (c_retriever c = None) then mret (Some "/usr")
               else get_prebuilt_path H n) s0 = (Ok pb, s1) /\
              is_Some (defined s1 !! n)) as (pb & s1 & Hpb & Hd1).
    { destruct (bool_decide (c_retriever c = None)).
      - exists (Some "/usr"), s0. split; [reflexivity|]. simpl. rewrite Hc. eauto.
      - destruct (get_prebuilt_path_returns s0) as (v & s1 & Hv). exists v, s1.
        split; [exact Hv|].
        pose proof (preserves_get_prebuilt_path H machine_event (fun _ h => h) n s0)
          as Hf.
        rewrite Hv in Hf. eapply frame_is_defined; [exact Hf|].
        simpl. rewrite Hc. eauto. }
    rewrite (bind_ok _ _ _ _ _ Hpb), bind_update_self.
    match goal with
    | |- context [(get_prefixes (name c) pb ≫= ?k) ?s2] =>
        destruct (get_prefixes_returns (name c) pb s2) as (cp & pf & s3 & Hgp);
        pose proof (preserves_get_prefixes machine_event (name c) pb s2)
          as Hf3;
        rewrite Hgp in Hf3;
        assert (is_Some (defined s2 !! n)) as Hd2
          by (destruct Hd1 as [c1 Hc1]; simpl; rewrite lookup_alter_eq, Hc1; simpl; eauto)
    end.
    rewrite (bind_ok _ _ _ _ _ Hgp). cbv beta iota. rewrite bind_update_self.
    destruct (frame_is_defined _ _ _ n Hf3 Hd2) as [c3 Hc3]. simpl in Hc3.
    match goal with
    | |- (?m ?s4) = _ -> _ =>
        assert (prefixed n s4) as H4;
        [|assert (preserves (fun s s' : state W => prefixed n s -> prefixed n s') m)
            as Hm]
    end.
    - eexists. simpl. rewrite lookup_alter_eq, Hc3. simpl. split; [reflexivity|].
      simpl. eauto.
    - repeat first
        [ solve [apply prefixed_update; reflexivity]
        | solve [apply (preserves_weaken (frame machine_event));
                 [apply prefixed_frame|frame_leaf]]
        | pres_step ].
    - intros Hrun. pose proof (Hm _ H4) as Hfin. rewrite Hrun in Hfin. exact Hfin. }
  exists c'. split; [exact Hc'|]. split; [exact Hp|].
  intros i needed_libs s1.
  destruct (returns_set_environment H c' i needed_libs) with (s := s1) as ([] & s2 & H2).
  - unfold no_prefix_yet. destruct Hp as [cp ->].
    rewrite bool_decide_eq_false_2 by discriminate. apply andb_false_r.
  - exists s2. exact H2.
Qed.

End Prefix.

(** foo is configured in the registry of the worked examples. *)
Lemma configure_sets_prefix_witness :
  exists c',
    defined (configure build_host "foo" (foo_state [])).2 !! "foo" = Some c' /\
    is_Some (component_prefix c') /\
    forall i needed_libs s1, exists s2,
      set_environment build_host c' i needed_libs s1 = (Ok tt, s2).
Proof.
  apply (configure_sets_prefix build_host "foo" foo_component (foo_state [])).
  - reflexivity.
  - vm_compute. reflexivity.
Defined.

(** * The dry run of a check-only component *)
Section DryRunExtras.

Context {W : Type} (H : host W).
Variable c : component W.

(** X25: [has_missing_targets] of a check-only component not yet found
    lifts the dry run for its checks, as far as SetOption can, and
    returns with the dry run in force, whatever the checks find and
    whatever the option was before; only for the help text, and without
    -n on the command line, it returns with the dry run lifted. *)
Theorem has_missing_targets_restores_dry_run (n : string) (env : nat) (s : state W) :
  defined s !! n = Some c ->
  targets_found c = false ->
  c_check_only c = true ->
  no_exec (has_missing_targets H n env s).2 = cmd_no_exec s || negb (opt_help s).
Proof.
  intros Hc Hfound Hco.
  pose proof (has_missing_targets_run H n env s) as Hrun.
  simpl in Hrun. rewrite Hc in Hrun. simpl in Hrun. rewrite Hfound in Hrun.
  destruct Hrun as (missing & s' & parse & results & Hr & _ & _ & Hk & Hn & _).
  rewrite Hr. cbn [snd]. unfold no_exec. rewrite Hn.
  assert (cmd_no_exec s' = cmd_no_exec s) as -> by (unfold consts in Hk; congruence).
  unfold makes_checks. rewrite Hco.
  destruct (cmd_no_exec s), (opt_help s); reflexivity.
Qed.

(** X26: [_has_missing_system_deps] of a check-only component likewise
    returns with the dry run in force whatever its checks find, and with
    the dry run lifted only for the help text without -n on the command
    line. *)
Theorem has_missing_system_deps_restores_dry_run (env : nat) (s : state W) :
  c_check_only c = true ->
  no_exec (_has_missing_system_deps H c env s).2 = cmd_no_exec s || negb (opt_help s).
Proof.
  intros Hco.
  assert (cmd_no_exec (_has_missing_system_deps H c env s).2 = cmd_no_exec s) as Hcmd.
  { pose proof (preserves_has_missing_system_deps H any_event (fun _ _ => I) c env s)
      as Hf.
    destruct Hf as [_ _ Hk _ _ _]. unfold consts in Hk. congruence. }
  unfold no_exec. rewrite Hcmd. clear Hcmd.
  unfold _has_missing_system_deps. rewrite Hco.
  unfold when, SetOption_no_exec, GetOption_no_exec. rewrite bind_modify, bind_gets.
  set (s1 := set_no_exec false s).
  assert (no_exec s1 = cmd_no_exec s) as -> by apply orb_false_r.
  destruct (cmd_no_exec s) eqn:Hcmd; [reflexivity|]. cbn [orb].
  rewrite bind_gets. change (opt_help s1) with (opt_help s).
  destruct (opt_help s); [reflexivity|].
  match goal with
  | |- context [(?m ≫= _) s1] =>
      assert (restores c m) as Hm; [|destruct (Hm s1) as (r & s3 & H3 & Hres)]
  end.
  { apply restores_or_else; apply restores_for_return; intros p; apply restores_probe. }
  rewrite (bind_ok _ _ _ _ _ H3).
  destruct r as [missing|]; simpl; [|reflexivity].
  rewrite Hres, Hco. reflexivity.
Qed.

End DryRunExtras.

(** A check-only foo under a dry run: after the checks the dry run is
    on again. *)
Lemma has_missing_targets_restores_dry_run_witness :
  no_exec (has_missing_targets build_host "foo" 0 (check_only_state false)).2
  = cmd_no_exec (check_only_state false) || negb (opt_help (check_only_state false)).
Proof.
  exact (has_missing_targets_restores_dry_run build_host check_only_foo "foo" 0
           (check_only_state false) eq_refl eq_refl eq_refl).
Defined.

Lemma has_missing_system_deps_restores_dry_run_witness :
  no_exec (_has_missing_system_deps build_host check_only_foo 0
             (check_only_state true)).2
  = cmd_no_exec (check_only_state true) || negb (opt_help (check_only_state true)).
Proof.
  exact (has_missing_system_deps_restores_dry_run build_host check_only_foo 0
           (check_only_state true) eq_refl).
Defined.

(** With -n on the command line the checks are not made, check-only or
    not, and the dry run stays in force, for the help text too. *)
Example command_line_dry_run_stays :
  let s := set_cmd_no_exec (check_only_state true) in
  let r := has_missing_targets build_host "foo" 0 s in
  r.1 = Ok true /\ trace r.2 = [] /\ no_exec r.2 = true.
Proof. vm_compute. repeat split; reflexivity. Qed.
